(** * ttok4bedrock: token counting and truncation against a metered oracle

    A shallow embedding of [ttok4bedrock/bedrock_counter.py], of the two
    package-level functions of [ttok4bedrock/__init__.py] and of the
    command of [ttok4bedrock/cli.py].

    - Python [int] is [Z]; [str] is [string], one [ascii] standing for one
      character, so that [text[:n]] is a prefix by characters.
    - Python [float] is IEEE binary64, taken from [SpecFloat] at precision
      53 and maximal exponent 1024; the conversions that can raise in
      Python ([int / int], [int * float], [int(float)]) return an exception
      here too.
    - The Bedrock client is a parameter [client_count_tokens]: a function
      of the model identifier and of the request, which answers with a
      response or with an exception.  Building the boto3 client lazily
      (the [client] property) is part of that parameter, so that an
      exception of [boto3.client] (a [NoRegionError]) is one of its
      exceptions too.
    - A [BedrockTokenCounter] is the pair of its constructor arguments
      (the client and [cache_size]) and of a mutable [counter] record: the
      LRU cache of [functools.lru_cache], its hit and miss counters, and
      the list [calls] of the requests made of the client so far.  A
      request is listed when [_count_tokens_impl] comes to
      [self.client.count_tokens(...)]: it was sent when the client answers
      it or refuses it with a [ClientError], which only the service
      raises.  When the exception comes from building the client nothing
      was sent, and the list has one request too many: what is stated of
      the requests sent is stated of requests that are answered or refused
      with a [ClientError], or is an upper bound.
    - A method is a function [counter -> outcome A * counter].  The
      [while] loop of [truncate] can spin for ever (a failed probe does not
      advance [api_calls]); it takes fuel, and [Diverge] is the answer of a
      run that needs more. *)

From Stdlib Require Import ZArith List String Ascii Bool Lia Floats.
From Stdlib Require Import DecimalString.
Import ListNotations.
Local Open Scope string_scope.
Local Open Scope list_scope.
Local Open Scope Z_scope.

Set Implicit Arguments.

(** ** Exceptions and outcomes *)

Inductive exn : Type :=
| ValueError (msg : string)
| ClientError (code : string)
| BotoCoreError (name : string)
| ZeroDivisionError
| OverflowError.

Inductive outcome (A : Type) : Type :=
| Ok (a : A)
| Raise (e : exn)
| Diverge.

Arguments Ok {A} a.
Arguments Raise {A} e.
Arguments Diverge {A}.


(** ** Python floats *)

Module PyFloat.

Definition float := spec_float.

Definition literal (f : PrimFloat.float) : float := Prim2SF f.

Definition mul (x y : float) : float := SFmul prec emax x y.

(** [x > y] *)
Definition gtb (x y : float) : bool := SFltb y x.

(** [float(z)] for an [int]: rounded to nearest even, [OverflowError]
    when the integer is too large. *)
Definition of_int (z : Z) : exn + float :=
  match binary_normalize prec emax z 0 false with
  | S754_infinity _ => inl OverflowError
  | f => inr f
  end.

Definition finite_of_Z (z : Z) : float :=
  match z with
  | Z0 => S754_zero false
  | Zpos p => S754_finite false p 0
  | Zneg p => S754_finite true p 0
  end.

(** [a / b] on two [int]s: the correctly rounded quotient. *)
Definition truediv (a b : Z) : exn + float :=
  if b =? 0 then inl ZeroDivisionError
  else if a =? 0 then inr (S754_zero (b <? 0))
  else match SFdiv prec emax (finite_of_Z a) (finite_of_Z b) with
       | S754_infinity _ => inl OverflowError
       | f => inr f
       end.

(** [int(x)]: truncation towards zero. *)
Definition to_int (x : float) : exn + Z :=
  match x with
  | S754_nan => inl (ValueError "cannot convert float NaN to integer")
  | S754_infinity _ => inl OverflowError
  | S754_zero _ => inr 0
  | S754_finite s m e =>
      inr (cond_Zopp s (if 0 <=? e then Zpos m * 2 ^ e
                        else Zpos m / 2 ^ (- e)))
  end.

(** [int(n * x)] for an [int] [n] and a [float] [x]. *)
Definition scale (n : Z) (x : float) : exn + Z :=
  match of_int n with
  | inl e => inl e
  | inr fn => to_int (mul fn x)
  end.

Definition zero : float := Eval vm_compute in literal 0%float.
Definition one : float := Eval vm_compute in literal 1%float.
Definition c_0_95 : float := Eval vm_compute in literal 0x1.e666666666666p-1%float.
Definition c_0_98 : float := Eval vm_compute in literal 0x1.f5c28f5c28f5cp-1%float.
Definition c_1_02 : float := Eval vm_compute in literal 0x1.051eb851eb852p+0%float.
Definition c_0_05 : float := Eval vm_compute in literal 0x1.999999999999ap-5%float.
Definition c_0_15 : float := Eval vm_compute in literal 0x1.3333333333333p-3%float.
Definition c_8 : float := Eval vm_compute in literal 8%float.

End PyFloat.

(** ** Python strings and ranges *)

Definition len (s : string) : Z := Z.of_nat (String.length s).

(** [s[:n]], a negative [n] counting from the end. *)
Definition slice_to (s : string) (n : Z) : string :=
  if 0 <=? n then substring 0 (Z.to_nat n) s
  else substring 0 (Z.to_nat (len s + n)) s.

(** [sum(1 for c in s if p c)] *)
Definition count_chars (p : ascii -> bool) (s : string) : Z :=
  Z.of_nat (List.length (filter p (list_ascii_of_string s))).

Definition is_space (c : ascii) : bool := Ascii.eqb c " "%char.

(** [c in '.,!?;:'] *)
Definition is_punctuation (c : ascii) : bool :=
  existsb (Ascii.eqb c) (list_ascii_of_string ".,!?;:").

(** [s.replace(' ', '')] *)
Definition remove_spaces (s : string) : string :=
  string_of_list_ascii (filter (fun c => negb (is_space c)) (list_ascii_of_string s)).

(** [range(a, b)] *)
Definition range (a b : Z) : list Z :=
  map (fun k => a + Z.of_nat k) (seq 0 (Z.to_nat (b - a))).

(** [range(a, b, -1)] *)
Definition range_down (a b : Z) : list Z :=
  map (fun k => a - Z.of_nat k) (seq 0 (Z.to_nat (a - b))).

(** ** Requests and responses of the CountTokens API *)

Module Api.

Record message : Type := { role : string; content : string }.

Record body : Type :=
  { anthropic_version : string; messages : list message; max_tokens : Z }.

(** [{"invokeModel": {"body": json.dumps(b)}}] *)
Inductive input : Type := InvokeModel (b : body).

(** The response dictionary, as far as the code reads it. *)
Record response : Type := { inputTokens : option Z }.

End Api.

Definition input : Type := Api.input.
Definition response : Type := Api.response.

Definition SUPPORTED_MODELS : list string :=
  [ "anthropic.claude-sonnet-4-20250514-v1:0";
    "anthropic.claude-3-5-haiku-20241022-v1:0";
    "anthropic.claude-3-5-sonnet-20241022-v2:0";
    "anthropic.claude-3-5-sonnet-20240620-v1:0";
    "anthropic.claude-3-7-sonnet-20250219-v1:0";
    "anthropic.claude-opus-4-20250514-v1:0" ].

Definition supported (model_id : string) : bool :=
  existsb (String.eqb model_id) SUPPORTED_MODELS.


(** The request that carries [text]. *)
Definition envelope (text : string) : input :=
  Api.InvokeModel
    {| Api.anthropic_version := "bedrock-2023-05-31";
       Api.messages := [ {| Api.role := "user"; Api.content := text |} ];
       Api.max_tokens := 1 |}.

Definition _format_input_for_model (text model_id : string) : exn + input :=
  if supported model_id then inr (envelope text)
  else
    let models_list := String.concat ", " SUPPORTED_MODELS in
    inl (ValueError
           ("Model " ++ model_id ++ " is not supported. "
            ++ "Please use one of the supported Anthropic Claude models: "
            ++ models_list)%string).

(** ** The counter and its methods *)

Definition key : Type := (string * string)%type.

Definition key_eqb (a b : key) : bool :=
  String.eqb (fst a) (fst b) && String.eqb (snd a) (snd b).

(** The mutable part of a [BedrockTokenCounter].  [cache] is the LRU cache,
    most recently used entry first; [calls] lists the requests made of the
    client, oldest first. *)
Record counter : Type :=
  { cache : list (key * Z);
    hits : Z;
    misses : Z;
    calls : list (string * input) }.

Definition fresh : counter :=
  {| cache := []; hits := 0; misses := 0; calls := [] |}.

Definition M (A : Type) : Type := counter -> outcome A * counter.

Definition ret {A} (a : A) : M A := fun st => (Ok a, st).

Definition raise {A} (e : exn) : M A := fun st => (Raise e, st).

Definition diverge {A} : M A := fun st => (Diverge, st).

Definition bind {A B} (m : M A) (k : A -> M B) : M B :=
  fun st =>
    match m st with
    | (Ok a, st1) => k a st1
    | (Raise e, st1) => (Raise e, st1)
    | (Diverge, st1) => (Diverge, st1)
    end.

(** A pure step that may raise. *)
Definition lift {A} (r : exn + A) : M A :=
  match r with inl e => raise e | inr a => ret a end.

(** [try: m ... except ClientError: h] *)
Definition except_client_error {A} (m : M A) (h : M A) : M A :=
  fun st =>
    match m st with
    | (Raise (ClientError _), st1) => h st1
    | r => r
    end.

Declare Scope monad_scope.
Delimit Scope monad_scope with monad.
Notation "x <- m ;; k" := (bind m (fun x => k))
  (at level 100, m at next level, right associativity) : monad_scope.
Local Open Scope monad_scope.

Fixpoint cache_get (k : key) (l : list (key * Z)) : option Z :=
  match l with
  | [] => None
  | (k', v) :: l' => if key_eqb k k' then Some v else cache_get k l'
  end.

Fixpoint cache_remove (k : key) (l : list (key * Z)) : list (key * Z) :=
  match l with
  | [] => []
  | (k', v) :: l' =>
      if key_eqb k k' then cache_remove k l' else (k', v) :: cache_remove k l'
  end.

(** The dictionary of [get_cache_info]. *)
Module Info.

Record cache_info : Type :=
  { hits : Z; misses : Z; maxsize : Z; currsize : Z;
    hit_rate : PyFloat.float }.

End Info.

Section Counter.

(** [self.client.count_tokens(modelId=..., input=...)] *)
Variable client_count_tokens : string -> input -> exn + response.

(** The [cache_size] given to the constructor. *)
Variable cache_size : Z.

Definition _count_tokens_impl (text model_id : string) : M Z :=
  input_data <- lift (_format_input_for_model text model_id) ;;
  fun st =>
    let st1 :=
      {| cache := cache st; hits := hits st; misses := misses st;
         calls := calls st ++ [(model_id, input_data)] |} in
    match client_count_tokens model_id input_data with
    | inl e => (Raise e, st1)
    | inr resp =>
        (Ok (match Api.inputTokens resp with Some n => n | None => 0 end), st1)
    end.

(** [functools.lru_cache(maxsize)(f)] called on [(text, model_id)]: no
    cache at all when [maxsize <= 0]; a hit moves the entry to the front;
    a miss calls [f] and stores its result, dropping the least recently
    used entry when the cache is full.  An exception of [f] stores
    nothing. *)
Definition lru_cache (maxsize : Z) (f : string -> string -> M Z)
    (text model_id : string) : M Z :=
  fun st =>
    let k := (text, model_id) in
    let missed :=
      {| cache := cache st; hits := hits st; misses := misses st + 1;
         calls := calls st |} in
    if maxsize <=? 0 then f text model_id missed
    else
      match cache_get k (cache st) with
      | Some v =>
          (Ok v, {| cache := (k, v) :: cache_remove k (cache st);
                    hits := hits st + 1; misses := misses st;
                    calls := calls st |})
      | None =>
          match f text model_id missed with
          | (Ok v, st1) =>
              let kept :=
                match cache_get k (cache st1) with
                | Some _ => cache st1
                | None =>
                    (k, v) :: (if maxsize <=? Z.of_nat (List.length (cache st1))
                               then removelast (cache st1)
                               else cache st1)
                end in
              (Ok v, {| cache := kept; hits := hits st1;
                        misses := misses st1; calls := calls st1 |})
          | r => r
          end
      end.

Definition _count_tokens_cached : string -> string -> M Z :=
  lru_cache cache_size _count_tokens_impl.

Definition _get_message_overhead (model_id : string) : M Z :=
  let minimal_text := "A" in
  raw_count <- _count_tokens_cached minimal_text model_id ;;
  ret (raw_count - 1).

Definition count_tokens (text model_id : string) : M Z :=
  raw_count <- _count_tokens_cached text model_id ;;
  overhead <- _get_message_overhead model_id ;;
  ret (Z.max 0 (raw_count - overhead)).

(** [cache_info()] of the wrapper that [functools.lru_cache] builds
    reports a negative [maxsize] as 0 and the number of entries as
    [currsize]. *)
Definition get_cache_info : M Info.cache_info :=
  fun st =>
    let cache_info :=
      {| Info.hits := hits st; Info.misses := misses st;
         Info.maxsize := Z.max 0 cache_size;
         Info.currsize := Z.of_nat (List.length (cache st));
         Info.hit_rate := PyFloat.zero |} in
    let hit_rate :=
      if 0 <? Info.hits cache_info + Info.misses cache_info
      then PyFloat.truediv (Info.hits cache_info)
             (Info.hits cache_info + Info.misses cache_info)
      else inr PyFloat.zero in
    match hit_rate with
    | inl e => (Raise e, st)
    | inr hit_rate =>
        (Ok {| Info.hits := Info.hits cache_info;
               Info.misses := Info.misses cache_info;
               Info.maxsize := Info.maxsize cache_info;
               Info.currsize := Info.currsize cache_info;
               Info.hit_rate := hit_rate |}, st)
    end.

(** *** truncate *)

(** What [truncate] returns: the text, or the text and its metadata
    when [return_metadata] is set. *)
Record metadata : Type := { md_api_calls : Z; md_final_token_count : Z }.

Inductive returned : Type :=
| Text (s : string)
| TextMeta (s : string) (m : metadata).

Definition respond (return_metadata : bool) (s : string)
    (api_calls final_token_count : Z) : returned :=
  if return_metadata
  then TextMeta s {| md_api_calls := api_calls;
                     md_final_token_count := final_token_count |}
  else Text s.

(** The local variables the adaptive loop updates. *)
Record search : Type :=
  { api_calls : Z; target_chars : Z; best_text : string; best_count : Z }.

(** The local variables of the final verification. *)
Record verdict : Type :=
  { v_api_calls : Z; v_best_text : string; final_token_count : Z }.

Section Truncate.

Variables (text : string) (max_tokens : Z) (model_id : string).

(** Step 2 of [truncate]: the ratio of characters per token from the
    raw count of the whole text, and the first candidate length. *)
Definition initial_estimate (full_count_raw : Z)
    : exn + (PyFloat.float * Z) :=
  match PyFloat.truediv (len text) full_count_raw with
  | inl e => inl e
  | inr chars_per_token =>
  match PyFloat.truediv (count_chars is_punctuation text) (len text) with
  | inl e => inl e
  | inr punctuation_ratio =>
  match PyFloat.truediv (count_chars is_space text) (len text) with
  | inl e => inl e
  | inr space_ratio =>
  match PyFloat.truediv (len (remove_spaces text))
                        (Z.max (count_chars is_space text + 1) 1) with
  | inl e => inl e
  | inr avg_word_length =>
      let adjustment_factor := PyFloat.one in
      let adjustment_factor :=
        if PyFloat.gtb punctuation_ratio PyFloat.c_0_05
        then PyFloat.mul adjustment_factor PyFloat.c_0_95
        else adjustment_factor in
      let adjustment_factor :=
        if PyFloat.gtb space_ratio PyFloat.c_0_15
        then PyFloat.mul adjustment_factor PyFloat.c_0_98
        else adjustment_factor in
      let adjustment_factor :=
        if PyFloat.gtb avg_word_length PyFloat.c_8
        then PyFloat.mul adjustment_factor PyFloat.c_1_02
        else adjustment_factor in
      let smart_chars_per_token :=
        PyFloat.mul chars_per_token adjustment_factor in
      match PyFloat.scale max_tokens smart_chars_per_token with
      | inl e => inl e
      | inr target_chars =>
          inr (chars_per_token, Z.min target_chars (len text))
      end
  end end end end.

Variable chars_per_token : PyFloat.float.

Definition called (s : search) : search :=
  {| api_calls := api_calls s + 1; target_chars := target_chars s;
     best_text := best_text s; best_count := best_count s |}.

Definition record (test_text : string) (count : Z) (s : search) : search :=
  {| api_calls := api_calls s; target_chars := target_chars s;
     best_text := test_text; best_count := count |}.

Definition retarget (n : Z) (s : search) : search :=
  {| api_calls := api_calls s; target_chars := n;
     best_text := best_text s; best_count := best_count s |}.

(** [count = self.count_tokens(test_text, model_id)] as the first
    statement of a [try] block whose handler is [except ClientError]:
    [None] when the handler takes over. *)
Definition probe (test_text : string) : M (option Z) :=
  except_client_error
    (count <- count_tokens test_text model_id ;; ret (Some count))
    (ret None).

(** The scan that adds one character at a time, over the positions
    [idx] of its [range]. *)
Fixpoint widen_scan (idx : list Z) (s : search) : M search :=
  match idx with
  | [] => ret s
  | i :: rest =>
      let test_text := slice_to text (i + 1) in
      r <- probe test_text ;;
      match r with
      | Some count =>
          let s := called s in
          if count <=? max_tokens then
            let s := record test_text count s in
            if count =? max_tokens then ret s
            else widen_scan rest s
          else ret s
      | None => ret s
      end
  end.

(** The scan that removes one character at a time. *)
Fixpoint shrink_scan (idx : list Z) (s : search) : M search :=
  match idx with
  | [] => ret s
  | i :: rest =>
      let test_text := slice_to text i in
      r <- probe test_text ;;
      match r with
      | Some count =>
          let s := called s in
          if count <=? max_tokens then
            let s := record test_text count s in
            if count =? max_tokens then ret s else ret s
          else shrink_scan rest s
      | None => ret s
      end
  end.

(** What one iteration of the adaptive loop does with the count of
    its probe: the loop ends ([inl]) or goes on ([inr]). *)
Definition adapt (test_text : string) (count : Z) (s : search)
    : M (search + search) :=
  let s := called s in
  if count =? max_tokens then
    ret (inl (record test_text count s))
  else if count <? max_tokens then
    let s := record test_text count s in
    let remaining_tokens := max_tokens - count in
    if 0 <? remaining_tokens then
      additional_chars <- lift (PyFloat.scale remaining_tokens chars_per_token) ;;
      let s := retarget (Z.min (target_chars s + additional_chars) (len text)) s in
      if additional_chars <=? 5 then
        s <- widen_scan
               (range (len (best_text s))
                      (Z.min (len (best_text s) + 15) (len text))) s ;;
        ret (inl s)
      else ret (inr s)
    else ret (inr s)
  else
    let excess_tokens := count - max_tokens in
    chars_to_remove <- lift (PyFloat.scale excess_tokens chars_per_token) ;;
    let s := retarget (Z.max (target_chars s - chars_to_remove) 1) s in
    if chars_to_remove <=? 5 then
      s <- shrink_scan (range_down (len (best_text s)) 0) s ;;
      ret (inl s)
    else ret (inr s).

(** The [while api_calls < 20] loop.  In its [try] block only the
    probe at the head can raise a [ClientError] that reaches the
    handler of the loop: the scans catch their own. *)
Fixpoint adaptive_loop (fuel : nat) (s : search) : M search :=
  match fuel with
  | O => diverge
  | S fuel' =>
      if api_calls s <? 20 then
        let test_text := slice_to text (target_chars s) in
        r <- probe test_text ;;
        match r with
        | Some count =>
            next <- adapt test_text count s ;;
            match next with
            | inl s' => ret s'
            | inr s' => adaptive_loop fuel' s'
            end
        | None =>
            adaptive_loop fuel' (retarget (Z.max (target_chars s - 10) 1) s)
        end
      else ret s
  end.

(** The exhaustive search over the lengths [idx]. *)
Fixpoint exhaustive_scan (idx : list Z) (v : verdict) : M verdict :=
  match idx with
  | [] => ret v
  | i :: rest =>
      if 20 <=? v_api_calls v then ret v
      else
        let test_text := slice_to text i in
        test_count <- count_tokens test_text model_id ;;
        let api_calls := v_api_calls v + 1 in
        if test_count =? max_tokens then
          ret {| v_api_calls := api_calls; v_best_text := test_text;
                 final_token_count := test_count |}
        else if test_count <? max_tokens then
          exhaustive_scan rest
            {| v_api_calls := api_calls; v_best_text := test_text;
               final_token_count := test_count |}
        else
          exhaustive_scan rest
            {| v_api_calls := api_calls; v_best_text := v_best_text v;
               final_token_count := final_token_count v |}
  end.

(** Final verification and correction. *)
Definition finalize (s : search) : M verdict :=
  if negb (String.eqb (best_text s) "") then
    final_token_count <- count_tokens (best_text s) model_id ;;
    let api_calls := api_calls s + 1 in
    let v := {| v_api_calls := api_calls; v_best_text := best_text s;
                final_token_count := final_token_count |} in
    if negb (final_token_count =? max_tokens) && (api_calls <? 20) then
      exhaustive_scan (range 1 (len text + 1)) v
    else ret v
  else
    ret {| v_api_calls := api_calls s; v_best_text := best_text s;
           final_token_count := 0 |}.

End Truncate.

Definition truncate (fuel : nat) (text : string) (max_tokens : Z)
    (model_id : string) (return_metadata : bool) : M returned :=
  full_count_raw <- _count_tokens_cached text model_id ;;
  let api_calls := 1 in
  overhead <- _get_message_overhead model_id ;;
  let full_count := Z.max 0 (full_count_raw - overhead) in
  if full_count <=? max_tokens then
    ret (respond return_metadata text api_calls full_count)
  else
    est <- lift (initial_estimate text max_tokens full_count_raw) ;;
    let '(chars_per_token, target_chars) := est in
    s <- adaptive_loop text max_tokens model_id chars_per_token fuel
           {| api_calls := api_calls; target_chars := target_chars;
              best_text := ""; best_count := 0 |} ;;
    v <- finalize text max_tokens model_id s ;;
    ret (respond return_metadata (v_best_text v) (v_api_calls v)
           (final_token_count v)).

End Counter.

(** ** The package-level functions of [ttok4bedrock/__init__.py] *)

Module Package.

Section Package.

(** [boto3.client(service_name='bedrock-runtime', region_name=...)]:
    the client of a region, [None] for the default one. *)
Variable boto3_client : option string -> string -> input -> exn + response.

Definition default_cache_size : Z := 1000.

(** Both functions build a counter of their own.  [world] lists the
    requests the service has received so far; the requests of the new
    counter are added to it. *)
Definition count_tokens (text model : string) (aws_region : option string)
    (world : list (string * input)) : outcome Z * list (string * input) :=
  let '(r, st) :=
    count_tokens (boto3_client aws_region) default_cache_size
      text model fresh in
  (r, world ++ calls st).

Definition truncate (fuel : nat) (text : string) (max_tokens : Z)
    (model : string) (aws_region : option string)
    (world : list (string * input))
    : outcome returned * list (string * input) :=
  let '(r, st) :=
    truncate (boto3_client aws_region) default_cache_size fuel
      text max_tokens model false fresh in
  (r, world ++ calls st).

End Package.

End Package.

(** ** The command of [ttok4bedrock/cli.py] *)

Module Cli.

(** What a run of the command leaves: what it wrote on the standard
    output and on the standard error, its exit status, and the requests
    its counter made. *)
Record run : Type :=
  { stdout : string; stderr : string; exit_status : Z;
    requests : list (string * input) }.

(** The end of line that [click.echo] adds. *)
Definition nl : string := String (ascii_of_nat 10) "".

(** [str(n)] for an [int] *)
Definition str_of_int (n : Z) : string := NilZero.string_of_int (Z.to_int n).

(** The method, which the option [truncate] of the command hides. *)
Local Abbreviation truncate_method := truncate.

Section Cli.

(** The client of a counter built for a region, as in [Package]. *)
Variable boto3_client : option string -> string -> input -> exn + response.

(** [sys.stdin.read()] *)
Variable stdin : string.

(** The text of an exception where the embedding carries none: the
    [Message] of the response of a [ClientError], and [str(e)] for an
    [OverflowError] or a botocore error. *)
Variable describe : exn -> string.

(** [str(e)] *)
Definition str (e : exn) : string :=
  match e with
  | ValueError msg => msg
  | ZeroDivisionError => "division by zero"
  | _ => describe e
  end.

(** The text the command works on: the words of the prompt joined by
    spaces, after the content of the input file when there is one; the
    standard input is read when there is neither a word nor a file. *)
Definition input_text (prompt : list string) (input_file : option string)
    : string :=
  let input_file :=
    match prompt, input_file with
    | [], None => Some stdin
    | _, _ => input_file
    end in
  let text :=
    match prompt with [] => "" | _ => String.concat " " prompt end in
  match input_file with
  | Some input_text =>
      if negb (text =? "")%string then (input_text ++ " " ++ text)%string
      else input_text
  | None => text
  end.

(** [click.echo(message, err=True)] followed by [sys.exit(1)] *)
Definition fail (message : string) (sent : list (string * input)) : run :=
  {| stdout := ""; stderr := (message ++ nl)%string; exit_status := 1;
     requests := sent |}.

(** The [except] clauses, in their order: [NoCredentialsError],
    [NoRegionError], [ClientError], and [Exception] for the rest. *)
Definition report (e : exn) : string :=
  match e with
  | BotoCoreError name =>
      if (name =? "NoCredentialsError")%string then
        ("Error: Unable to locate AWS credentials. "
         ++ "Please configure AWS credentials using aws configure or environment variables.")%string
      else if (name =? "NoRegionError")%string then
        ("Error: No AWS region configured. "
         ++ "Use --aws-region option or configure a default region.")%string
      else ("Error: " ++ str e)%string
  | ClientError error_code =>
      let error_message := describe e in
      ("Error: AWS Bedrock API error (" ++ error_code ++ "): "
       ++ error_message)%string
  | _ => ("Error: " ++ str e)%string
  end.

(** The body of the [try] block: what it writes on the standard
    output.  [if truncate:] is false for [None] and for 0. *)
Definition attempt (fuel : nat) (text : string) (truncate : option Z)
    (model_id : string) (aws_region : option string) : M string :=
  let client := boto3_client aws_region in
  match truncate with
  | Some max_tokens =>
      if negb (max_tokens =? 0) then
        result <- truncate_method client Package.default_cache_size fuel
                    text max_tokens model_id false ;;
        ret (match result with Text s | TextMeta s _ => s end)
      else
        token_count <- count_tokens client Package.default_cache_size
                         text model_id ;;
        ret (str_of_int token_count ++ nl)%string
  | None =>
      token_count <- count_tokens client Package.default_cache_size
                       text model_id ;;
      ret (str_of_int token_count ++ nl)%string
  end.

(** The command; [None] when the loop of [truncate] needs more fuel. *)
Definition cli (fuel : nat) (prompt : list string)
    (input_file : option string) (truncate : option Z) (model_id : string)
    (aws_region : option string) : option run :=
  let text := input_text prompt input_file in
  if (text =? "")%string then Some (fail "Error: No input text provided" [])
  else
    match attempt fuel text truncate model_id aws_region fresh with
    | (Ok out, st) =>
        Some {| stdout := out; stderr := ""; exit_status := 0;
                requests := calls st |}
    | (Raise e, st) => Some (fail (report e) (calls st))
    | (Diverge, _) => None
    end.

End Cli.

End Cli.

(** ** Notions used by the statements *)

Section Notions.

Variable client_count_tokens : string -> input -> exn + response.
Variable cache_size : Z.

(** The raw count of a text: what [_count_tokens_impl] computes. *)
Definition raw_count (text model_id : string) : exn + Z :=
  match _format_input_for_model text model_id with
  | inl e => inl e
  | inr input_data =>
      match client_count_tokens model_id input_data with
      | inl e => inl e
      | inr resp =>
          inr (match Api.inputTokens resp with Some n => n | None => 0 end)
      end
  end.

Definition outcome_of {A} (r : exn + A) : outcome A :=
  match r with inl e => Raise e | inr a => Ok a end.

(** The corrected count of a text: its raw count minus the overhead of
    the model, not below 0. *)
Definition corrected_count (text model_id : string) : exn + Z :=
  match raw_count text model_id with
  | inl e => inl e
  | inr r =>
      match raw_count "A" model_id with
      | inl e => inl e
      | inr a => inr (Z.max 0 (r - (a - 1)))
      end
  end.

(** Every cached value is the raw count of its key. *)
Definition cache_sound (st : counter) : Prop :=
  forall k v, cache_get k (cache st) = Some v ->
              raw_count (fst k) (snd k) = inr v.

(** The cache holds at most [cache_size] entries, none when
    [cache_size] is not positive. *)
Definition within_capacity (st : counter) : Prop :=
  Z.of_nat (List.length (cache st)) <= Z.max 0 cache_size.

(** The states a counter goes through: a new counter, and the state
    any method call leaves behind. *)
Inductive reachable : counter -> Prop :=
| reach_fresh : reachable fresh
| reach_count_tokens st text model_id :
    reachable st ->
    reachable (snd (count_tokens client_count_tokens cache_size
                      text model_id st))
| reach_truncate st fuel text max_tokens model_id return_metadata :
    reachable st ->
    reachable (snd (truncate client_count_tokens cache_size fuel
                      text max_tokens model_id return_metadata st)).

(** [best_text] is a prefix of [text], and when it is not empty
    [best_count] is its corrected count and is within the target. *)
Definition tracked (text : string) (max_tokens : Z) (model_id : string)
    (s : search) : Prop :=
  (exists n, best_text s = slice_to text n)
  /\ (best_text s = ""
      \/ (corrected_count (best_text s) model_id = inr (best_count s)
          /\ best_count s <= max_tokens)).

(** What [truncate] is about to return: a prefix of [text] with its
    corrected count, within the target; or the empty string with 0. *)
Definition settled (text : string) (max_tokens : Z) (model_id : string)
    (t : string) (final : Z) : Prop :=
  (exists n, t = slice_to text n)
  /\ ((corrected_count t model_id = inr final /\ final <= max_tokens)
      \/ (t = "" /\ final = 0)).

(** A method that the cache does not show through: from a state whose
    cache is sound it leaves one, and its answer is the same from any two
    of them. *)
Definition transparent {A} (m : M A) : Prop :=
  (forall st, cache_sound st -> cache_sound (snd (m st)))
  /\ (forall st1 st2, cache_sound st1 -> cache_sound st2 ->
                      fst (m st1) = fst (m st2)).

(** Partial correctness of a method: from a state in [P], an answer [a]
    in a state [st] satisfies [Q a st]. *)
Definition hoare {A} (P : counter -> Prop) (m : M A)
    (Q : A -> counter -> Prop) : Prop :=
  forall st a st', P st -> m st = (Ok a, st') -> Q a st'.

(** A method call on one model, and the state a list of them leaves. *)
Inductive call : Type :=
| CallCountTokens (text : string)
| CallTruncate (fuel : nat) (text : string) (max_tokens : Z)
    (return_metadata : bool).

Definition after (model_id : string) (st : counter) (c : call) : counter :=
  match c with
  | CallCountTokens text =>
      snd (count_tokens client_count_tokens cache_size text model_id st)
  | CallTruncate fuel text max_tokens return_metadata =>
      snd (truncate client_count_tokens cache_size fuel text max_tokens
             model_id return_metadata st)
  end.

Definition after_all (model_id : string) (cs : list call) (st : counter)
    : counter :=
  fold_left (after model_id) cs st.

(** The request of the overhead probe. *)
Definition probe_call (model_id : string) : string * input :=
  (model_id, envelope "A").

Definition call_eq_dec (a b : string * input) : {a = b} + {a <> b}.
Proof.
  unfold input in *.
  repeat decide equality; try apply string_dec; apply Z.eq_dec.
Defined.

(** How many times a request was sent. *)
Definition sent (c : string * input) (st : counter) : nat :=
  count_occ call_eq_dec (calls st) c.

(** The overhead probe of [model_id] was sent at most once and, once sent,
    its entry is still in the cache. *)
Definition probe_kept (model_id : string) (st : counter) : Prop :=
  sent (probe_call model_id) st = 0%nat
  \/ (sent (probe_call model_id) st = 1%nat
      /\ exists v, cache_get ("A", model_id) (cache st) = Some v).

(** The same, with the entry of the probe at the head of the cache. *)
Definition probe_first (model_id : string) (st : counter) : Prop :=
  sent (probe_call model_id) st = 0%nat
  \/ (sent (probe_call model_id) st = 1%nat
      /\ exists v rest, cache st = (("A", model_id), v) :: rest).

End Notions.

(** ** Clients and texts used as examples *)

Module Example.

Definition haiku : string := "anthropic.claude-3-5-haiku-20241022-v1:0".

Definition sonnet : string := "anthropic.claude-3-5-sonnet-20241022-v2:0".

(** [c * n] *)
Fixpoint repeat_char (c : ascii) (n : nat) : string :=
  match n with
  | O => ""
  | S n' => String c (repeat_char c n')
  end.

Definition content_of (i : input) : string :=
  match i with
  | Api.InvokeModel b =>
      match Api.messages b with
      | m :: _ => Api.content m
      | [] => ""
      end
  end.

(** A client whose answer depends on the length of the text only. *)
Definition by_length (f : Z -> exn + Z) : string -> input -> exn + response :=
  fun _ i =>
    match f (len (content_of i)) with
    | inl e => inl e
    | inr n => inr {| Api.inputTokens := Some n |}
    end.

(** 42 tokens for every request, as the mocked client of the tests. *)
Definition constant_42 : string -> input -> exn + response :=
  by_length (fun _ => inr 42).

(** A service whose responses carry no [inputTokens]. *)
Definition silent : string -> input -> exn + response :=
  fun _ _ => inr {| Api.inputTokens := None |}.

(** One token per character over an envelope of 10 tokens. *)
Definition linear : string -> input -> exn + response :=
  by_length (fun n => inr (n + 10)).

(** A tokenizer with plateaus, never decreasing in the length: over an
    envelope of 10 tokens, 1 token for one character, 48 up to 69
    characters, 58 up to 199 and 90 from 200 on. *)
Definition plateaus : string -> input -> exn + response :=
  by_length (fun n => inr (if n <=? 1 then 11
                           else if n <=? 69 then 58
                           else if n <=? 199 then 68
                           else 100)).

(** About four characters a token over an envelope of 10 tokens, with
    one character, the 200th, that costs a token more: the corrected count
    of [n] characters is [1 + n / 4], plus one from 200 characters on. *)
Definition quarter : string -> input -> exn + response :=
  by_length (fun n => inr (11 + n / 4 + (if 200 <=? n then 1 else 0))).

(** Over an envelope of 10 tokens, 1 token below 40 characters and 300
    from there on. *)
Definition flat : string -> input -> exn + response :=
  by_length (fun n => inr (if n <? 40 then 11 else 310)).

(** [flat], but the request for 11 characters is throttled. *)
Definition throttled_at_11 : string -> input -> exn + response :=
  by_length (fun n => if n =? 11 then inl (ClientError "ThrottlingException")
                      else inr (if n <? 40 then 11 else 310)).


(** Over an envelope of 10 tokens: 1 token for one character, 21 for
    2 to 61 characters and 300 from 62 on. *)
Definition steep : string -> input -> exn + response :=
  by_length (fun n => inr (if n <=? 1 then 11
                           else if n <? 62 then 31 else 310)).

(** Over an envelope of 10 tokens: 1 token for one character, 47 up to
    209 characters, 48 up to 399 and 190 from 400 on. *)
Definition slow : string -> input -> exn + response :=
  by_length (fun n => inr (if n <=? 1 then 11
                           else if n <? 210 then 57
                           else if n <? 400 then 58
                           else 200)).

(** The probe ["A"] and the text of 62 characters are answered; every
    other request is throttled. *)
Definition stuck : string -> input -> exn + response :=
  fun _ i =>
    if (content_of i =? "A")%string
    then inr {| Api.inputTokens := Some 11 |}
    else if len (content_of i) =? 62
         then inr {| Api.inputTokens := Some 310 |}
         else inl (ClientError "ThrottlingException").

Definition a400 : string := repeat_char "a" 400.

(** [62 / 310] as a float. *)
Definition ratio_62_310 : PyFloat.float :=
  S754_finite false 7205759403792794 (-55).

Definition a200 : string := repeat_char "a" 200.

Definition a62 : string := repeat_char "a" 62.

(** The cache once the text of 62 characters and the probe are counted
    on [stuck]. *)
Definition warm_62 : list (key * Z) :=
  [(("A", haiku), 11); ((a62, haiku), 310)].

End Example.

(** * Properties *)

(** Closes a goal [sound st /\ invariant /\ bound] from the context. *)
Ltac finish_bound :=
  split; [assumption|split; [assumption|cbn in *; lia]].

(** ** The cache *)

Lemma key_eqb_eq (a b : key) : key_eqb a b = true <-> a = b.
Proof.
  destruct a as [a1 a2], b as [b1 b2]; unfold key_eqb; cbn.
  rewrite andb_true_iff, !String.eqb_eq.
  split; [intros [-> ->]; reflexivity | intros H; inversion H; auto].
Qed.

Lemma key_eqb_refl (a : key) : key_eqb a a = true.
Proof. apply key_eqb_eq; reflexivity. Qed.

Lemma key_eqb_neq (a b : key) : key_eqb a b = false <-> a <> b.
Proof.
  rewrite <- key_eqb_eq. destruct (key_eqb a b); split; congruence.
Qed.

Lemma key_eqb_sym (a b : key) : key_eqb a b = key_eqb b a.
Proof.
  destruct (key_eqb b a) eqn:E.
  - apply key_eqb_eq in E; subst; apply key_eqb_refl.
  - apply key_eqb_neq in E; apply key_eqb_neq; congruence.
Qed.


Lemma cache_get_remove_other k k' l :
  key_eqb k' k = false ->
  cache_get k' (cache_remove k l) = cache_get k' l.
Proof.
  intros Hne. induction l as [|[k0 v] l IH]; cbn; [reflexivity|].
  destruct (key_eqb k k0) eqn:E.
  - apply key_eqb_eq in E; subst k0. rewrite Hne. exact IH.
  - cbn. rewrite IH. reflexivity.
Qed.

Lemma cache_get_removelast k v l :
  cache_get k (removelast l) = Some v -> cache_get k l = Some v.
Proof.
  induction l as [|[k0 v0] l IH]; cbn; [discriminate|].
  destruct l as [|e l']; [cbn; discriminate|].
  cbn [cache_get]. destruct (key_eqb k k0); [auto|]. exact IH.
Qed.

Section Facts.

Variable client_count_tokens : string -> input -> exn + response.
Variable cache_size : Z.

Local Abbreviation raw := (raw_count client_count_tokens).
Local Abbreviation sound := (cache_sound client_count_tokens).
Local Abbreviation impl := (_count_tokens_impl client_count_tokens).
Local Abbreviation cached :=
  (_count_tokens_cached client_count_tokens cache_size).
Local Abbreviation overhead :=
  (_get_message_overhead client_count_tokens cache_size).
Local Abbreviation counted := (count_tokens client_count_tokens cache_size).

Lemma impl_fst text model_id st :
  fst (impl text model_id st) = outcome_of (raw text model_id).
Proof.
  unfold _count_tokens_impl, raw_count, bind, lift.
  destruct (_format_input_for_model text model_id) as [e|i]; cbn;
    [reflexivity|].
  destruct (client_count_tokens model_id i); reflexivity.
Qed.

Lemma impl_cache text model_id st :
  cache (snd (impl text model_id st)) = cache st.
Proof.
  unfold _count_tokens_impl, bind, lift.
  destruct (_format_input_for_model text model_id) as [e|i]; cbn;
    [reflexivity|].
  destruct (client_count_tokens model_id i); reflexivity.
Qed.


Lemma sound_fresh : sound fresh.
Proof. intros k v H; discriminate H. Qed.

Lemma cached_fst text model_id st :
  sound st ->
  fst (cached text model_id st) = outcome_of (raw text model_id).
Proof.
  intros Hs. unfold _count_tokens_cached, lru_cache.
  destruct (cache_size <=? 0); [apply impl_fst|].
  destruct (cache_get (text, model_id) (cache st)) as [v|] eqn:G.
  - apply Hs in G. cbn in G. rewrite G. reflexivity.
  - match goal with |- context [impl ?t ?m ?s] =>
      pose proof (impl_fst t m s) as F; destruct (impl t m s) as [[v| |] st1]
    end; cbn in F |- *; exact F.
Qed.

Lemma cached_sound text model_id st :
  sound st -> sound (snd (cached text model_id st)).
Proof.
  intros Hs. unfold _count_tokens_cached, lru_cache.
  destruct (cache_size <=? 0).
  - intros k v. rewrite impl_cache. cbn. apply Hs.
  - destruct (cache_get (text, model_id) (cache st)) as [v|] eqn:G.
    + intros k w. cbn.
      destruct (key_eqb k (text, model_id)) eqn:E.
      * apply key_eqb_eq in E; subst k. intros H; inversion H; subst.
        apply Hs; exact G.
      * rewrite cache_get_remove_other by exact E. apply Hs.
    + match goal with |- context [impl ?t ?m ?s] =>
        pose proof (impl_fst t m s) as F;
        pose proof (impl_cache t m s) as C;
        destruct (impl t m s) as [[v| |] st1]
      end; cbn in F, C |- *;
        try (intros k w; rewrite C; apply Hs).
      rewrite C, G. intros k w. cbn.
      destruct (key_eqb k (text, model_id)) eqn:E.
      * apply key_eqb_eq in E; subst k. intros H; inversion H; subst.
        cbn. destruct (raw text model_id); cbn in F; congruence.
      * destruct (cache_size <=? Z.of_nat (List.length (cache st))).
        -- intros H. apply cache_get_removelast in H. apply Hs; exact H.
        -- apply Hs.
Qed.

Lemma overhead_fst model_id st :
  sound st ->
  fst (overhead model_id st) =
  outcome_of (match raw "A" model_id with
              | inl e => inl e
              | inr a => inr (a - 1)
              end).
Proof.
  intros Hs. unfold _get_message_overhead, bind, ret.
  pose proof (cached_fst "A" model_id Hs) as F.
  destruct (cached "A" model_id st) as [[a| |] st1]; cbn in F |- *;
    destruct (raw "A" model_id); cbn in F |- *; congruence.
Qed.

Lemma overhead_snd model_id st :
  snd (overhead model_id st) = snd (cached "A" model_id st).
Proof.
  unfold _get_message_overhead, bind, ret.
  destruct (cached "A" model_id st) as [[a| |] st1]; reflexivity.
Qed.

Lemma overhead_sound model_id st :
  sound st -> sound (snd (overhead model_id st)).
Proof. intros Hs. rewrite overhead_snd. apply cached_sound, Hs. Qed.

Lemma counted_sound text model_id st :
  sound st -> sound (snd (counted text model_id st)).
Proof.
  intros Hs. unfold count_tokens, bind, ret.
  pose proof (cached_sound text model_id Hs) as H1.
  destruct (cached text model_id st) as [[r| |] st1]; cbn in H1 |- *;
    try exact H1.
  pose proof (overhead_sound model_id H1) as H2.
  destruct (overhead model_id st1) as [[o| |] st2]; cbn in H2 |- *; exact H2.
Qed.

Lemma counted_fst text model_id st :
  sound st ->
  fst (counted text model_id st) =
  outcome_of (match raw text model_id with
              | inl e => inl e
              | inr r =>
                  match raw "A" model_id with
                  | inl e => inl e
                  | inr a => inr (Z.max 0 (r - (a - 1)))
                  end
              end).
Proof.
  intros Hs. unfold count_tokens, bind, ret.
  pose proof (cached_fst text model_id Hs) as F1.
  pose proof (cached_sound text model_id Hs) as H1.
  destruct (cached text model_id st) as [[r| |] st1]; cbn in F1, H1 |- *;
    destruct (raw text model_id) as [e1|r']; cbn in F1 |- *; try congruence.
  inversion F1; subst r'.
  pose proof (overhead_fst model_id H1) as F2.
  destruct (overhead model_id st1) as [[o| |] st2]; cbn in F2 |- *;
    destruct (raw "A" model_id) as [e2|a]; cbn in F2 |- *; congruence.
Qed.

(** *** An invariant of [count_tokens] is an invariant of [truncate] *)

Section Invariant.

Variable model_id : string.
Variable P : counter -> Prop.
Hypothesis P_counted :
  forall text st, P st -> P (snd (counted text model_id st)).

Lemma probe_snd text st :
  snd (probe client_count_tokens cache_size model_id text st) =
  snd (counted text model_id st).
Proof.
  unfold probe, except_client_error, bind, ret.
  destruct (counted text model_id st) as [[c|e|] st1]; cbn;
    [reflexivity| |reflexivity].
  destruct e; reflexivity.
Qed.

Lemma probe_invariant text st :
  P st -> P (snd (probe client_count_tokens cache_size model_id text st)).
Proof. intros H. rewrite probe_snd. apply P_counted, H. Qed.

Lemma widen_scan_invariant text max_tokens idx s st :
  P st ->
  P (snd (widen_scan client_count_tokens cache_size text max_tokens
            model_id idx s st)).
Proof.
  revert s st. induction idx as [|i rest IH]; intros s st H; cbn;
    [exact H|].
  unfold bind.
  pose proof (probe_invariant (slice_to text (i + 1)) H) as H1.
  destruct (probe _ _ _ _ st) as [[[c|]| |] st1]; cbn in H1 |- *;
    try exact H1.
  destruct (c <=? max_tokens); [|exact H1].
  destruct (c =? max_tokens); [exact H1|]. apply IH, H1.
Qed.

Lemma shrink_scan_invariant text max_tokens idx s st :
  P st ->
  P (snd (shrink_scan client_count_tokens cache_size text max_tokens
            model_id idx s st)).
Proof.
  revert s st. induction idx as [|i rest IH]; intros s st H; cbn;
    [exact H|].
  unfold bind.
  pose proof (probe_invariant (slice_to text i) H) as H1.
  destruct (probe _ _ _ _ st) as [[[c|]| |] st1]; cbn in H1 |- *;
    try exact H1.
  destruct (c <=? max_tokens); [|apply IH, H1].
  destruct (c =? max_tokens); exact H1.
Qed.

Lemma adapt_invariant text max_tokens cpt test_text count s st :
  P st ->
  P (snd (adapt client_count_tokens cache_size text max_tokens model_id
            cpt test_text count s st)).
Proof.
  intros H. unfold adapt.
  destruct (count =? max_tokens); [exact H|].
  destruct (count <? max_tokens).
  - destruct (0 <? max_tokens - count); [|exact H].
    unfold bind, lift.
    destruct (PyFloat.scale (max_tokens - count) cpt) as [e|a]; cbn;
      [exact H|].
    destruct (a <=? 5); [|exact H].
    match goal with |- context [widen_scan ?c ?z ?t ?m ?i ?x ?y ?st0] =>
      pose proof (widen_scan_invariant t m x y H) as W;
      destruct (widen_scan c z t m i x y st0) as [[?| |] ?]
    end; exact W.
  - unfold bind, lift.
    destruct (PyFloat.scale (count - max_tokens) cpt) as [e|a]; cbn;
      [exact H|].
    destruct (a <=? 5); [|exact H].
    match goal with |- context [shrink_scan ?c ?z ?t ?m ?i ?x ?y ?st0] =>
      pose proof (shrink_scan_invariant t m x y H) as W;
      destruct (shrink_scan c z t m i x y st0) as [[?| |] ?]
    end; exact W.
Qed.

Lemma adaptive_loop_invariant text max_tokens cpt fuel s st :
  P st ->
  P (snd (adaptive_loop client_count_tokens cache_size text max_tokens
            model_id cpt fuel s st)).
Proof.
  revert s st. induction fuel as [|fuel IH]; intros s st H; cbn;
    [exact H|].
  destruct (api_calls s <? 20); [|exact H].
  unfold bind.
  pose proof (probe_invariant (slice_to text (target_chars s)) H) as H1.
  destruct (probe _ _ _ _ st) as [[[c|]| |] st1]; cbn in H1 |- *;
    try exact H1; [|apply IH, H1].
  match goal with |- context [adapt ?c0 ?z ?t ?m ?i ?f ?tt ?cc ?x ?st0] =>
    pose proof (adapt_invariant t m f tt cc x H1) as A;
    destruct (adapt c0 z t m i f tt cc x st0) as [[[s'|s']| |] st2]
  end; cbn in A |- *; try exact A. apply IH, A.
Qed.

Lemma exhaustive_scan_invariant text max_tokens idx v st :
  P st ->
  P (snd (exhaustive_scan client_count_tokens cache_size text max_tokens
            model_id idx v st)).
Proof.
  revert v st. induction idx as [|i rest IH]; intros v st H; cbn;
    [exact H|].
  destruct (20 <=? v_api_calls v); [exact H|].
  unfold bind.
  pose proof (P_counted (slice_to text i) H) as H1.
  destruct (counted (slice_to text i) model_id st) as [[c| |] st1];
    cbn in H1 |- *; try exact H1.
  destruct (c =? max_tokens); [exact H1|].
  destruct (c <? max_tokens); apply IH, H1.
Qed.

Lemma finalize_invariant text max_tokens s st :
  P st ->
  P (snd (finalize client_count_tokens cache_size text max_tokens
            model_id s st)).
Proof.
  intros H. unfold finalize.
  destruct (negb (best_text s =? "")%string); [|exact H].
  unfold bind.
  pose proof (P_counted (best_text s) H) as H1.
  destruct (counted (best_text s) model_id st) as [[c| |] st1];
    cbn in H1 |- *; try exact H1.
  destruct (negb (c =? max_tokens) && (api_calls s + 1 <? 20));
    [|exact H1].
  apply exhaustive_scan_invariant, H1.
Qed.

Lemma truncate_invariant fuel text max_tokens return_metadata st :
  P st ->
  P (snd (truncate client_count_tokens cache_size fuel text max_tokens
            model_id return_metadata st)).
Proof.
  intros H. pose proof (P_counted text H) as H1.
  unfold truncate. unfold count_tokens in H1. unfold bind in *.
  destruct (cached text model_id st) as [[r| |] st1]; try exact H1.
  destruct (overhead model_id st1) as [[o| |] st2]; try exact H1.
  cbn in H1.
  destruct (Z.max 0 (r - o) <=? max_tokens); [exact H1|].
  unfold lift.
  destruct (initial_estimate text max_tokens r) as [e|[cpt tc]]; cbn;
    [exact H1|].
  match goal with |- context [adaptive_loop ?c ?z ?t ?m ?i ?f ?n ?x ?st0] =>
    pose proof (adaptive_loop_invariant t m f n x H1) as L;
    destruct (adaptive_loop c z t m i f n x st0) as [[s| |] st3]
  end; cbn in L |- *; try exact L.
  pose proof (finalize_invariant text max_tokens s L) as Fz.
  destruct (finalize _ _ _ _ _ s st3) as [[v| |] st4]; exact Fz.
Qed.

End Invariant.

Lemma reachable_sound st :
  reachable client_count_tokens cache_size st -> sound st.
Proof.
  induction 1 as [|st text model_id _ IH|st fuel text mt model_id rm _ IH].
  - apply sound_fresh.
  - apply counted_sound, IH.
  - apply truncate_invariant; [|exact IH].
    intros t st0. apply counted_sound.
Qed.

(** *** More fuel changes no answer *)

Lemma adaptive_loop_fuel text max_tokens model_id cpt fuel k s st r st' :
  adaptive_loop client_count_tokens cache_size text max_tokens model_id
    cpt fuel s st = (r, st') ->
  r <> Diverge ->
  adaptive_loop client_count_tokens cache_size text max_tokens model_id
    cpt (fuel + k) s st = (r, st').
Proof.
  revert s st. induction fuel as [|fuel IH]; intros s st E Hr.
  - cbn in E. inversion E; subst. congruence.
  - cbn in E |- *. destruct (api_calls s <? 20); [|exact E].
    unfold bind in *.
    destruct (probe _ _ _ _ st) as [[[c|]| |] st1]; try exact E;
      [|apply IH; assumption].
    destruct (adapt _ _ _ _ _ _ _ _ _ st1) as [[[s'|s']| |] st2];
      try exact E.
    apply IH; assumption.
Qed.

Lemma truncate_fuel fuel k text max_tokens model_id return_metadata st r st' :
  truncate client_count_tokens cache_size fuel text max_tokens model_id
    return_metadata st = (r, st') ->
  r <> Diverge ->
  truncate client_count_tokens cache_size (fuel + k) text max_tokens
    model_id return_metadata st = (r, st').
Proof.
  unfold truncate, bind. intros E Hr.
  destruct (cached text model_id st) as [[raw0| |] st1]; try exact E.
  destruct (overhead model_id st1) as [[o| |] st2]; try exact E.
  destruct (Z.max 0 (raw0 - o) <=? max_tokens); [exact E|].
  destruct (lift (initial_estimate text max_tokens raw0) st2)
    as [[[cpt tc]| |] st3]; try exact E.
  destruct (adaptive_loop _ _ _ _ _ _ fuel _ st3) as [[s| |] st4] eqn:L.
  - rewrite (adaptive_loop_fuel _ _ _ _ _ k _ _ L) by discriminate.
    exact E.
  - rewrite (adaptive_loop_fuel _ _ _ _ _ k _ _ L) by discriminate.
    exact E.
  - inversion E; subst. congruence.
Qed.

End Facts.

(** ** The claims about [count_tokens] and the fast path of [truncate] *)

(** C4.  On a counter in any state it can reach, for a supported model whose
    requests the client answers, [_get_message_overhead] is the raw count
    of the one-character text ["A"] minus 1 and [count_tokens] returns
    [max(0, raw_count - overhead)]. *)
Theorem count_tokens_subtracts_overhead
    (client : string -> input -> exn + response) (cache_size : Z)
    (text model_id : string) (st : counter) (r a : Z) :
  reachable client cache_size st ->
  supported model_id = true ->
  raw_count client text model_id = inr r ->
  raw_count client "A" model_id = inr a ->
  fst (_get_message_overhead client cache_size model_id st) = Ok (a - 1)
  /\ fst (count_tokens client cache_size text model_id st)
     = Ok (Z.max 0 (r - (a - 1))).
Proof.
  intros Hreach _ Hr Ha. apply reachable_sound in Hreach. split.
  - rewrite overhead_fst by exact Hreach. rewrite Ha. reflexivity.
  - rewrite counted_fst by exact Hreach. rewrite Hr, Ha. reflexivity.
Qed.

Lemma truncate_fast_path
    (client : string -> input -> exn + response) (cache_size : Z)
    (fuel : nat) (text : string) (max_tokens : Z) (model_id : string)
    (return_metadata : bool) (st st1 : counter) (c : Z) :
  count_tokens client cache_size text model_id st = (Ok c, st1) ->
  c <= max_tokens ->
  truncate client cache_size fuel text max_tokens model_id return_metadata st
  = (Ok (respond return_metadata text 1 c), st1).
Proof.
  unfold count_tokens, truncate, bind, ret. intros E Hle.
  destruct (_count_tokens_cached client cache_size text model_id st)
    as [[r| |] st0]; try discriminate E.
  destruct (_get_message_overhead client cache_size model_id st0)
    as [[o| |] st2]; try discriminate E.
  inversion E; subst c st2.
  apply Z.leb_le in Hle. rewrite Hle. reflexivity.
Qed.

(** C3.  When the corrected count of the whole text, as [count_tokens]
    returns it, is at most the target, [truncate] returns the text
    unchanged, reports [api_calls = 1], and leaves the counter as that one
    count left it. *)
Theorem truncate_full_fit
    (client : string -> input -> exn + response) (cache_size : Z)
    (fuel : nat) (text : string) (max_tokens : Z) (model_id : string)
    (st st1 : counter) (c : Z) :
  count_tokens client cache_size text model_id st = (Ok c, st1) ->
  c <= max_tokens ->
  truncate client cache_size fuel text max_tokens model_id true st
  = (Ok (TextMeta text {| md_api_calls := 1; md_final_token_count := c |}),
     st1)
  /\ truncate client cache_size fuel text max_tokens model_id false st
     = (Ok (Text text), st1).
Proof.
  intros E Hle. split.
  - exact (@truncate_fast_path client cache_size fuel text max_tokens
             model_id true st st1 c E Hle).
  - exact (@truncate_fast_path client cache_size fuel text max_tokens
             model_id false st st1 c E Hle).
Qed.

(** C7.  For a model outside [SUPPORTED_MODELS], on a counter in any state
    it can reach, [count_tokens] and [truncate] both raise the [ValueError]
    of [_format_input_for_model], and the list of requests sent to the
    client is what it was. *)
Theorem unsupported_model_fails_before_any_call
    (client : string -> input -> exn + response) (cache_size : Z)
    (fuel : nat) (text : string) (max_tokens : Z) (model_id : string)
    (return_metadata : bool) (st : counter) :
  reachable client cache_size st ->
  supported model_id = false ->
  exists msg,
    _format_input_for_model text model_id = inl (ValueError msg)
    /\ fst (count_tokens client cache_size text model_id st)
       = Raise (ValueError msg)
    /\ calls (snd (count_tokens client cache_size text model_id st))
       = calls st
    /\ fst (truncate client cache_size fuel text max_tokens model_id
              return_metadata st)
       = Raise (ValueError msg)
    /\ calls (snd (truncate client cache_size fuel text max_tokens model_id
                     return_metadata st))
       = calls st.
Proof.
  intros Hreach Hun. apply reachable_sound in Hreach.
  assert (Hfmt : exists msg,
             _format_input_for_model text model_id = inl (ValueError msg)).
  { unfold _format_input_for_model. rewrite Hun. eexists; reflexivity. }
  destruct Hfmt as [msg Hfmt]. exists msg.
  assert (Hc : _count_tokens_cached client cache_size text model_id st
               = (Raise (ValueError msg),
                  {| cache := cache st; hits := hits st;
                     misses := misses st + 1; calls := calls st |})).
  { unfold _count_tokens_cached, lru_cache, _count_tokens_impl, bind.
    rewrite Hfmt. cbn.
    destruct (cache_size <=? 0); [reflexivity|].
    destruct (cache_get (text, model_id) (cache st)) as [v|] eqn:G;
      [|reflexivity].
    apply Hreach in G. unfold raw_count in G. cbn in G.
    rewrite Hfmt in G. discriminate G. }
  unfold count_tokens, truncate, bind. rewrite Hc. cbn. auto.
Qed.

(** C9.  When the whole text is over the target and the adaptive loop ends
    with [best_text] still the empty string it started from, [truncate]
    returns the empty string with [final_token_count = 0] and the
    [api_calls] of the loop, and the counter is left as the loop left it:
    nothing is counted after the loop. *)
Theorem truncate_nothing_recorded
    (client : string -> input -> exn + response) (cache_size : Z)
    (fuel : nat) (text : string) (max_tokens : Z) (model_id : string)
    (st st1 st2 st3 : counter) (full_count_raw overhead target : Z)
    (chars_per_token : PyFloat.float) (s : search) :
  _count_tokens_cached client cache_size text model_id st
    = (Ok full_count_raw, st1) ->
  _get_message_overhead client cache_size model_id st1 = (Ok overhead, st2) ->
  max_tokens < Z.max 0 (full_count_raw - overhead) ->
  initial_estimate text max_tokens full_count_raw
    = inr (chars_per_token, target) ->
  adaptive_loop client cache_size text max_tokens model_id chars_per_token
    fuel {| api_calls := 1; target_chars := target;
            best_text := ""; best_count := 0 |} st2
    = (Ok s, st3) ->
  best_text s = "" ->
  truncate client cache_size fuel text max_tokens model_id true st
  = (Ok (TextMeta "" {| md_api_calls := api_calls s;
                        md_final_token_count := 0 |}), st3).
Proof.
  intros E1 E2 Hgt Hest Hloop Hbest.
  unfold truncate, bind. rewrite E1, E2.
  apply Z.leb_gt in Hgt. rewrite Hgt. rewrite Hest. cbn.
  rewrite Hloop. unfold finalize. rewrite Hbest. cbn. reflexivity.
Qed.

(** ** The overhead probe *)

Section CachedCases.

Variable client_count_tokens : string -> input -> exn + response.
Variable cache_size : Z.
Hypothesis cache_size_pos : 0 < cache_size.

Local Abbreviation raw := (raw_count client_count_tokens).
Local Abbreviation cached :=
  (_count_tokens_cached client_count_tokens cache_size).

Lemma cached_hit text model_id st v :
  cache_get (text, model_id) (cache st) = Some v ->
  cached text model_id st
  = (Ok v, {| cache := ((text, model_id), v)
                       :: cache_remove (text, model_id) (cache st);
              hits := hits st + 1; misses := misses st;
              calls := calls st |}).
Proof.
  intros G. unfold _count_tokens_cached, lru_cache.
  apply Z.leb_gt in cache_size_pos. rewrite cache_size_pos, G. reflexivity.
Qed.

Lemma cached_miss_ok text model_id st v :
  cache_get (text, model_id) (cache st) = None ->
  raw text model_id = inr v ->
  cached text model_id st
  = (Ok v, {| cache := ((text, model_id), v)
                       :: (if cache_size <=? Z.of_nat (List.length (cache st))
                           then removelast (cache st) else cache st);
              hits := hits st; misses := misses st + 1;
              calls := calls st ++ [(model_id, envelope text)] |}).
Proof.
  intros G R. unfold _count_tokens_cached, lru_cache.
  apply Z.leb_gt in cache_size_pos. rewrite cache_size_pos, G.
  unfold raw_count, _count_tokens_impl, bind, lift,
    _format_input_for_model in *.
  destruct (supported model_id); [|discriminate R]. cbn in *.
  destruct (client_count_tokens model_id (envelope text)) as [e|resp];
    [discriminate R|].
  inversion R; subst v. cbn. rewrite G. reflexivity.
Qed.

Lemma cached_miss_fail text model_id st e :
  cache_get (text, model_id) (cache st) = None ->
  raw text model_id = inl e ->
  cached text model_id st
  = (Raise e, {| cache := cache st; hits := hits st;
                 misses := misses st + 1;
                 calls := if supported model_id
                          then calls st ++ [(model_id, envelope text)]
                          else calls st |}).
Proof.
  intros G R. unfold _count_tokens_cached, lru_cache.
  apply Z.leb_gt in cache_size_pos. rewrite cache_size_pos, G.
  unfold raw_count, _count_tokens_impl, bind, lift,
    _format_input_for_model in *.
  destruct (supported model_id); cbn in *.
  - destruct (client_count_tokens model_id (envelope text)) as [e'|resp];
      [|discriminate R].
    inversion R; subst. reflexivity.
  - inversion R; subst. reflexivity.
Qed.

End CachedCases.

Lemma sent_snoc c x cache0 hits0 misses0 calls0 :
  sent c {| cache := cache0; hits := hits0; misses := misses0;
            calls := calls0 ++ [x] |}
  = (count_occ call_eq_dec calls0 c
     + if call_eq_dec x c then 1 else 0)%nat.
Proof.
  unfold sent. cbn [calls]. rewrite count_occ_app. cbn [count_occ].
  destruct (call_eq_dec x c); reflexivity.
Qed.

Section ProbeOnce.

Variable client_count_tokens : string -> input -> exn + response.
Variable cache_size : Z.
Variable model_id : string.
Variable a : Z.
Hypothesis cache_size_2 : 2 <= cache_size.
Hypothesis probe_answered : raw_count client_count_tokens "A" model_id = inr a.

Local Abbreviation raw := (raw_count client_count_tokens).
Local Abbreviation sound := (cache_sound client_count_tokens).
Local Abbreviation cached :=
  (_count_tokens_cached client_count_tokens cache_size).
Local Abbreviation counted := (count_tokens client_count_tokens cache_size).

Lemma probe_first_kept st : probe_first model_id st -> probe_kept model_id st.
Proof.
  intros [H0|[H1 [v [rest Hc]]]]; [left; exact H0|right].
  split; [exact H1|]. exists v. rewrite Hc. cbn [cache_get].
  rewrite key_eqb_refl. reflexivity.
Qed.

Lemma other_text_not_probe text (l : list (string * input)) :
  text <> "A" ->
  count_occ call_eq_dec (l ++ [(model_id, envelope text)])
    (probe_call model_id)
  = count_occ call_eq_dec l (probe_call model_id).
Proof.
  intros Hne. rewrite count_occ_app. cbn [count_occ].
  destruct (call_eq_dec _ _) as [E|_]; [|lia].
  unfold probe_call in E. inversion E. congruence.
Qed.

Lemma cached_keeps_probe text st :
  probe_first model_id st ->
  probe_kept model_id (snd (cached text model_id st))
  /\ (forall e, fst (cached text model_id st) = Raise e ->
                probe_first model_id (snd (cached text model_id st))).
Proof.
  intros Hfirst. assert (Hpos : 0 < cache_size) by lia.
  destruct (cache_get (text, model_id) (cache st)) as [v|] eqn:G.
  - rewrite (cached_hit client_count_tokens Hpos _ _ _ G). cbn [fst snd].
    split; [|discriminate].
    destruct Hfirst as [H0|[H1 [v0 [rest Hc]]]]; [left; exact H0|right].
    split; [exact H1|]. cbn [cache cache_get].
    destruct (key_eqb ("A", model_id) (text, model_id)) eqn:E;
      [eexists; reflexivity|].
    rewrite cache_get_remove_other by exact E.
    rewrite Hc. cbn [cache_get]. rewrite key_eqb_refl. eexists; reflexivity.
  - destruct (raw text model_id) as [e|v] eqn:R.
    + rewrite (cached_miss_fail client_count_tokens Hpos _ _ _ G R).
      cbn [fst snd].
      assert (Hne : text <> "A") by congruence.
      assert (Hsame : probe_first model_id
                {| cache := cache st; hits := hits st;
                   misses := misses st + 1;
                   calls := if supported model_id
                            then calls st ++ [(model_id, envelope text)]
                            else calls st |}).
      { unfold probe_first, sent in *. cbn [calls cache].
        destruct (supported model_id); [|exact Hfirst].
        rewrite other_text_not_probe by exact Hne. exact Hfirst. }
      split; [apply probe_first_kept, Hsame|intros _ _; exact Hsame].
    + rewrite (cached_miss_ok client_count_tokens Hpos _ _ _ G R).
      cbn [fst snd]. split; [|discriminate].
      destruct Hfirst as [H0|[H1 [v0 [rest Hc]]]].
      * destruct (string_dec text "A") as [->|Hne].
        -- right. split.
           ++ rewrite sent_snoc. unfold sent in H0. rewrite H0.
              unfold probe_call.
              destruct (call_eq_dec _ _); [reflexivity|congruence].
           ++ cbn [cache cache_get]. rewrite key_eqb_refl.
              eexists; reflexivity.
        -- left. unfold sent in *. cbn [calls].
           rewrite other_text_not_probe by exact Hne. exact H0.
      * assert (Hne : text <> "A").
        { intros ->. rewrite Hc in G. cbn [cache_get] in G.
          rewrite key_eqb_refl in G. discriminate G. }
        right. split.
        -- unfold sent in *. cbn [calls].
           rewrite other_text_not_probe by exact Hne. exact H1.
        -- cbn [cache cache_get].
           assert (E : key_eqb ("A", model_id) (text, model_id) = false).
           { apply key_eqb_neq. congruence. }
           rewrite E, Hc.
           destruct (cache_size <=? _) eqn:Full.
           ++ apply Z.leb_le in Full. cbn [List.length] in Full.
              destruct rest as [|r rest']; [cbn in Full; lia|].
              cbn [removelast cache_get]. rewrite key_eqb_refl.
              eexists; reflexivity.
           ++ cbn [cache_get]. rewrite key_eqb_refl. eexists; reflexivity.
Qed.

Lemma probe_hit_first st :
  probe_kept model_id st ->
  probe_first model_id (snd (cached "A" model_id st)).
Proof.
  intros Hkept. assert (Hpos : 0 < cache_size) by lia.
  destruct Hkept as [H0|[H1 [v G]]].
  - destruct (cache_get ("A", model_id) (cache st)) as [v|] eqn:G.
    + rewrite (cached_hit client_count_tokens Hpos _ _ _ G). left. exact H0.
    + rewrite (cached_miss_ok client_count_tokens Hpos _ _ _ G
                 probe_answered).
      right. cbn [snd]. split; [|cbn; eexists; eexists; reflexivity].
      rewrite sent_snoc. unfold sent in H0. rewrite H0. unfold probe_call.
      destruct (call_eq_dec _ _); [reflexivity|congruence].
  - rewrite (cached_hit client_count_tokens Hpos _ _ _ G). right.
    split; [exact H1|]. cbn. eexists; eexists; reflexivity.
Qed.

Lemma counted_probe_first text st :
  sound st /\ probe_first model_id st ->
  sound (snd (counted text model_id st))
  /\ probe_first model_id (snd (counted text model_id st)).
Proof.
  intros [Hs Hfirst]. split; [apply counted_sound, Hs|].
  pose proof (cached_keeps_probe text Hfirst) as [Hk Hf].
  pose proof (cached_fst cache_size text model_id Hs) as F.
  unfold count_tokens, bind, _get_message_overhead.
  destruct (cached text model_id st) as [[r|e|] st1]; cbn [fst snd] in *.
  - pose proof (probe_hit_first Hk) as Hh. unfold bind.
    destruct (cached "A" model_id st1) as [[o|e|] st2]; exact Hh.
  - apply (Hf e). reflexivity.
  - destruct (raw text model_id); discriminate F.
Qed.

Lemma after_probe_first cs st :
  sound st /\ probe_first model_id st ->
  sound (after_all client_count_tokens cache_size model_id cs st)
  /\ probe_first model_id
       (after_all client_count_tokens cache_size model_id cs st).
Proof.
  revert st. induction cs as [|c cs IH]; intros st H; [exact H|].
  cbn. apply IH. destruct c as [text|fuel text mt rm]; cbn.
  - apply counted_probe_first, H.
  - apply truncate_invariant
      with (P := fun s => sound s /\ probe_first model_id s); [|exact H].
    intros t s. apply counted_probe_first.
Qed.

End ProbeOnce.

(** C8, as the code has it.  On a counter built with [cache_size >= 2]
    whose calls all name one model, a model for which the client answers
    the probe, the request of the overhead probe is sent at most once over
    any list of [count_tokens] and [truncate] calls, and the overhead the
    counter then computes is the raw count of ["A"] minus 1. *)
Theorem overhead_probe_sent_once
    (client : string -> input -> exn + response) (cache_size : Z)
    (model_id : string) (a : Z) (cs : list call) :
  2 <= cache_size ->
  raw_count client "A" model_id = inr a ->
  (sent (probe_call model_id)
     (after_all client cache_size model_id cs fresh) <= 1)%nat
  /\ fst (_get_message_overhead client cache_size model_id
            (after_all client cache_size model_id cs fresh))
     = Ok (a - 1).
Proof.
  intros Hsize Hprobe.
  destruct (after_probe_first (a := a) Hsize Hprobe cs (st := fresh))
    as [Hs Hfirst].
  { split; [apply sound_fresh|left; reflexivity]. }
  split.
  - destruct Hfirst as [H0|[H1 _]]; lia.
  - rewrite overhead_fst by exact Hs. rewrite Hprobe. reflexivity.
Qed.

(** C8 fails as stated.  With [cache_size = 1] the second of two equal
    [count_tokens] calls sends the probe again; with [cache_size = 2] a
    call on another model in between has the same effect. *)
Lemma overhead_probe_sent_twice :
  sent (probe_call Example.haiku)
    (after_all Example.constant_42 1 Example.haiku
       [CallCountTokens "Test text"; CallCountTokens "Test text"] fresh)
  = 2%nat
  /\ sent (probe_call Example.haiku)
       (snd (count_tokens Example.constant_42 2 "Test text" Example.haiku
          (snd (count_tokens Example.constant_42 2 "Test text" Example.sonnet
             (snd (count_tokens Example.constant_42 2 "Test text"
                     Example.haiku fresh))))))
     = 2%nat.
Proof. split; vm_compute; reflexivity. Qed.

(** ** A first call on a new counter *)

Section FirstCall.

Variable client_count_tokens : string -> input -> exn + response.
Variable cache_size : Z.
Variables (text model_id : string) (r a : Z).
Hypothesis text_not_probe : text <> "A".
Hypothesis text_answered : raw_count client_count_tokens text model_id = inr r.
Hypothesis probe_answered : raw_count client_count_tokens "A" model_id = inr a.

Local Abbreviation counted := (count_tokens client_count_tokens cache_size).

Lemma impl_ok t st v :
  raw_count client_count_tokens t model_id = inr v ->
  _count_tokens_impl client_count_tokens t model_id st
  = (Ok v, {| cache := cache st; hits := hits st; misses := misses st;
              calls := calls st ++ [(model_id, envelope t)] |}).
Proof.
  unfold raw_count, _count_tokens_impl, bind, lift, _format_input_for_model.
  destruct (supported model_id); [|discriminate]. cbn.
  destruct (client_count_tokens model_id (envelope t)); [discriminate|].
  intros H; inversion H; reflexivity.
Qed.

Lemma counted_fresh :
  exists st1,
    counted text model_id fresh = (Ok (Z.max 0 (r - (a - 1))), st1)
    /\ calls st1 = [(model_id, envelope text); (model_id, envelope "A")].
Proof.
  destruct (Z.leb_spec cache_size 0) as [Hle|Hgt].
  - unfold count_tokens, _get_message_overhead, _count_tokens_cached,
      lru_cache, bind, ret.
    apply Z.leb_le in Hle. rewrite Hle.
    rewrite impl_ok with (v := r) by exact text_answered.
    cbn [cache hits misses calls].
    rewrite impl_ok with (v := a) by exact probe_answered.
    cbn [cache hits misses calls].
    eexists; split; reflexivity.
  - unfold count_tokens, _get_message_overhead, bind, ret.
    rewrite (cached_miss_ok client_count_tokens Hgt text model_id fresh
               eq_refl text_answered).
    rewrite (cached_miss_ok client_count_tokens Hgt "A" model_id _)
      with (v := a); [eexists; split; reflexivity| |exact probe_answered].
    cbn [cache cache_get fresh List.length removelast].
    assert (E : key_eqb ("A", model_id) (text, model_id) = false).
    { apply key_eqb_neq. congruence. }
    rewrite E. destruct (cache_size <=? _); reflexivity.
Qed.

Hypothesis cache_size_2 : 2 <= cache_size.

Lemma counted_fresh_state :
  counted text model_id fresh
  = (Ok (Z.max 0 (r - (a - 1))),
     {| cache := [(("A", model_id), a); ((text, model_id), r)];
        hits := 0; misses := 2;
        calls := [(model_id, envelope text); (model_id, envelope "A")] |}).
Proof.
  assert (Hgt : 0 < cache_size) by lia.
  assert (E : key_eqb ("A", model_id) (text, model_id) = false).
  { apply key_eqb_neq. congruence. }
  unfold count_tokens, _get_message_overhead, bind, ret.
  rewrite (cached_miss_ok client_count_tokens Hgt text model_id fresh
             eq_refl text_answered).
  rewrite (cached_miss_ok client_count_tokens Hgt "A" model_id _)
    with (v := a); [| |exact probe_answered].
  - cbn [cache hits misses calls fresh List.length removelast].
    repeat match goal with
           | |- context [cache_size <=? ?x] =>
               let Hx := fresh "Hx" in
               destruct (Z.leb_spec cache_size x) as [Hx|Hx];
               [cbn in Hx; lia|]
           end.
    reflexivity.
  - cbn [cache cache_get fresh List.length removelast]. rewrite E.
    destruct (cache_size <=? _); reflexivity.
Qed.

Lemma counted_again :
  counted text model_id (snd (counted text model_id fresh))
  = (Ok (Z.max 0 (r - (a - 1))),
     {| cache := [(("A", model_id), a); ((text, model_id), r)];
        hits := 2; misses := 2;
        calls := [(model_id, envelope text); (model_id, envelope "A")] |}).
Proof.
  assert (Hgt : 0 < cache_size) by lia.
  assert (E : key_eqb ("A", model_id) (text, model_id) = false).
  { apply key_eqb_neq. congruence. }
  assert (E' : key_eqb (text, model_id) ("A", model_id) = false).
  { rewrite key_eqb_sym. exact E. }
  rewrite counted_fresh_state. cbn [snd].
  unfold count_tokens, _get_message_overhead, bind, ret.
  rewrite (cached_hit client_count_tokens Hgt text model_id _ (v := r)).
  2:{ cbn [cache cache_get]. rewrite E', key_eqb_refl. reflexivity. }
  cbn [cache hits misses calls cache_remove].
  rewrite E', key_eqb_refl. cbn [cache_remove].
  rewrite (cached_hit client_count_tokens Hgt "A" model_id _ (v := a)).
  2:{ cbn [cache cache_get]. rewrite E, key_eqb_refl. reflexivity. }
  cbn [cache hits misses calls cache_remove].
  rewrite E, key_eqb_refl. cbn [cache_remove]. reflexivity.
Qed.

End FirstCall.

(** ** The empty text *)

(** C6 fails as stated.  [truncate] has no shortcut for the empty text: on
    a new counter it sends two requests, one for the empty text and one
    for the overhead probe, and reports [api_calls = 1]. *)
Lemma truncate_empty_text_sends_requests :
  truncate Example.linear 1000 0 "" 0 Example.haiku true fresh
  = (Ok (TextMeta "" {| md_api_calls := 1; md_final_token_count := 0 |}),
     {| cache := [(("A", Example.haiku), 11); (("", Example.haiku), 10)];
        hits := 0; misses := 2;
        calls := [(Example.haiku, envelope "");
                  (Example.haiku, envelope "A")] |})
  /\ List.length
       (calls (snd (truncate Example.linear 1000 0 "" 0 Example.haiku true
                      fresh)))
     = 2%nat.
Proof. split; vm_compute; reflexivity. Qed.

(** C6, as the code has it.  When the client answers the empty text and
    the probe, and the corrected count of the empty text is at most the
    target, [truncate] on a new counter returns the empty text, reports
    [api_calls = 1], and has sent exactly the two requests of its first
    count: the empty text and the probe. *)
Theorem truncate_empty_text
    (client : string -> input -> exn + response) (cache_size : Z)
    (fuel : nat) (max_tokens : Z) (model_id : string) (r0 a : Z) :
  raw_count client "" model_id = inr r0 ->
  raw_count client "A" model_id = inr a ->
  Z.max 0 (r0 - (a - 1)) <= max_tokens ->
  fst (truncate client cache_size fuel "" max_tokens model_id true fresh)
  = Ok (TextMeta "" {| md_api_calls := 1;
                       md_final_token_count := Z.max 0 (r0 - (a - 1)) |})
  /\ calls (snd (truncate client cache_size fuel "" max_tokens model_id true
                   fresh))
     = [(model_id, envelope ""); (model_id, envelope "A")].
Proof.
  intros R0 RA Hle.
  assert (Hne : "" <> "A") by discriminate.
  destruct (@counted_fresh client cache_size "" model_id r0 a Hne R0 RA)
    as [st1 [E Hcalls]].
  rewrite (@truncate_fast_path client cache_size fuel "" max_tokens
             model_id true fresh st1 _ E Hle).
  split; [reflexivity|exact Hcalls].
Qed.

(** ** The package-level functions *)

(** A lookup, and so a [count_tokens] call, adds requests at the end of
    the list and withdraws none. *)
Lemma cached_appends
    (client : string -> input -> exn + response) (cache_size : Z)
    (text model_id : string) (st : counter) :
  exists l,
    calls (snd (_count_tokens_cached client cache_size text model_id st))
    = calls st ++ l.
Proof.
  assert (Himpl : forall s,
            exists l,
              calls (snd (_count_tokens_impl client text model_id s))
              = calls s ++ l).
  { intros s. unfold _count_tokens_impl, bind, lift.
    destruct (_format_input_for_model text model_id) as [e|i];
      cbn [raise ret snd]; [exists []; symmetry; apply app_nil_r|].
    destruct (client model_id i); cbn [snd calls]; eexists; reflexivity. }
  unfold _count_tokens_cached, lru_cache.
  destruct (cache_size <=? 0);
    [|destruct (cache_get (text, model_id) (cache st));
      [exists []; cbn; symmetry; apply app_nil_r|]];
    match goal with |- context [_count_tokens_impl ?c text model_id ?s] =>
      specialize (Himpl s); cbn [calls] in Himpl;
      destruct (_count_tokens_impl c text model_id s) as [[v| |] s1]
    end; exact Himpl.
Qed.

Lemma counted_appends
    (client : string -> input -> exn + response) (cache_size : Z)
    (text model_id : string) (st : counter) :
  exists l,
    calls (snd (count_tokens client cache_size text model_id st))
    = calls st ++ l.
Proof.
  unfold count_tokens, _get_message_overhead, bind, ret.
  destruct (cached_appends client cache_size text model_id st) as [l1 H1].
  destruct (_count_tokens_cached client cache_size text model_id st)
    as [[r| |] s1]; cbn [snd] in H1 |- *; try (exists l1; exact H1).
  destruct (cached_appends client cache_size "A" model_id s1) as [l2 H2].
  destruct (_count_tokens_cached client cache_size "A" model_id s1)
    as [[a| |] s2]; cbn [snd] in H2 |- *;
    exists (l1 ++ l2); rewrite H2, H1; symmetry; apply app_assoc.
Qed.

(** C10.  Each call of the package-level [count_tokens] sends the request
    of the text and the request of the probe, whatever was sent before, so
    two calls in a row send both twice, whereas the same two calls as
    methods of one counter send them once.  The package-level [truncate]
    answers what the method answers on a new counter and sends what that
    counter sends, which starts with the request of the text and the
    request of the probe, and a second call in a row sends all of it
    again; whereas, when the text fits the target, the same two calls as
    methods of one counter send the two requests once. *)
Theorem package_functions_start_cold
    (boto3_client : option string -> string -> input -> exn + response)
    (aws_region : option string) (text model : string) (r a : Z)
    (world : list (string * input)) :
  text <> "A" ->
  raw_count (boto3_client aws_region) text model = inr r ->
  raw_count (boto3_client aws_region) "A" model = inr a ->
  let issued := [(model, envelope text); (model, envelope "A")] in
  let c := Z.max 0 (r - (a - 1)) in
  let method :=
    count_tokens (boto3_client aws_region) Package.default_cache_size
      text model in
  Package.count_tokens boto3_client text model aws_region world
  = (Ok c, world ++ issued)
  /\ Package.count_tokens boto3_client text model aws_region
       (world ++ issued)
     = (Ok c, (world ++ issued) ++ issued)
  /\ fst (method fresh) = Ok c
  /\ calls (snd (method fresh)) = issued
  /\ fst (method (snd (method fresh))) = Ok c
  /\ calls (snd (method (snd (method fresh)))) = issued
  /\ (forall fuel max_tokens,
        let cut :=
          truncate (boto3_client aws_region) Package.default_cache_size
            fuel text max_tokens model false in
        (exists rest,
           calls (snd (cut fresh)) = issued ++ rest
           /\ Package.truncate boto3_client fuel text max_tokens model
                aws_region world
              = (fst (cut fresh), world ++ issued ++ rest)
           /\ Package.truncate boto3_client fuel text max_tokens model
                aws_region (world ++ issued ++ rest)
              = (fst (cut fresh), (world ++ issued ++ rest) ++ issued ++ rest))
        /\ (c <= max_tokens ->
            fst (cut fresh) = Ok (Text text)
            /\ calls (snd (cut fresh)) = issued
            /\ fst (cut (snd (cut fresh))) = Ok (Text text)
            /\ calls (snd (cut (snd (cut fresh)))) = issued)).
Proof.
  intros Hne R RA issued c method.
  assert (Hsize : 2 <= Package.default_cache_size)
    by (unfold Package.default_cache_size; lia).
  pose proof (@counted_fresh_state (boto3_client aws_region)
                Package.default_cache_size text model r a Hne R RA Hsize)
    as E1.
  pose proof (@counted_again (boto3_client aws_region)
                Package.default_cache_size text model r a Hne R RA Hsize)
    as E2.
  assert (Hcount :
    Package.count_tokens boto3_client text model aws_region world
    = (Ok c, world ++ issued)
    /\ Package.count_tokens boto3_client text model aws_region
         (world ++ issued)
       = (Ok c, (world ++ issued) ++ issued)
    /\ fst (method fresh) = Ok c
    /\ calls (snd (method fresh)) = issued
    /\ fst (method (snd (method fresh))) = Ok c
    /\ calls (snd (method (snd (method fresh)))) = issued).
  { subst issued c method. unfold Package.count_tokens.
    rewrite E1 in E2 |- *. cbn [fst snd calls] in *. rewrite E2.
    cbn [fst snd calls]. repeat split. }
  destruct Hcount as (C1 & C2 & C3 & C4 & C5 & C6).
  repeat (split; [assumption|]).
  intros fuel max_tokens cut. split.
  - assert (Hcut : exists rest, calls (snd (cut fresh)) = issued ++ rest).
    { assert (Hstep : forall t s,
                (exists rest, calls s = issued ++ rest) ->
                exists rest,
                  calls (snd (count_tokens (boto3_client aws_region)
                                Package.default_cache_size t model s))
                  = issued ++ rest).
      { intros t s [rest Hs].
        destruct (counted_appends (boto3_client aws_region)
                    Package.default_cache_size t model s) as [l Hl].
        exists (rest ++ l). rewrite Hl, Hs. symmetry. apply app_assoc. }
      subst cut. unfold truncate, bind.
      pose proof E1 as E3. unfold count_tokens, bind in E3.
      destruct (_count_tokens_cached (boto3_client aws_region)
                  Package.default_cache_size text model fresh)
        as [[raw| |] s1]; try discriminate E3.
      destruct (_get_message_overhead (boto3_client aws_region)
                  Package.default_cache_size model s1)
        as [[o| |] s2]; try discriminate E3.
      assert (P2 : exists rest, calls s2 = issued ++ rest).
      { exists []. cbn [ret] in E3. inversion E3; subst s2. reflexivity. }
      destruct (Z.max 0 (raw - o) <=? max_tokens); [exact P2|].
      unfold lift.
      destruct (initial_estimate text max_tokens raw) as [e|[cpt tc]];
        cbn [raise ret snd]; [exact P2|].
      match goal with
      | |- context [adaptive_loop ?cl ?z ?t ?m ?i ?f ?n ?x ?st0] =>
          pose proof (@adaptive_loop_invariant cl z i
                        (fun s => exists rest, calls s = issued ++ rest)
                        Hstep t m f n x st0 P2) as L;
          destruct (adaptive_loop cl z t m i f n x st0) as [[s| |] s3]
      end; cbn [snd] in L |- *; try exact L.
      pose proof (@finalize_invariant (boto3_client aws_region)
                    Package.default_cache_size model
                    (fun s => exists rest, calls s = issued ++ rest)
                    Hstep text max_tokens s s3 L) as Fz.
      destruct (finalize _ _ _ _ _ s s3) as [[v| |] s4]; exact Fz. }
    destruct Hcut as [rest Hrest]. exists rest.
    split; [exact Hrest|]. unfold Package.truncate. fold cut.
    destruct (cut fresh) as [res st]. cbn [fst snd] in Hrest |- *.
    rewrite Hrest. split; reflexivity.
  - intros Hfit. subst cut method.
    destruct (count_tokens (boto3_client aws_region)
                Package.default_cache_size text model fresh)
      as [o1 s1] eqn:F1.
    cbn [fst snd] in C3, C4, C5, C6. subst o1.
    rewrite (@truncate_fast_path (boto3_client aws_region)
               Package.default_cache_size fuel text max_tokens model false
               fresh s1 c F1 Hfit).
    cbn [fst snd respond].
    destruct (count_tokens (boto3_client aws_region)
                Package.default_cache_size text model s1)
      as [o2 s2] eqn:F2.
    cbn [fst snd] in C5, C6. subst o2.
    rewrite (@truncate_fast_path (boto3_client aws_region)
               Package.default_cache_size fuel text max_tokens model false
               s1 s2 c F2 Hfit).
    cbn [fst snd respond]. repeat split; assumption.
Qed.

(** ** The limit of 20 calls and the prefix returned *)

Lemma truncate_more_fuel
    (client : string -> input -> exn + response) (cache_size : Z)
    (fuel k : nat) (text : string) (max_tokens : Z) (model_id : string)
    (return_metadata : bool) (st : counter) :
  fst (truncate client cache_size fuel text max_tokens model_id
         return_metadata st) <> Diverge ->
  truncate client cache_size (fuel + k) text max_tokens model_id
    return_metadata st
  = truncate client cache_size fuel text max_tokens model_id
      return_metadata st.
Proof.
  intros H.
  destruct (truncate client cache_size fuel text max_tokens model_id
              return_metadata st) as [r st'] eqn:E.
  apply truncate_fuel; [exact E|exact H].
Qed.

(** C1, which the code breaks.  The text is 200 times ["a"], of corrected
    count 90 on the client [Example.plateaus], and the target is 50.
    Whatever fuel the loop is given beyond the 4 iterations it needs,
    [truncate] reports [api_calls = 21] and has sent 21 requests. *)
Theorem truncate_overruns_the_limit (k : nat) :
  fst (count_tokens Example.plateaus 1000 Example.a200 Example.haiku fresh)
  = Ok 90
  /\ fst (truncate Example.plateaus 1000 (4 + k) Example.a200 50
            Example.haiku true fresh)
     = Ok (TextMeta (Example.repeat_char "a" 69)
             {| md_api_calls := 21; md_final_token_count := 48 |})
  /\ List.length
       (calls (snd (truncate Example.plateaus 1000 (4 + k) Example.a200 50
                      Example.haiku true fresh)))
     = 21%nat.
Proof.
  rewrite truncate_more_fuel by (vm_compute; discriminate).
  repeat split; vm_compute; reflexivity.
Qed.

(** C2, which the code breaks.  The text is 400 times ["a"] on the client
    [Example.quarter] and the target is 51.  The loop probes 185 and then
    199 characters, of corrected count 50, and its local scan stops at 200
    characters, of count 52.  The verification finds 50, not 51, so the
    exhaustive search starts again from one character and runs out of
    calls at 15: [truncate] returns 15 characters, of count 4, though it
    had counted the prefix of 199 characters. *)
Theorem truncate_returns_shorter_prefix (k : nat) :
  fst (truncate Example.quarter 1000 (2 + k) Example.a400 51 Example.haiku
         true fresh)
  = Ok (TextMeta (Example.repeat_char "a" 15)
          {| md_api_calls := 20; md_final_token_count := 4 |})
  /\ sent (Example.haiku, envelope (Example.repeat_char "a" 199))
       (snd (truncate Example.quarter 1000 (2 + k) Example.a400 51
               Example.haiku true fresh))
     = 1%nat
  /\ fst (count_tokens Example.quarter 1000 (Example.repeat_char "a" 199)
            Example.haiku fresh)
     = Ok 50
  /\ slice_to Example.a400 199 = Example.repeat_char "a" 199.
Proof.
  rewrite truncate_more_fuel by (vm_compute; discriminate).
  repeat split; vm_compute; reflexivity.
Qed.

(** ** Exceptions during [truncate] *)


Section ErrorPaths.

Variable client : string -> input -> exn + response.
Variable cache_size : Z.
Variables (text : string) (max_tokens : Z) (model_id : string).
Variable cpt : PyFloat.float.

Local Abbreviation counted := (count_tokens client cache_size).
Local Abbreviation scan_up :=
  (widen_scan client cache_size text max_tokens model_id).
Local Abbreviation scan_down :=
  (shrink_scan client cache_size text max_tokens model_id).
Local Abbreviation loop :=
  (adaptive_loop client cache_size text max_tokens model_id cpt).









End ErrorPaths.


(** ** The theorems at concrete inputs *)

Lemma count_tokens_subtracts_overhead_witness :
  fst (_get_message_overhead Example.constant_42 1000 Example.haiku fresh)
  = Ok (42 - 1)
  /\ fst (count_tokens Example.constant_42 1000 "Test text" Example.haiku
            fresh)
     = Ok (Z.max 0 (42 - (42 - 1))).
Proof.
  apply count_tokens_subtracts_overhead.
  - apply reach_fresh.
  - reflexivity.
  - reflexivity.
  - reflexivity.
Defined.

Lemma truncate_full_fit_witness :
  truncate Example.constant_42 1000 0 "Short text" 20 Example.haiku true fresh
  = (Ok (TextMeta "Short text"
           {| md_api_calls := 1; md_final_token_count := 1 |}),
     snd (count_tokens Example.constant_42 1000 "Short text" Example.haiku
            fresh))
  /\ truncate Example.constant_42 1000 0 "Short text" 20 Example.haiku false
       fresh
     = (Ok (Text "Short text"),
        snd (count_tokens Example.constant_42 1000 "Short text"
               Example.haiku fresh)).
Proof.
  apply truncate_full_fit.
  - vm_compute. reflexivity.
  - lia.
Defined.

Lemma truncate_empty_text_witness :
  fst (truncate Example.linear 1000 0 "" 0 Example.haiku true fresh)
  = Ok (TextMeta "" {| md_api_calls := 1;
                       md_final_token_count := Z.max 0 (10 - (11 - 1)) |})
  /\ calls (snd (truncate Example.linear 1000 0 "" 0 Example.haiku true
                   fresh))
     = [(Example.haiku, envelope ""); (Example.haiku, envelope "A")].
Proof.
  apply truncate_empty_text.
  - reflexivity.
  - reflexivity.
  - vm_compute. discriminate.
Defined.

Lemma unsupported_model_fails_before_any_call_witness :
  exists msg,
    _format_input_for_model "Test text" "amazon.nova-pro-v1:0"
    = inl (ValueError msg)
    /\ fst (count_tokens Example.constant_42 1000 "Test text"
              "amazon.nova-pro-v1:0" fresh)
       = Raise (ValueError msg)
    /\ calls (snd (count_tokens Example.constant_42 1000 "Test text"
                     "amazon.nova-pro-v1:0" fresh))
       = calls fresh
    /\ fst (truncate Example.constant_42 1000 0 "Test text" 10
              "amazon.nova-pro-v1:0" true fresh)
       = Raise (ValueError msg)
    /\ calls (snd (truncate Example.constant_42 1000 0 "Test text" 10
                     "amazon.nova-pro-v1:0" true fresh))
       = calls fresh.
Proof.
  apply unsupported_model_fails_before_any_call.
  - apply reach_fresh.
  - reflexivity.
Defined.

Lemma overhead_probe_sent_once_witness :
  (sent (probe_call Example.haiku)
     (after_all Example.constant_42 2 Example.haiku
        [CallCountTokens "Test text";
         CallTruncate 5 "Short text" 20 true;
         CallCountTokens "Another text";
         CallCountTokens "Test text"] fresh) <= 1)%nat
  /\ fst (_get_message_overhead Example.constant_42 2 Example.haiku
            (after_all Example.constant_42 2 Example.haiku
               [CallCountTokens "Test text";
                CallTruncate 5 "Short text" 20 true;
                CallCountTokens "Another text";
                CallCountTokens "Test text"] fresh))
     = Ok (42 - 1).
Proof.
  apply overhead_probe_sent_once.
  - lia.
  - reflexivity.
Defined.

Lemma package_functions_start_cold_witness :
  Package.count_tokens (fun _ => Example.linear) "hello world"
    Example.haiku None []
  = (Ok 11, [(Example.haiku, envelope "hello world");
             (Example.haiku, envelope "A")])
  /\ Package.count_tokens (fun _ => Example.linear) "hello world"
       Example.haiku None
       [(Example.haiku, envelope "hello world");
        (Example.haiku, envelope "A")]
     = (Ok 11, [(Example.haiku, envelope "hello world");
                (Example.haiku, envelope "A");
                (Example.haiku, envelope "hello world");
                (Example.haiku, envelope "A")])
  /\ (exists rest,
        calls (snd (truncate Example.linear Package.default_cache_size 20
                      "hello world" 5 Example.haiku false fresh))
        = [(Example.haiku, envelope "hello world");
           (Example.haiku, envelope "A")] ++ rest
        /\ Package.truncate (fun _ => Example.linear) 20 "hello world" 5
             Example.haiku None []
           = (fst (truncate Example.linear Package.default_cache_size 20
                     "hello world" 5 Example.haiku false fresh),
              [] ++ [(Example.haiku, envelope "hello world");
                     (Example.haiku, envelope "A")] ++ rest)
        /\ Package.truncate (fun _ => Example.linear) 20 "hello world" 5
             Example.haiku None
             ([] ++ [(Example.haiku, envelope "hello world");
                     (Example.haiku, envelope "A")] ++ rest)
           = (fst (truncate Example.linear Package.default_cache_size 20
                     "hello world" 5 Example.haiku false fresh),
              ([] ++ [(Example.haiku, envelope "hello world");
                      (Example.haiku, envelope "A")] ++ rest)
              ++ [(Example.haiku, envelope "hello world");
                  (Example.haiku, envelope "A")] ++ rest))
  /\ fst (truncate Example.linear Package.default_cache_size 20
            "hello world" 11 Example.haiku false fresh)
     = Ok (Text "hello world")
  /\ calls (snd (truncate Example.linear Package.default_cache_size 20
                   "hello world" 11 Example.haiku false
                   (snd (truncate Example.linear Package.default_cache_size
                           20 "hello world" 11 Example.haiku false fresh))))
     = [(Example.haiku, envelope "hello world");
        (Example.haiku, envelope "A")].
Proof.
  assert (Hne : "hello world" <> "A") by discriminate.
  pose proof (@package_functions_start_cold (fun _ => Example.linear)
                None "hello world" Example.haiku 21 11 [] Hne eq_refl
                eq_refl)
    as H.
  cbv zeta in H. destruct H as (H1 & H2 & _ & _ & _ & _ & H7).
  destruct (H7 20%nat 5) as [Hcold _].
  destruct (H7 20%nat 11) as [_ Hwarm].
  destruct Hwarm as (W1 & _ & _ & W4); [vm_compute; discriminate|].
  split; [exact H1|]. split; [exact H2|]. split; [exact Hcold|].
  split; [exact W1|exact W4].
Defined.

Lemma truncate_nothing_recorded_witness :
  fst (count_tokens Example.steep 1000 Example.a62 Example.haiku fresh)
  = Ok 300
  /\ truncate Example.steep 1000 1 Example.a62 11 Example.haiku true fresh
     = (Ok (TextMeta "" {| md_api_calls := 2; md_final_token_count := 0 |}),
        {| cache := [(("A", Example.haiku), 11);
                     ((Example.repeat_char "a" 2, Example.haiku), 31);
                     ((Example.a62, Example.haiku), 310)];
           hits := 1; misses := 3;
           calls := [(Example.haiku, envelope Example.a62);
                     (Example.haiku, envelope "A");
                     (Example.haiku,
                      envelope (Example.repeat_char "a" 2))] |}).
Proof.
  split; [vm_compute; reflexivity|].
  apply (@truncate_nothing_recorded Example.steep 1000 1 Example.a62 11
           Example.haiku fresh
           (snd (_count_tokens_cached Example.steep 1000 Example.a62
                   Example.haiku fresh))
           (snd (count_tokens Example.steep 1000 Example.a62
                   Example.haiku fresh))
           _ 310 10 2 (S754_finite false 7205759403792794 (-55))
           {| api_calls := 2; target_chars := 1;
              best_text := ""; best_count := 0 |}).
  - vm_compute. reflexivity.
  - vm_compute. reflexivity.
  - vm_compute. reflexivity.
  - vm_compute. reflexivity.
  - vm_compute. reflexivity.
  - reflexivity.
Defined.


(** ** Prefixes *)

Unset Implicit Arguments.

Lemma substring_length (s : string) (n : nat) :
  String.length (substring 0 n s) = Nat.min n (String.length s).
Proof.
  revert n. induction s as [|c s IH]; intros [|n]; cbn; try reflexivity.
  rewrite IH. reflexivity.
Qed.

Lemma substring_min (s : string) (n : nat) :
  substring 0 (Nat.min n (String.length s)) s = substring 0 n s.
Proof.
  revert n. induction s as [|c s IH]; intros [|n]; cbn; try reflexivity.
  rewrite IH. reflexivity.
Qed.

Lemma substring_all (s : string) : substring 0 (String.length s) s = s.
Proof. induction s as [|c s IH]; cbn; [reflexivity|]. rewrite IH. reflexivity. Qed.

Lemma slice_to_substring (s : string) (n : Z) :
  exists k, slice_to s n = substring 0 k s.
Proof. unfold slice_to. destruct (0 <=? n); eexists; reflexivity. Qed.

Lemma slice_to_len (s : string) (n : Z) :
  slice_to s (len (slice_to s n)) = slice_to s n.
Proof.
  destruct (slice_to_substring s n) as [k ->].
  unfold slice_to at 1, len. rewrite substring_length.
  replace (0 <=? Z.of_nat (Nat.min k (String.length s))) with true
    by (symmetry; apply Z.leb_le; lia).
  rewrite Nat2Z.id. apply substring_min.
Qed.

Lemma slice_to_le (s : string) (n : Z) : len (slice_to s n) <= len s.
Proof.
  destruct (slice_to_substring s n) as [k ->].
  unfold len. rewrite substring_length. lia.
Qed.

Lemma slice_to_zero (s : string) : slice_to s 0 = "".
Proof. unfold slice_to. cbn. destruct s; reflexivity. Qed.

Lemma slice_to_all (s : string) : slice_to s (len s) = s.
Proof.
  unfold slice_to, len.
  replace (0 <=? Z.of_nat (String.length s)) with true
    by (symmetry; apply Z.leb_le; lia).
  rewrite Nat2Z.id. apply substring_all.
Qed.

Lemma range_length (a b : Z) :
  Z.of_nat (List.length (range a b)) = Z.max 0 (b - a).
Proof. unfold range. rewrite length_map, length_seq. lia. Qed.

Lemma range_down_head (a : Z) :
  0 < a -> exists rest, range_down a 0 = a :: rest.
Proof.
  intros Ha. unfold range_down.
  destruct (Z.to_nat (a - 0)) as [|n] eqn:E; [lia|].
  cbn. eexists. f_equal. lia.
Qed.

(** ** Partial correctness of the steps of [truncate] *)

Lemma hoare_ret A (a : A) (P : counter -> Prop) (Q : A -> counter -> Prop) :
  (forall st, P st -> Q a st) -> hoare P (ret a) Q.
Proof. intros H st a' st' HP E. inversion E; subst. apply H, HP. Qed.

Lemma hoare_bind A B (m : M A) (k : A -> M B) (P : counter -> Prop)
    (Q : A -> counter -> Prop) (R : B -> counter -> Prop) :
  hoare P m Q -> (forall a, hoare (Q a) (k a) R) -> hoare P (bind m k) R.
Proof.
  intros Hm Hk st b st' HP E. unfold bind in E.
  destruct (m st) as [[a| |] st1] eqn:Em; try discriminate E.
  apply (Hk a st1 b st'); [|exact E]. apply (Hm st a st1 HP Em).
Qed.

Lemma hoare_lift A (r : exn + A) (P : counter -> Prop)
    (Q : A -> counter -> Prop) :
  (forall a st, r = inr a -> P st -> Q a st) -> hoare P (lift r) Q.
Proof.
  intros H st a st' HP E. destruct r as [e|a0]; cbn in E;
    inversion E; subst. apply H; [reflexivity|exact HP].
Qed.

Lemma hoare_conseq A (m : M A) (P P' : counter -> Prop)
    (Q Q' : A -> counter -> Prop) :
  (forall st, P' st -> P st) -> (forall a st, Q a st -> Q' a st) ->
  hoare P m Q -> hoare P' m Q'.
Proof. intros HP HQ H st a st' HP' E. apply HQ, (H st a st'); auto. Qed.

Section Bounds.

Variable client_count_tokens : string -> input -> exn + response.
Variable cache_size : Z.
Variables (text : string) (max_tokens : Z) (model_id : string).
Variable cpt : PyFloat.float.

Local Abbreviation sound := (cache_sound client_count_tokens).
Local Abbreviation corrected := (corrected_count client_count_tokens).
Local Abbreviation counted := (count_tokens client_count_tokens cache_size).
Local Abbreviation probed := (probe client_count_tokens cache_size model_id).
Local Abbreviation ok :=
  (tracked client_count_tokens text max_tokens model_id).

Lemma counted_hoare t :
  hoare sound (counted t model_id)
    (fun c st => sound st /\ corrected t model_id = inr c).
Proof.
  intros st c st' Hs E. split.
  - change st' with (snd (Ok c, st')). rewrite <- E.
    apply counted_sound, Hs.
  - pose proof (counted_fst cache_size t model_id Hs) as F.
    rewrite E in F. cbn [fst] in F. unfold corrected_count.
    destruct (raw_count client_count_tokens t model_id); [discriminate F|].
    destruct (raw_count client_count_tokens "A" model_id);
      [discriminate F|].
    inversion F. reflexivity.
Qed.

Lemma probe_hoare t :
  hoare sound (probed t)
    (fun r st => sound st
                 /\ forall c, r = Some c -> corrected t model_id = inr c).
Proof.
  intros st r st' Hs E. unfold probe, except_client_error, bind in E.
  pose proof (counted_sound cache_size t model_id Hs) as Hs1.
  destruct (counted t model_id st) as [[c|e|] st1] eqn:Ec; cbn [snd] in Hs1.
  - inversion E; subst. split; [exact Hs1|].
    intros c0 H. inversion H; subst.
    apply (counted_hoare t st c0 st' Hs Ec).
  - destruct e; inversion E; subst. split; [exact Hs1|discriminate].
  - discriminate E.
Qed.

Lemma probe_known t c st :
  sound st -> corrected t model_id = inr c ->
  exists st1, probed t st = (Ok (Some c), st1).
Proof.
  intros Hs Hc. pose proof (counted_fst cache_size t model_id Hs) as F.
  unfold corrected_count in Hc. unfold probe, except_client_error, bind.
  destruct (counted t model_id st) as [r st1]. cbn [fst] in F. subst r.
  destruct (raw_count client_count_tokens t model_id); [discriminate Hc|].
  destruct (raw_count client_count_tokens "A" model_id);
    [discriminate Hc|].
  inversion Hc; subst. cbn. eexists; reflexivity.
Qed.

Lemma ok_called s : ok s -> ok (called s).
Proof. intros H; exact H. Qed.

Lemma ok_retarget n s : ok s -> ok (retarget n s).
Proof. intros H; exact H. Qed.

Lemma ok_record n c s :
  corrected (slice_to text n) model_id = inr c -> c <= max_tokens ->
  ok (record (slice_to text n) c s).
Proof.
  intros Hc Hle. split; [exists n; reflexivity|right]. split; assumption.
Qed.

Lemma widen_scan_hoare idx s :
  ok s ->
  hoare sound
    (widen_scan client_count_tokens cache_size text max_tokens model_id
       idx s)
    (fun s' st => sound st /\ ok s'
                  /\ api_calls s' <= api_calls s + Z.of_nat (List.length idx)).
Proof.
  revert s. induction idx as [|i rest IH]; intros s Hok.
  - apply hoare_ret. intros st Hs. finish_bound.
  - cbn [widen_scan]. eapply hoare_bind; [apply probe_hoare|].
    intros [c|].
    + intros st s' st' [Hs Hc] E. specialize (Hc c eq_refl).
      cbn [List.length]. rewrite Nat2Z.inj_succ.
      destruct (c <=? max_tokens) eqn:Hle.
      * apply Z.leb_le in Hle.
        assert (Hrec : ok (record (slice_to text (i + 1)) c (called s)))
          by (apply ok_record; assumption).
        destruct (c =? max_tokens).
        -- inversion E; subst. finish_bound.
        -- destruct (IH _ Hrec st s' st' Hs E) as (Hs' & Hok' & Hb).
           cbn in Hb. finish_bound.
      * inversion E; subst. finish_bound.
    + apply hoare_ret. intros st [Hs _]. finish_bound.
Qed.

Lemma shrink_scan_hoare s :
  ok s ->
  hoare sound
    (shrink_scan client_count_tokens cache_size text max_tokens model_id
       (range_down (len (best_text s)) 0) s)
    (fun s' st => sound st /\ ok s' /\ api_calls s' <= api_calls s + 1).
Proof.
  intros Hok. destruct (Z.eq_dec (len (best_text s)) 0) as [Hz|Hnz].
  - rewrite Hz. apply hoare_ret. intros st Hs.
    finish_bound.
  - assert (Hpos : 0 < len (best_text s)) by (unfold len in *; lia).
    destruct (range_down_head _ Hpos) as [rest ->].
    destruct Hok as [[n Hn] [Hempty|[Hc Hle]]].
    { rewrite Hempty in Hnz. cbn in Hnz. congruence. }
    intros st s' st' Hs E. cbn [shrink_scan] in E. unfold bind in E.
    assert (Hsl : slice_to text (len (best_text s)) = best_text s).
    { rewrite Hn. apply slice_to_len. }
    rewrite Hsl in E.
    destruct (probe_known _ _ _ Hs Hc) as [st1 Hp].
    pose proof (probe_hoare _ _ _ _ Hs Hp) as [Hs1 _].
    rewrite Hp in E. apply Z.leb_le in Hle. rewrite Hle in E.
    apply Z.leb_le in Hle.
    assert (Hrec : ok (record (best_text s) (best_count s) (called s))).
    { rewrite Hn in Hc |- *. apply ok_record; assumption. }
    destruct (best_count s =? max_tokens); inversion E; subst;
      finish_bound.
Qed.

Lemma adapt_hoare n c s :
  ok s -> corrected (slice_to text n) model_id = inr c ->
  hoare sound
    (adapt client_count_tokens cache_size text max_tokens model_id cpt
       (slice_to text n) c s)
    (fun next st =>
       sound st
       /\ match next with
          | inl s' => ok s' /\ api_calls s' <= api_calls s + 16
          | inr s' => ok s' /\ api_calls s' = api_calls s + 1
          end).
Proof.
  intros Hok Hc. unfold adapt.
  destruct (c =? max_tokens) eqn:Heq.
  - apply Z.eqb_eq in Heq. apply hoare_ret. intros st Hs.
    split; [exact Hs|]. split; [apply ok_record; [exact Hc|lia]|cbn; lia].
  - destruct (c <? max_tokens) eqn:Hlt.
    + apply Z.ltb_lt in Hlt.
      assert (Hrec : ok (record (slice_to text n) c (called s)))
        by (apply ok_record; [exact Hc|lia]).
      destruct (0 <? max_tokens - c).
      * eapply hoare_bind with (Q := fun _ st => sound st);
          [apply hoare_lift; auto|].
        intros extra. destruct (extra <=? 5).
        -- eapply hoare_bind;
             [apply widen_scan_hoare; apply ok_retarget, Hrec|].
           intros s'. apply hoare_ret. intros st (Hs & Hok' & Hb).
           split; [exact Hs|]. split; [exact Hok'|].
           rewrite range_length in Hb. cbn in Hb |- *. lia.
        -- apply hoare_ret. intros st Hs. split; [exact Hs|].
           split; [apply ok_retarget, Hrec|reflexivity].
      * apply hoare_ret. intros st Hs. split; [exact Hs|].
        split; [exact Hrec|reflexivity].
    + eapply hoare_bind with (Q := fun _ st => sound st);
        [apply hoare_lift; auto|].
      intros cut. destruct (cut <=? 5).
      * eapply hoare_bind;
          [apply (shrink_scan_hoare
                    (retarget (Z.max (target_chars (called s) - cut) 1)
                       (called s)));
           apply ok_retarget, ok_called, Hok|].
        intros s'. apply hoare_ret. intros st (Hs & Hok' & Hb).
        split; [exact Hs|]. split; [exact Hok'|]. cbn in Hb. lia.
      * apply hoare_ret. intros st Hs. split; [exact Hs|].
        split; [apply ok_retarget, ok_called, Hok|reflexivity].
Qed.

Lemma adaptive_loop_hoare fuel s :
  ok s -> api_calls s <= 20 ->
  hoare sound
    (adaptive_loop client_count_tokens cache_size text max_tokens model_id
       cpt fuel s)
    (fun s' st => sound st /\ ok s' /\ api_calls s' <= 35).
Proof.
  revert s. induction fuel as [|fuel IH]; intros s Hok Hcalls.
  - intros st s' st' _ E. discriminate E.
  - cbn [adaptive_loop]. destruct (api_calls s <? 20) eqn:Hlt.
    + apply Z.ltb_lt in Hlt.
      eapply hoare_bind; [apply probe_hoare|]. intros [c|].
      * intros st s' st' [Hs Hc] E. specialize (Hc c eq_refl).
        unfold bind in E.
        destruct (adapt _ _ _ _ _ _ _ _ _ st) as [[next| |] st1] eqn:Ea;
          try discriminate E.
        destruct (adapt_hoare _ _ _ Hok Hc _ _ _ Hs Ea) as [Hs1 Hnext].
        destruct next as [s1|s1]; destruct Hnext as [Hok1 Hb].
        -- inversion E; subst. finish_bound.
        -- apply (IH s1 Hok1) with (st := st1); [lia|exact Hs1|exact E].
      * eapply hoare_conseq; [| |apply IH].
        -- intros st [Hs _]. exact Hs.
        -- intros a st H. exact H.
        -- apply ok_retarget, Hok.
        -- exact Hcalls.
    + apply hoare_ret. intros st Hs. finish_bound.
Qed.

End Bounds.

Section Verdict.

Variable client_count_tokens : string -> input -> exn + response.
Variable cache_size : Z.
Variables (text : string) (max_tokens : Z) (model_id : string).

Local Abbreviation sound := (cache_sound client_count_tokens).
Local Abbreviation corrected := (corrected_count client_count_tokens).
Local Abbreviation counted := (count_tokens client_count_tokens cache_size).
Local Abbreviation ok :=
  (tracked client_count_tokens text max_tokens model_id).
Local Abbreviation done :=
  (settled client_count_tokens text max_tokens model_id).

Lemma exhaustive_scan_hoare idx v :
  done (v_best_text v) (final_token_count v) ->
  hoare sound
    (exhaustive_scan client_count_tokens cache_size text max_tokens
       model_id idx v)
    (fun v' st => sound st
                  /\ done (v_best_text v') (final_token_count v')
                  /\ v_api_calls v' <= Z.max (v_api_calls v) 20).
Proof.
  revert v. induction idx as [|i rest IH]; intros v Hv.
  - apply hoare_ret. intros st Hs. finish_bound.
  - cbn [exhaustive_scan]. destruct (20 <=? v_api_calls v) eqn:Hfull.
    + apply hoare_ret. intros st Hs. finish_bound.
    + apply Z.leb_gt in Hfull.
      eapply hoare_bind; [apply counted_hoare|].
      intros c st v' st' [Hs Hc] E.
      destruct (c =? max_tokens) eqn:Heq.
      * apply Z.eqb_eq in Heq. inversion E; subst. cbn.
        split; [exact Hs|]. split; [|lia].
        split; [exists i; reflexivity|left]. split; [exact Hc|lia].
      * destruct (c <? max_tokens) eqn:Hlt.
        -- apply Z.ltb_lt in Hlt.
           edestruct IH as (Hs' & Hv' & Hb); [|exact Hs|exact E|].
           ++ cbn. split; [exists i; reflexivity|left].
              split; [exact Hc|lia].
           ++ cbn in Hb. split; [exact Hs'|]. split; [exact Hv'|lia].
        -- edestruct IH as (Hs' & Hv' & Hb); [|exact Hs|exact E|].
           ++ exact Hv.
           ++ cbn in Hb. split; [exact Hs'|]. split; [exact Hv'|lia].
Qed.

Lemma finalize_hoare s :
  ok s -> api_calls s <= 35 ->
  hoare sound
    (finalize client_count_tokens cache_size text max_tokens model_id s)
    (fun v st => sound st
                 /\ done (v_best_text v) (final_token_count v)
                 /\ v_api_calls v <= 36).
Proof.
  intros [Hpre Hok] Hcalls. unfold finalize.
  destruct (best_text s =? "")%string eqn:Hempty; cbn [negb].
  - apply String.eqb_eq in Hempty. apply hoare_ret. intros st Hs. cbn.
    split; [exact Hs|]. split; [|lia]. split; [exact Hpre|right].
    split; [exact Hempty|reflexivity].
  - apply String.eqb_neq in Hempty.
    destruct Hok as [Habs|[Hc Hle]]; [congruence|].
    eapply hoare_bind; [apply counted_hoare|].
    intros c st v st' [Hs Hc'] E.
    assert (c = best_count s) by congruence. subst c.
    assert (Hv : done (best_text s) (best_count s)).
    { split; [exact Hpre|left]. split; assumption. }
    destruct (negb (best_count s =? max_tokens) && (api_calls s + 1 <? 20)).
    + edestruct exhaustive_scan_hoare as (Hs' & Hv' & Hb);
        [|exact Hs|exact E|].
      * exact Hv.
      * cbn in Hb. split; [exact Hs'|]. split; [exact Hv'|lia].
    + inversion E; subst. cbn. split; [exact Hs|]. split; [exact Hv|lia].
Qed.

Lemma truncate_hoare fuel return_metadata :
  hoare sound
    (truncate client_count_tokens cache_size fuel text max_tokens model_id
       return_metadata)
    (fun r st =>
       sound st
       /\ exists t calls final,
           r = respond return_metadata t calls final
           /\ calls <= 36
           /\ done t final).
Proof.
  intros st r st' Hs E. unfold truncate, bind in E.
  pose proof (cached_sound cache_size text model_id Hs) as Hs1.
  pose proof (cached_fst cache_size text model_id Hs) as F1.
  destruct (_count_tokens_cached _ _ text model_id st) as [[raw| |] st1];
    try discriminate E. cbn [fst snd] in *.
  pose proof (overhead_sound cache_size model_id Hs1) as Hs2.
  pose proof (overhead_fst cache_size model_id Hs1) as F2.
  destruct (_get_message_overhead _ _ model_id st1) as [[o| |] st2];
    try discriminate E. cbn [fst snd] in *.
  assert (Hfull : corrected text model_id = inr (Z.max 0 (raw - o))).
  { unfold corrected_count.
    destruct (raw_count client_count_tokens text model_id);
      [discriminate F1|].
    destruct (raw_count client_count_tokens "A" model_id);
      [discriminate F2|].
    inversion F1; inversion F2; subst. reflexivity. }
  destruct (Z.max 0 (raw - o) <=? max_tokens) eqn:Hfit.
  - apply Z.leb_le in Hfit. inversion E; subst. split; [exact Hs2|].
    exists text, 1, (Z.max 0 (raw - o)). split; [reflexivity|].
    split; [lia|]. split; [exists (len text); symmetry; apply slice_to_all|].
    left. split; assumption.
  - destruct (initial_estimate text max_tokens raw) as [e|[cpt target]];
      cbn in E; [discriminate E|].
    destruct (adaptive_loop _ _ _ _ _ _ _ _ st2) as [[s| |] st3] eqn:L;
      try discriminate E.
    edestruct adaptive_loop_hoare as (Hs3 & Hok & Hb); [| |exact Hs2|exact L|].
    { split; [exists 0; symmetry; apply slice_to_zero|left; reflexivity]. }
    { cbn. lia. }
    destruct (finalize _ _ _ _ _ s st3) as [[v| |] st4] eqn:Fz;
      try discriminate E.
    destruct (finalize_hoare s Hok Hb st3 v st4 Hs3 Fz) as (Hs4 & Hv & Hb').
    inversion E; subst. split; [exact Hs4|].
    exists (v_best_text v), (v_api_calls v), (final_token_count v).
    split; [reflexivity|]. split; assumption.
Qed.

End Verdict.

(** ** What [truncate] guarantees when it returns *)

(** On a counter in any state it can reach, the [api_calls] that
    [truncate] reports is at most 36: at most 20 at the end of an
    iteration of the loop, 15 more in the scan that widens, one more for
    the final verification. *)
Theorem truncate_reports_at_most_36_calls
    (client : string -> input -> exn + response) (cache_size : Z)
    (fuel : nat) (text : string) (max_tokens : Z) (model_id : string)
    (st st' : counter) (t : string) (meta : metadata) :
  reachable client cache_size st ->
  truncate client cache_size fuel text max_tokens model_id true st
    = (Ok (TextMeta t meta), st') ->
  md_api_calls meta <= 36.
Proof.
  intros Hreach E. apply reachable_sound in Hreach.
  destruct (truncate_hoare client cache_size text max_tokens model_id fuel
              true st _ st' Hreach E)
    as (_ & t' & calls' & final & Hr & Hb & _).
  inversion Hr; subst. exact Hb.
Qed.

(** On a counter in any state it can reach, the text that [truncate]
    returns is a prefix [text[:n]] of the text it was given, so it is not
    longer. *)
Theorem truncate_returns_a_prefix
    (client : string -> input -> exn + response) (cache_size : Z)
    (fuel : nat) (text : string) (max_tokens : Z) (model_id : string)
    (st st' : counter) (t : string) :
  reachable client cache_size st ->
  truncate client cache_size fuel text max_tokens model_id false st
    = (Ok (Text t), st') ->
  (exists n, t = slice_to text n) /\ len t <= len text.
Proof.
  intros Hreach E. apply reachable_sound in Hreach.
  destruct (truncate_hoare client cache_size text max_tokens model_id fuel
              false st _ st' Hreach E)
    as (_ & t' & calls' & final & Hr & _ & [[n Hn] _]).
  inversion Hr; subst. split; [exists n; reflexivity|apply slice_to_le].
Qed.

(** On a counter in any state it can reach, when [truncate] returns a
    text that is not empty, the [final_token_count] it reports is the
    corrected count of that text and is within the target. *)
Theorem truncate_result_fits_the_target
    (client : string -> input -> exn + response) (cache_size : Z)
    (fuel : nat) (text : string) (max_tokens : Z) (model_id : string)
    (st st' : counter) (t : string) (meta : metadata) :
  reachable client cache_size st ->
  truncate client cache_size fuel text max_tokens model_id true st
    = (Ok (TextMeta t meta), st') ->
  t <> "" ->
  corrected_count client t model_id = inr (md_final_token_count meta)
  /\ md_final_token_count meta <= max_tokens.
Proof.
  intros Hreach E Hne. apply reachable_sound in Hreach.
  destruct (truncate_hoare client cache_size text max_tokens model_id fuel
              true st _ st' Hreach E)
    as (_ & t' & calls' & final & Hr & _ & [_ [Hfit|[Hempty _]]]);
    inversion Hr; subst; [exact Hfit|congruence].
Qed.

Lemma truncate_reports_at_most_36_calls_witness :
  md_api_calls {| md_api_calls := 21; md_final_token_count := 48 |} <= 36.
Proof.
  apply (truncate_reports_at_most_36_calls Example.plateaus 1000 4
           Example.a200 50 Example.haiku fresh
           (snd (truncate Example.plateaus 1000 4 Example.a200 50
                   Example.haiku true fresh))
           (Example.repeat_char "a" 69)).
  - apply reach_fresh.
  - vm_compute. reflexivity.
Defined.

Lemma truncate_returns_a_prefix_witness :
  (exists n, Example.repeat_char "a" 69 = slice_to Example.a200 n)
  /\ len (Example.repeat_char "a" 69) <= len Example.a200.
Proof.
  apply (truncate_returns_a_prefix Example.plateaus 1000 4
           Example.a200 50 Example.haiku fresh
           (snd (truncate Example.plateaus 1000 4 Example.a200 50
                   Example.haiku false fresh))).
  - apply reach_fresh.
  - vm_compute. reflexivity.
Defined.

Lemma truncate_result_fits_the_target_witness :
  corrected_count Example.plateaus (Example.repeat_char "a" 69) Example.haiku
  = inr (md_final_token_count
           {| md_api_calls := 21; md_final_token_count := 48 |})
  /\ md_final_token_count {| md_api_calls := 21; md_final_token_count := 48 |}
     <= 50.
Proof.
  apply (truncate_result_fits_the_target Example.plateaus 1000 4
           Example.a200 50 Example.haiku fresh
           (snd (truncate Example.plateaus 1000 4 Example.a200 50
                   Example.haiku true fresh))).
  - apply reach_fresh.
  - vm_compute. reflexivity.
  - vm_compute. discriminate.
Defined.

(** The bound of 36 is reached.  The text is 400 times ["a"] on the client
    [Example.slow] and the target is 50: 19 iterations of the loop each
    widen the candidate by 6 characters, the scan adds 15 calls and the
    verification one. *)
Theorem truncate_reports_36_calls (k : nat) :
  fst (truncate Example.slow 1000 (19 + k) Example.a400 50 Example.haiku true
         fresh)
  = Ok (TextMeta (Example.repeat_char "a" 225)
          {| md_api_calls := 36; md_final_token_count := 48 |})
  /\ List.length
       (calls (snd (truncate Example.slow 1000 (19 + k) Example.a400 50
                      Example.haiku true fresh)))
     = 36%nat.
Proof.
  rewrite truncate_more_fuel by (vm_compute; discriminate).
  split; vm_compute; reflexivity.
Qed.

(** ** The size of the cache *)

Lemma cache_remove_le k l :
  (List.length (cache_remove k l) <= List.length l)%nat.
Proof.
  induction l as [|[k' v] l IH]; cbn; [lia|].
  destruct (key_eqb k k'); cbn; lia.
Qed.

Lemma cache_remove_lt k l v :
  cache_get k l = Some v ->
  (S (List.length (cache_remove k l)) <= List.length l)%nat.
Proof.
  induction l as [|[k' v'] l IH]; cbn; [discriminate|].
  destruct (key_eqb k k').
  - intros _. pose proof (cache_remove_le k l). lia.
  - intros H. apply IH in H. cbn. lia.
Qed.

Lemma removelast_shorter (A : Type) (l : list A) :
  List.length (removelast l) = Nat.pred (List.length l).
Proof.
  induction l as [|x l IH]; [reflexivity|].
  destruct l as [|y l]; [reflexivity|].
  cbn [removelast List.length] in *. rewrite IH. reflexivity.
Qed.

Section Capacity.

Variable client_count_tokens : string -> input -> exn + response.
Variable cache_size : Z.

Local Abbreviation fits := (within_capacity cache_size).
Local Abbreviation cached :=
  (_count_tokens_cached client_count_tokens cache_size).

Lemma cached_capacity text model_id st :
  fits st -> fits (snd (cached text model_id st)).
Proof.
  unfold within_capacity. intros H.
  unfold _count_tokens_cached, lru_cache.
  destruct (cache_size <=? 0) eqn:Hoff.
  - rewrite impl_cache. exact H.
  - apply Z.leb_gt in Hoff.
    destruct (cache_get (text, model_id) (cache st)) as [v|] eqn:G.
    + cbn. pose proof (cache_remove_lt _ _ _ G). lia.
    + match goal with |- context [_count_tokens_impl ?c ?t ?m ?s] =>
        pose proof (impl_cache c t m s) as C;
        destruct (_count_tokens_impl c t m s) as [[v| |] st1]
      end; cbn in C |- *; try (rewrite C; exact H).
      rewrite C, G. cbn [List.length].
      destruct (cache_size <=? Z.of_nat (List.length (cache st))) eqn:Full.
      * rewrite removelast_shorter. lia.
      * apply Z.leb_gt in Full. lia.
Qed.

Lemma counted_capacity text model_id st :
  fits st ->
  fits (snd (count_tokens client_count_tokens cache_size text model_id st)).
Proof.
  intros H. unfold count_tokens, _get_message_overhead, bind, ret.
  pose proof (cached_capacity text model_id st H) as H1.
  destruct (cached text model_id st) as [[r| |] st1]; cbn [snd] in H1 |- *;
    try exact H1.
  pose proof (cached_capacity "A" model_id st1 H1) as H2.
  destruct (cached "A" model_id st1) as [[o| |] st2]; exact H2.
Qed.

End Capacity.

(** On a counter in any state it can reach, the cache holds at most
    [cache_size] entries, and none when [cache_size] is not positive. *)
Theorem cache_stays_within_capacity
    (client : string -> input -> exn + response) (cache_size : Z)
    (st : counter) :
  reachable client cache_size st ->
  Z.of_nat (List.length (cache st)) <= Z.max 0 cache_size.
Proof.
  induction 1 as [|st text model_id _ IH|st fuel text mt model_id rm _ IH].
  - cbn. lia.
  - apply counted_capacity, IH.
  - apply truncate_invariant with (P := within_capacity cache_size);
      [|exact IH].
    intros t s. apply counted_capacity.
Qed.

Lemma cache_stays_within_capacity_witness :
  Z.of_nat
    (List.length
       (cache (snd (truncate Example.flat 3 1 Example.a62 11 Example.haiku
                      true fresh))))
  <= Z.max 0 3.
Proof.
  apply (cache_stays_within_capacity Example.flat 3).
  apply reach_truncate. apply reach_fresh.
Defined.

(** ** A loop that does not end *)

Section Stuck.

Local Abbreviation cpt := Example.ratio_62_310.
Local Abbreviation warm := Example.warm_62.

Lemma stuck_probe (s : search) (st : counter) :
  target_chars s = 1 \/ target_chars s = 2 ->
  cache st = warm ->
  probe Example.stuck 1000 Example.haiku
    (slice_to Example.a62 (target_chars s)) st
  = (Ok None,
     {| cache := cache st; hits := hits st; misses := misses st + 1;
        calls := calls st
                 ++ [(Example.haiku,
                      envelope (slice_to Example.a62 (target_chars s)))] |}).
Proof.
  intros Htarget Hcache.
  assert (Hpos : 0 < 1000) by lia.
  unfold probe, except_client_error, count_tokens, bind.
  rewrite (@cached_miss_fail Example.stuck 1000 Hpos
             (slice_to Example.a62 (target_chars s)) Example.haiku st
             (ClientError "ThrottlingException")).
  - reflexivity.
  - rewrite Hcache. destruct Htarget as [-> | ->]; vm_compute; reflexivity.
  - destruct Htarget as [-> | ->]; vm_compute; reflexivity.
Qed.

Lemma stuck_loop (fuel : nat) :
  forall s st,
    api_calls s = 1 ->
    target_chars s = 1 \/ target_chars s = 2 ->
    cache st = warm ->
    fst (adaptive_loop Example.stuck 1000 Example.a62 11 Example.haiku cpt
           fuel s st) = Diverge
    /\ List.length
         (calls (snd (adaptive_loop Example.stuck 1000 Example.a62 11
                        Example.haiku cpt fuel s st)))
       = (List.length (calls st) + fuel)%nat.
Proof.
  induction fuel as [|fuel IH]; intros s st Hcalls Htarget Hcache.
  - cbn. split; [reflexivity|lia].
  - assert (Estep :
      adaptive_loop Example.stuck 1000 Example.a62 11 Example.haiku cpt
        (S fuel) s st
      = adaptive_loop Example.stuck 1000 Example.a62 11 Example.haiku cpt
          fuel (retarget (Z.max (target_chars s - 10) 1) s)
          {| cache := cache st; hits := hits st; misses := misses st + 1;
             calls := calls st
                      ++ [(Example.haiku,
                           envelope (slice_to Example.a62
                                       (target_chars s)))] |}).
    { cbn [adaptive_loop]. rewrite Hcalls.
      change (1 <? 20) with true. cbv iota.
      unfold bind. rewrite (stuck_probe s st Htarget Hcache). reflexivity. }
    rewrite Estep.
    match goal with |- context [adaptive_loop _ _ _ _ _ _ fuel ?s1 ?st1] =>
      destruct (IH s1 st1) as [Hd Hl]
    end.
    + exact Hcalls.
    + left. cbn [target_chars retarget].
      destruct Htarget as [-> | ->]; reflexivity.
    + exact Hcache.
    + split; [exact Hd|]. rewrite Hl. cbn [calls].
      rewrite length_app. cbn. lia.
Qed.

End Stuck.

(** On the client [Example.stuck], which keeps throttling the prefixes of
    one and two characters, the loop of [truncate] never ends: whatever
    the fuel, the run is not over, and it has sent two requests plus one
    for every iteration. *)
Theorem truncate_spins_on_a_throttled_probe (fuel : nat) :
  fst (truncate Example.stuck 1000 fuel Example.a62 11 Example.haiku true
         fresh)
  = Diverge
  /\ List.length
       (calls (snd (truncate Example.stuck 1000 fuel Example.a62 11
                      Example.haiku true fresh)))
     = (2 + fuel)%nat.
Proof.
  assert (E1 : _count_tokens_cached Example.stuck 1000 Example.a62
                 Example.haiku fresh
               = (Ok 310,
                  {| cache := [((Example.a62, Example.haiku), 310)];
                     hits := 0; misses := 1;
                     calls := [(Example.haiku, envelope Example.a62)] |}))
    by (vm_compute; reflexivity).
  assert (E2 : _get_message_overhead Example.stuck 1000 Example.haiku
                 {| cache := [((Example.a62, Example.haiku), 310)];
                    hits := 0; misses := 1;
                    calls := [(Example.haiku, envelope Example.a62)] |}
               = (Ok 10,
                  {| cache := [(("A", Example.haiku), 11);
                               ((Example.a62, Example.haiku), 310)];
                     hits := 0; misses := 2;
                     calls := [(Example.haiku, envelope Example.a62);
                               (Example.haiku, envelope "A")] |}))
    by (vm_compute; reflexivity).
  assert (E3 : initial_estimate Example.a62 11 310
               = inr (Example.ratio_62_310, 2))
    by (vm_compute; reflexivity).
  unfold truncate, bind. rewrite E1, E2.
  change (Z.max 0 (310 - 10) <=? 11) with false. cbv iota.
  rewrite E3. cbn [lift ret].
  match goal with |- context [adaptive_loop _ _ _ _ _ ?c fuel ?s ?st] =>
    destruct (stuck_loop fuel s st) as [Hd Hl];
      [reflexivity|right; reflexivity|reflexivity|];
    destruct (adaptive_loop Example.stuck 1000 Example.a62 11 Example.haiku
                c fuel s st) as [r st3]
  end.
  cbn [fst snd] in Hd, Hl |- *. subst r. cbn [fst snd].
  split; [reflexivity|]. rewrite Hl. reflexivity.
Qed.

(** ** Calls of [count_tokens] one after the other *)

Section Again.

Variable client_count_tokens : string -> input -> exn + response.
Variable cache_size : Z.

Local Abbreviation cached :=
  (_count_tokens_cached client_count_tokens cache_size).
Local Abbreviation counted := (count_tokens client_count_tokens cache_size).

(** What a lookup that answers leaves at the head of the cache. *)
Lemma cached_ok_head text model_id st v st' :
  0 < cache_size ->
  cached text model_id st = (Ok v, st') ->
  exists rest, cache st' = ((text, model_id), v) :: rest.
Proof.
  intros Hpos E. unfold _count_tokens_cached, lru_cache in E.
  apply Z.leb_gt in Hpos. rewrite Hpos in E.
  destruct (cache_get (text, model_id) (cache st)) as [w|] eqn:G.
  - inversion E; subst. eexists; reflexivity.
  - match type of E with context [_count_tokens_impl ?c ?t ?m ?s] =>
      pose proof (impl_cache c t m s) as C;
      destruct (_count_tokens_impl c t m s) as [[w| |] st1]
    end; try discriminate E.
    cbn [snd cache] in C. rewrite C, G in E. inversion E; subst.
    eexists; reflexivity.
Qed.

(** With room for two entries, a lookup that answers keeps the entry
    that was at the head. *)
Lemma cached_keeps_head text model_id st v st' k0 v0 rest0 :
  2 <= cache_size ->
  cache st = (k0, v0) :: rest0 ->
  cached text model_id st = (Ok v, st') ->
  cache_get k0 (cache st') = Some v0
  /\ calls st' = calls st ++ match cache_get (text, model_id) (cache st) with
                             | Some _ => []
                             | None => [(model_id, envelope text)]
                             end.
Proof.
  intros Hsize Hc E. unfold _count_tokens_cached, lru_cache in E.
  assert (Hpos : (cache_size <=? 0) = false) by (apply Z.leb_gt; lia).
  rewrite Hpos in E.
  destruct (cache_get (text, model_id) (cache st)) as [w|] eqn:G.
  - inversion E; subst. cbn [cache calls]. rewrite app_nil_r.
    split; [|reflexivity]. cbn [cache_get].
    destruct (key_eqb k0 (text, model_id)) eqn:Ek.
    + apply key_eqb_eq in Ek. subst k0. rewrite Hc in G.
      cbn [cache_get] in G. rewrite key_eqb_refl in G. congruence.
    + rewrite cache_get_remove_other by exact Ek. rewrite Hc.
      cbn [cache_get]. rewrite key_eqb_refl. reflexivity.
  - assert (Ek : key_eqb k0 (text, model_id) = false).
    { apply key_eqb_neq. intros ->. rewrite Hc in G. cbn [cache_get] in G.
      rewrite key_eqb_refl in G. discriminate G. }
    unfold _count_tokens_impl, bind, lift, _format_input_for_model in E.
    destruct (supported model_id); cbn in E; [|discriminate E].
    destruct (client_count_tokens model_id (envelope text)) as [e|resp];
      [discriminate E|].
    cbn [cache hits misses calls] in E.
    rewrite G in E. inversion E; subst. clear E. cbn [cache calls].
    split; [|reflexivity]. cbn [cache_get]. rewrite Ek, Hc.
    destruct (cache_size <=? Z.of_nat _) eqn:Full.
    + apply Z.leb_le in Full.
      destruct rest0 as [|r rest']; [cbn in Full; lia|].
      cbn [removelast cache_get]. rewrite key_eqb_refl. reflexivity.
    + cbn [cache_get]. rewrite key_eqb_refl. reflexivity.
Qed.

Lemma counted_inv text model_id st c st1 :
  counted text model_id st = (Ok c, st1) ->
  exists r a sa,
    cached text model_id st = (Ok r, sa)
    /\ cached "A" model_id sa = (Ok a, st1)
    /\ c = Z.max 0 (r - (a - 1)).
Proof.
  unfold count_tokens, _get_message_overhead, bind, ret. intros E.
  destruct (cached text model_id st) as [[r| |] sa]; try discriminate E.
  destruct (cached "A" model_id sa) as [[a| |] sb] eqn:Ea;
    try discriminate E.
  inversion E; subst. exists r, a, sa. repeat split. exact Ea.
Qed.

End Again.

(** With [cache_size >= 2], a [count_tokens] call that has answered can
    be repeated at once for free: the same text on the same model gets
    the same answer from the cache, with two hits and no request. *)
Theorem count_tokens_again_sends_nothing
    (client : string -> input -> exn + response) (cache_size : Z)
    (text model_id : string) (st st1 : counter) (c : Z) :
  2 <= cache_size ->
  count_tokens client cache_size text model_id st = (Ok c, st1) ->
  fst (count_tokens client cache_size text model_id st1) = Ok c
  /\ calls (snd (count_tokens client cache_size text model_id st1))
     = calls st1
  /\ hits (snd (count_tokens client cache_size text model_id st1))
     = hits st1 + 2
  /\ misses (snd (count_tokens client cache_size text model_id st1))
     = misses st1.
Proof.
  intros Hsize E. assert (Hpos : 0 < cache_size) by lia.
  destruct (counted_inv _ _ _ _ _ _ _ E) as (r & a & sa & E1 & E2 & ->).
  destruct (cached_ok_head _ _ _ _ _ _ _ Hpos E1) as [rest1 H1].
  destruct (cached_ok_head _ _ _ _ _ _ _ Hpos E2) as [rest2 H2].
  destruct (cached_keeps_head _ _ _ _ _ _ _ _ _ _ Hsize H1 E2) as [G1 _].
  unfold count_tokens, _get_message_overhead, bind, ret.
  rewrite (cached_hit client Hpos text model_id st1 G1).
  rewrite (cached_hit client Hpos "A" model_id _ (v := a)).
  - cbn. repeat split; lia.
  - cbn [cache cache_get].
    destruct (key_eqb ("A", model_id) (text, model_id)) eqn:Ek.
    + apply key_eqb_eq in Ek. inversion Ek; subst text.
      rewrite H2 in G1. cbn [cache_get] in G1. rewrite key_eqb_refl in G1.
      congruence.
    + rewrite cache_get_remove_other by exact Ek. rewrite H2.
      cbn [cache_get]. rewrite key_eqb_refl. reflexivity.
Qed.

(** A request that the client refuses is in no sound cache: the call
    sends it, raises what the client raised, and stores nothing. *)
Lemma counted_refused
    (client : string -> input -> exn + response) (cache_size : Z)
    (text model_id : string) (st : counter) (e : exn) :
  cache_sound client st ->
  supported model_id = true ->
  client model_id (envelope text) = inl e ->
  count_tokens client cache_size text model_id st
  = (Raise e,
     {| cache := cache st; hits := hits st; misses := misses st + 1;
        calls := calls st ++ [(model_id, envelope text)] |}).
Proof.
  intros Hs Hsup He.
  assert (R : raw_count client text model_id = inl e).
  { unfold raw_count, _format_input_for_model. rewrite Hsup, He.
    reflexivity. }
  assert (G : cache_get (text, model_id) (cache st) = None).
  { destruct (cache_get (text, model_id) (cache st)) as [v|] eqn:G;
      [|reflexivity].
    apply Hs in G. cbn [fst snd] in G. congruence. }
  unfold count_tokens, bind.
  destruct (Z.leb_spec cache_size 0) as [Hle|Hgt].
  - unfold _count_tokens_cached, lru_cache.
    apply Z.leb_le in Hle. rewrite Hle.
    unfold _count_tokens_impl, bind, lift, _format_input_for_model.
    rewrite Hsup. cbn. rewrite He. reflexivity.
  - rewrite (cached_miss_fail client Hgt text model_id st G R).
    rewrite Hsup. reflexivity.
Qed.

(** On a counter in any state it can reach, a text that the service
    refuses with a [ClientError] is refused at every call: the request is
    sent, the [ClientError] comes back unchanged, and nothing is stored,
    so that the cache is what it was and the next call sends the request
    again. *)
Theorem count_tokens_failure_is_not_cached
    (client : string -> input -> exn + response) (cache_size : Z)
    (text model_id : string) (st : counter) (code : string) :
  reachable client cache_size st ->
  supported model_id = true ->
  client model_id (envelope text) = inl (ClientError code) ->
  let failed (s : counter) :=
    {| cache := cache s; hits := hits s; misses := misses s + 1;
       calls := calls s ++ [(model_id, envelope text)] |} in
  count_tokens client cache_size text model_id st
  = (Raise (ClientError code), failed st)
  /\ count_tokens client cache_size text model_id (failed st)
     = (Raise (ClientError code), failed (failed st)).
Proof.
  intros Hreach Hsup He failed. apply reachable_sound in Hreach.
  split; apply counted_refused; assumption.
Qed.

(** With [cache_size <= 0] nothing is cached: every [count_tokens] call
    that is answered sends the request of the text and the request of the
    probe, in any state, and leaves the cache as it was. *)
Theorem count_tokens_without_cache
    (client : string -> input -> exn + response) (cache_size : Z)
    (text model_id : string) (st : counter) (r a : Z) :
  cache_size <= 0 ->
  raw_count client text model_id = inr r ->
  raw_count client "A" model_id = inr a ->
  count_tokens client cache_size text model_id st
  = (Ok (Z.max 0 (r - (a - 1))),
     {| cache := cache st; hits := hits st; misses := misses st + 1 + 1;
        calls := calls st ++ [(model_id, envelope text)]
                 ++ [(model_id, envelope "A")] |}).
Proof.
  intros Hoff R RA.
  unfold count_tokens, _get_message_overhead, _count_tokens_cached,
    lru_cache, bind, ret.
  apply Z.leb_le in Hoff. rewrite Hoff.
  rewrite (impl_ok client model_id text _ R). cbn [cache hits misses calls].
  rewrite (impl_ok client model_id "A" _ RA). cbn [cache hits misses calls].
  rewrite <- app_assoc. reflexivity.
Qed.

(** When the responses of the service carry no [inputTokens], the raw
    count of every text is the default 0 and the overhead is -1: on a
    counter in any state it can reach, [count_tokens] answers 1 for every
    text, and [truncate] returns the text unchanged for a target of 1 or
    more and raises [ZeroDivisionError] below. *)
Theorem responses_without_input_tokens
    (client : string -> input -> exn + response) (cache_size : Z)
    (fuel : nat) (text : string) (max_tokens : Z) (model_id : string)
    (return_metadata : bool) (st : counter) :
  reachable client cache_size st ->
  supported model_id = true ->
  (forall i, client model_id i = inr {| Api.inputTokens := None |}) ->
  fst (count_tokens client cache_size text model_id st) = Ok 1
  /\ fst (truncate client cache_size fuel text max_tokens model_id
            return_metadata st)
     = if 1 <=? max_tokens then Ok (respond return_metadata text 1 1)
       else Raise ZeroDivisionError.
Proof.
  intros Hreach Hsup Hnone. apply reachable_sound in Hreach.
  assert (R : forall t, raw_count client t model_id = inr 0).
  { intros t. unfold raw_count, _format_input_for_model.
    rewrite Hsup, Hnone. reflexivity. }
  assert (Hc : fst (count_tokens client cache_size text model_id st) = Ok 1).
  { rewrite counted_fst by exact Hreach. rewrite !R. reflexivity. }
  split; [exact Hc|].
  destruct (1 <=? max_tokens) eqn:Hfit.
  - apply Z.leb_le in Hfit.
    destruct (count_tokens client cache_size text model_id st)
      as [c st1] eqn:E.
    cbn [fst] in Hc. subst c.
    rewrite (@truncate_fast_path client cache_size fuel text max_tokens
               model_id return_metadata st st1 1 E Hfit).
    reflexivity.
  - unfold truncate, bind.
    pose proof (@cached_fst client cache_size text model_id st Hreach)
      as F1.
    pose proof (@cached_sound client cache_size text model_id st Hreach)
      as Hs1.
    destruct (_count_tokens_cached client cache_size text model_id st)
      as [[r| |] st1]; rewrite R in F1; try discriminate F1.
    inversion F1; subst r. cbn [snd] in Hs1.
    pose proof (@overhead_fst client cache_size model_id st1 Hs1) as F2.
    destruct (_get_message_overhead client cache_size model_id st1)
      as [[o| |] st2]; rewrite R in F2; try discriminate F2.
    inversion F2; subst o. cbn [fst snd].
    change (Z.max 0 (0 - -1)) with 1. rewrite Hfit.
    unfold initial_estimate, PyFloat.truediv. cbn. reflexivity.
Qed.

(** ** Edge cases of [truncate] *)

(** On a counter in any state it can reach, [truncate] raises
    [ZeroDivisionError] when the text is over the target and either is
    empty or has a raw count of 0: the estimation divides by the length of
    the text and by its raw count. *)
Theorem truncate_divides_by_zero
    (client : string -> input -> exn + response) (cache_size : Z)
    (fuel : nat) (text : string) (max_tokens : Z) (model_id : string)
    (return_metadata : bool) (st : counter) (r a : Z) :
  reachable client cache_size st ->
  raw_count client text model_id = inr r ->
  raw_count client "A" model_id = inr a ->
  max_tokens < Z.max 0 (r - (a - 1)) ->
  text = "" \/ r = 0 ->
  fst (truncate client cache_size fuel text max_tokens model_id
         return_metadata st)
  = Raise ZeroDivisionError.
Proof.
  intros Hreach R RA Hover Hzero. apply reachable_sound in Hreach.
  unfold truncate, bind.
  pose proof (@cached_fst client cache_size text model_id st Hreach) as F1.
  pose proof (@cached_sound client cache_size text model_id st Hreach)
    as Hs1.
  destruct (_count_tokens_cached client cache_size text model_id st)
    as [[r'| |] st1]; rewrite R in F1; try discriminate F1.
  inversion F1; subst r'. cbn [snd] in Hs1.
  pose proof (@overhead_fst client cache_size model_id st1 Hs1) as F2.
  destruct (_get_message_overhead client cache_size model_id st1)
    as [[o| |] st2]; rewrite RA in F2; try discriminate F2.
  inversion F2; subst o. cbn [fst snd].
  apply Z.leb_gt in Hover. rewrite Hover.
  assert (Hest : initial_estimate text max_tokens r = inl ZeroDivisionError).
  { unfold initial_estimate, PyFloat.truediv.
    destruct (r =? 0) eqn:Hr; [reflexivity|].
    destruct Hzero as [-> | ->]; [reflexivity|discriminate Hr]. }
  rewrite Hest. reflexivity.
Qed.

(** On a counter in any state it can reach, a target below 0 leaves
    nothing: whatever [truncate] returns then is the empty text, with a
    [final_token_count] of 0. *)
Theorem truncate_negative_target
    (client : string -> input -> exn + response) (cache_size : Z)
    (fuel : nat) (text : string) (max_tokens : Z) (model_id : string)
    (st st' : counter) (t : string) (meta : metadata) :
  reachable client cache_size st ->
  max_tokens < 0 ->
  truncate client cache_size fuel text max_tokens model_id true st
    = (Ok (TextMeta t meta), st') ->
  t = "" /\ md_final_token_count meta = 0.
Proof.
  intros Hreach Hneg E. apply reachable_sound in Hreach.
  destruct (truncate_hoare client cache_size text max_tokens model_id fuel
              true st _ st' Hreach E)
    as (_ & t' & calls' & final & Hr & _ & [_ [[Hc Hle]|[Hempty Hz]]]);
    inversion Hr; subst; [|split; reflexivity].
  unfold corrected_count in Hc.
  destruct (raw_count client t' model_id); [discriminate Hc|].
  destruct (raw_count client "A" model_id); [discriminate Hc|].
  inversion Hc. lia.
Qed.

(** ** Termination of [truncate] *)

Section Terminates.

Variable client_count_tokens : string -> input -> exn + response.
Variable cache_size : Z.
Variables (text : string) (max_tokens : Z) (model_id : string).

Local Abbreviation impl := (_count_tokens_impl client_count_tokens).
Local Abbreviation cached :=
  (_count_tokens_cached client_count_tokens cache_size).
Local Abbreviation counted := (count_tokens client_count_tokens cache_size).
Local Abbreviation probed := (probe client_count_tokens cache_size model_id).

(** What a lookup raises is the [ValueError] of an unsupported model or
    what the client raised; a lookup always ends. *)
Lemma cached_outcome t st :
  match fst (cached t model_id st) with
  | Ok _ => True
  | Raise e => (exists msg, e = ValueError msg)
               \/ (exists i, client_count_tokens model_id i = inl e)
  | Diverge => False
  end.
Proof.
  assert (Himpl : forall s,
            match fst (impl t model_id s) with
            | Ok _ => True
            | Raise e => (exists msg, e = ValueError msg)
                         \/ (exists i, client_count_tokens model_id i = inl e)
            | Diverge => False
            end).
  { intros s. unfold _count_tokens_impl, bind, lift, _format_input_for_model.
    destruct (supported model_id); cbn.
    - destruct (client_count_tokens model_id (envelope t)) as [e|resp] eqn:E;
        cbn; [right; eexists; exact E|exact I].
    - left. eexists; reflexivity. }
  unfold _count_tokens_cached, lru_cache.
  destruct (cache_size <=? 0); [apply Himpl|].
  destruct (cache_get (t, model_id) (cache st)); [exact I|].
  match goal with |- context [impl t model_id ?s] =>
    specialize (Himpl s); destruct (impl t model_id s) as [[v| |] s1]
  end; exact Himpl.
Qed.

Lemma counted_outcome t st :
  match fst (counted t model_id st) with
  | Ok _ => True
  | Raise e => (exists msg, e = ValueError msg)
               \/ (exists i, client_count_tokens model_id i = inl e)
  | Diverge => False
  end.
Proof.
  unfold count_tokens, _get_message_overhead, bind, ret.
  pose proof (cached_outcome t st) as H1.
  destruct (cached t model_id st) as [[r| |] s1]; cbn [fst] in H1 |- *;
    try exact H1.
  pose proof (cached_outcome "A" s1) as H2.
  destruct (cached "A" model_id s1) as [[a| |] s2]; cbn [fst] in H2 |- *;
    exact H2.
Qed.

Lemma probe_ends t st : fst (probed t st) <> Diverge.
Proof.
  unfold probe, except_client_error, bind, ret.
  pose proof (counted_outcome t st) as H.
  destruct (counted t model_id st) as [[c|e|] s1]; cbn [fst] in H |- *;
    [discriminate| |contradiction].
  destruct e; discriminate.
Qed.

Lemma widen_scan_ends idx s st :
  fst (widen_scan client_count_tokens cache_size text max_tokens model_id
         idx s st) <> Diverge.
Proof.
  revert s st. induction idx as [|i rest IH]; intros s st; cbn [widen_scan];
    [discriminate|].
  unfold bind. pose proof (probe_ends (slice_to text (i + 1)) st) as H.
  destruct (probed (slice_to text (i + 1)) st) as [[[c|]|e|] s1];
    cbn [fst] in H |- *; try discriminate; [|congruence].
  destruct (c <=? max_tokens); [|discriminate].
  destruct (c =? max_tokens); [discriminate|apply IH].
Qed.

Lemma shrink_scan_ends idx s st :
  fst (shrink_scan client_count_tokens cache_size text max_tokens model_id
         idx s st) <> Diverge.
Proof.
  revert s st. induction idx as [|i rest IH]; intros s st; cbn [shrink_scan];
    [discriminate|].
  unfold bind. pose proof (probe_ends (slice_to text i) st) as H.
  destruct (probed (slice_to text i) st) as [[[c|]|e|] s1];
    cbn [fst] in H |- *; try discriminate; [|congruence].
  destruct (c <=? max_tokens); [|apply IH].
  destruct (c =? max_tokens); discriminate.
Qed.

(** One iteration of the loop ends, and when the loop goes on the
    iteration has counted one call. *)
Lemma adapt_ends cpt test_text count s st :
  match fst (adapt client_count_tokens cache_size text max_tokens model_id
               cpt test_text count s st) with
  | Ok (inr s') => api_calls s' = api_calls s + 1
  | Ok (inl _) | Raise _ => True
  | Diverge => False
  end.
Proof.
  unfold adapt.
  destruct (count =? max_tokens); [exact I|].
  destruct (count <? max_tokens).
  - destruct (0 <? max_tokens - count); [|reflexivity].
    unfold bind, lift.
    destruct (PyFloat.scale (max_tokens - count) cpt) as [e|extra];
      cbn [raise ret fst]; [exact I|].
    destruct (extra <=? 5); [|reflexivity].
    match goal with |- context [widen_scan ?c ?z ?t ?m ?i ?x ?y ?s0] =>
      pose proof (widen_scan_ends x y s0) as W;
      destruct (widen_scan c z t m i x y s0) as [[s'| |] s1]
    end; cbn [fst] in W |- *; [exact I|exact I|congruence].
  - unfold bind, lift.
    destruct (PyFloat.scale (count - max_tokens) cpt) as [e|cut];
      cbn [raise ret fst]; [exact I|].
    destruct (cut <=? 5); [|reflexivity].
    match goal with |- context [shrink_scan ?c ?z ?t ?m ?i ?x ?y ?s0] =>
      pose proof (shrink_scan_ends x y s0) as W;
      destruct (shrink_scan c z t m i x y s0) as [[s'| |] s1]
    end; cbn [fst] in W |- *; [exact I|exact I|congruence].
Qed.

Lemma exhaustive_scan_ends idx v st :
  fst (exhaustive_scan client_count_tokens cache_size text max_tokens
         model_id idx v st) <> Diverge.
Proof.
  revert v st. induction idx as [|i rest IH]; intros v st;
    cbn [exhaustive_scan]; [discriminate|].
  destruct (20 <=? v_api_calls v); [discriminate|].
  unfold bind. pose proof (counted_outcome (slice_to text i) st) as H.
  destruct (counted (slice_to text i) model_id st) as [[c|e|] s1];
    cbn [fst] in H |- *; [|discriminate|contradiction].
  destruct (c =? max_tokens); [discriminate|].
  destruct (c <? max_tokens); apply IH.
Qed.

Lemma finalize_ends s st :
  fst (finalize client_count_tokens cache_size text max_tokens model_id
         s st) <> Diverge.
Proof.
  unfold finalize.
  destruct (negb (best_text s =? "")%string); [|discriminate].
  unfold bind. pose proof (counted_outcome (best_text s) st) as H.
  destruct (counted (best_text s) model_id st) as [[c|e|] s1];
    cbn [fst] in H |- *; [|discriminate|contradiction].
  destruct (negb (c =? max_tokens) && (api_calls s + 1 <? 20));
    [apply exhaustive_scan_ends|discriminate].
Qed.

Hypothesis no_client_error :
  forall i code, client_count_tokens model_id i <> inl (ClientError code).

(** Without [ClientError] the handler of the probe never takes over. *)
Lemma probe_answers t st st' : probed t st <> (Ok None, st').
Proof.
  unfold probe, except_client_error, bind, ret.
  pose proof (counted_outcome t st) as H.
  destruct (counted t model_id st) as [[c|e|] s1]; cbn [fst] in H;
    try discriminate.
  destruct e; try discriminate.
  destruct H as [[msg H]|[i H]]; [discriminate H|].
  apply no_client_error in H. contradiction.
Qed.

Lemma adaptive_loop_ends cpt fuel s st :
  Z.max 1 (21 - api_calls s) <= Z.of_nat fuel ->
  fst (adaptive_loop client_count_tokens cache_size text max_tokens
         model_id cpt fuel s st) <> Diverge.
Proof.
  revert s st. induction fuel as [|fuel IH]; intros s st Hfuel; [lia|].
  cbn [adaptive_loop]. destruct (api_calls s <? 20) eqn:Hlt; [|discriminate].
  apply Z.ltb_lt in Hlt. unfold bind.
  pose proof (probe_ends (slice_to text (target_chars s)) st) as Hp.
  destruct (probed (slice_to text (target_chars s)) st)
    as [[[c|]|e|] s1] eqn:Ep; cbn [fst] in Hp |- *; try discriminate;
    [|exfalso; exact (probe_answers _ _ _ Ep)|congruence].
  pose proof (adapt_ends cpt (slice_to text (target_chars s)) c s s1) as Ha.
  destruct (adapt _ _ _ _ _ _ _ _ _ s1) as [[[s'|s']|e|] s2];
    cbn [fst] in Ha |- *; try discriminate; [|contradiction].
  apply IH. lia.
Qed.

End Terminates.

(** [truncate] ends when the client raises no [ClientError]: every
    iteration of the loop then counts a call, and 20 iterations are
    enough, in any state of the counter. *)
Theorem truncate_ends_without_client_errors
    (client : string -> input -> exn + response) (cache_size : Z)
    (fuel : nat) (text : string) (max_tokens : Z) (model_id : string)
    (return_metadata : bool) (st : counter) :
  (forall i code, client model_id i <> inl (ClientError code)) ->
  (20 <= fuel)%nat ->
  fst (truncate client cache_size fuel text max_tokens model_id
         return_metadata st) <> Diverge.
Proof.
  intros Hclient Hfuel. unfold truncate, bind.
  pose proof (cached_outcome client cache_size model_id text st) as H1.
  destruct (_count_tokens_cached client cache_size text model_id st)
    as [[r|e|] s1]; cbn [fst] in H1 |- *; [|discriminate|contradiction].
  unfold _get_message_overhead, bind.
  pose proof (cached_outcome client cache_size model_id "A" s1) as H2.
  destruct (_count_tokens_cached client cache_size "A" model_id s1)
    as [[a|e|] s2]; cbn [fst ret] in H2 |- *; [|discriminate|contradiction].
  destruct (Z.max 0 (r - (a - 1)) <=? max_tokens); [discriminate|].
  destruct (initial_estimate text max_tokens r) as [e|[cpt target]];
    cbn [lift raise ret fst]; [discriminate|].
  match goal with |- context [adaptive_loop ?c ?z ?t ?m ?i ?f ?n ?x ?s0] =>
    pose proof (adaptive_loop_ends c z t m i Hclient f n x s0) as L;
    destruct (adaptive_loop c z t m i f n x s0) as [[s|e|] s3]
  end; cbn [fst api_calls] in L |- *;
    [|discriminate|exfalso; apply L; [lia|reflexivity]].
  pose proof (finalize_ends client cache_size text max_tokens model_id s s3)
    as Fz.
  destruct (finalize client cache_size text max_tokens model_id s s3)
    as [[v|e|] s4]; cbn [fst] in Fz |- *; [discriminate|discriminate|congruence].
Qed.

(** ** The requests a [truncate] call sends *)

Section Requests.

Variable client_count_tokens : string -> input -> exn + response.
Variable cache_size : Z.
Variables (text : string) (max_tokens : Z) (model_id : string).

Local Abbreviation cached :=
  (_count_tokens_cached client_count_tokens cache_size).
Local Abbreviation counted := (count_tokens client_count_tokens cache_size).
Local Abbreviation probed := (probe client_count_tokens cache_size model_id).
Local Abbreviation requests st := (Z.of_nat (List.length (calls st))).

(** A lookup sends one request at most, and withdraws none. *)
Lemma cached_requests t st :
  requests st <= requests (snd (cached t model_id st)) <= requests st + 1.
Proof.
  assert (Himpl : forall s,
            requests s
            <= requests (snd (_count_tokens_impl client_count_tokens t
                                model_id s))
            <= requests s + 1).
  { intros s. unfold _count_tokens_impl, bind, lift.
    destruct (_format_input_for_model t model_id) as [e|i];
      cbn [raise ret snd]; [lia|].
    destruct (client_count_tokens model_id i); cbn [snd calls];
      rewrite length_app; cbn [List.length]; lia. }
  unfold _count_tokens_cached, lru_cache.
  destruct (cache_size <=? 0);
    [|destruct (cache_get (t, model_id) (cache st)); [cbn; lia|]];
    match goal with |- context [_count_tokens_impl ?c t model_id ?s] =>
      specialize (Himpl s); cbn [calls] in Himpl;
      destruct (_count_tokens_impl c t model_id s) as [[v| |] s1]
    end; exact Himpl.
Qed.

(** In any state a [count_tokens] call sends two requests at most. *)
Lemma counted_requests t st :
  requests (snd (counted t model_id st)) <= requests st + 2.
Proof.
  unfold count_tokens, _get_message_overhead, bind, ret.
  pose proof (cached_requests t st) as H1.
  destruct (cached t model_id st) as [[r| |] s1]; cbn [snd] in H1 |- *;
    try lia.
  pose proof (cached_requests "A" s1) as H2.
  destruct (cached "A" model_id s1) as [[a| |] s2]; cbn [snd] in H2 |- *;
    lia.
Qed.

(** With room for two entries and the probe at the head of the cache, a
    [count_tokens] call that answers has sent one request at most and
    leaves the probe at the head. *)
Lemma counted_requests_probe_first t st c st' :
  2 <= cache_size ->
  (exists v rest, cache st = (("A", model_id), v) :: rest) ->
  counted t model_id st = (Ok c, st') ->
  (exists v rest, cache st' = (("A", model_id), v) :: rest)
  /\ requests st' <= requests st + 1.
Proof.
  intros Hsize (v0 & rest0 & Hc) E. assert (Hpos : 0 < cache_size) by lia.
  destruct (counted_inv _ _ _ _ _ _ _ E) as (r & a & sa & E1 & E2 & _).
  destruct (cached_keeps_head _ _ _ _ _ _ _ _ _ _ Hsize Hc E1) as [G _].
  pose proof (cached_requests t st) as H1. rewrite E1 in H1. cbn [snd] in H1.
  rewrite (cached_hit client_count_tokens Hpos "A" model_id sa G) in E2.
  inversion E2; subst. cbn [cache calls]. split; [|lia].
  eexists; eexists; reflexivity.
Qed.

Section Spent.

(** [J] holds of the states between two [count_tokens] calls, each of
    which sends [k] requests at most. *)
Variable J : counter -> Prop.
Variable k : Z.
Hypothesis J_counted :
  forall t st c st', J st -> counted t model_id st = (Ok c, st') ->
                     J st' /\ requests st' <= requests st + k.
Hypothesis no_client_error :
  forall i code, client_count_tokens model_id i <> inl (ClientError code).

Local Abbreviation within base n st := (J st /\ requests st <= base + k * n).

Lemma probe_within base t n st r st' :
  within base n st -> probed t st = (Ok r, st') ->
  exists c, r = Some c /\ within base (n + 1) st'.
Proof.
  intros [HJ Hb] E. destruct r as [c|].
  - exists c. split; [reflexivity|].
    unfold probe, except_client_error, bind, ret in E.
    destruct (counted t model_id st) as [[c'|e|] s1] eqn:Ec;
      [|destruct e; discriminate E|discriminate E].
    inversion E; subst. destruct (J_counted _ _ _ _ HJ Ec) as [HJ' Hk].
    split; [exact HJ'|lia].
  - exfalso.
    exact (probe_answers client_count_tokens cache_size model_id
             no_client_error _ _ _ E).
Qed.

Lemma widen_scan_within base idx s :
  hoare (fun st => within base (api_calls s) st)
    (widen_scan client_count_tokens cache_size text max_tokens model_id
       idx s)
    (fun s' st => within base (api_calls s') st).
Proof.
  revert s. induction idx as [|i rest IH]; intros s st s' st' H E.
  - inversion E; subst. exact H.
  - cbn [widen_scan] in E. unfold bind in E.
    destruct (probed (slice_to text (i + 1)) st) as [[r| |] s1] eqn:Ep;
      try discriminate E.
    destruct (probe_within _ _ _ _ _ _ H Ep) as (c & -> & H1).
    destruct (c <=? max_tokens).
    + destruct (c =? max_tokens).
      * inversion E; subst. exact H1.
      * refine (IH _ s1 s' st' _ E). exact H1.
    + inversion E; subst. exact H1.
Qed.

Lemma shrink_scan_within base idx s :
  hoare (fun st => within base (api_calls s) st)
    (shrink_scan client_count_tokens cache_size text max_tokens model_id
       idx s)
    (fun s' st => within base (api_calls s') st).
Proof.
  revert s. induction idx as [|i rest IH]; intros s st s' st' H E.
  - inversion E; subst. exact H.
  - cbn [shrink_scan] in E. unfold bind in E.
    destruct (probed (slice_to text i) st) as [[r| |] s1] eqn:Ep;
      try discriminate E.
    destruct (probe_within _ _ _ _ _ _ H Ep) as (c & -> & H1).
    destruct (c <=? max_tokens).
    + destruct (c =? max_tokens); inversion E; subst; exact H1.
    + refine (IH _ s1 s' st' _ E). exact H1.
Qed.

Lemma adapt_within base cpt test_text count s :
  hoare (fun st => within base (api_calls s + 1) st)
    (adapt client_count_tokens cache_size text max_tokens model_id cpt
       test_text count s)
    (fun next st =>
       match next with
       | inl s' | inr s' => within base (api_calls s') st
       end).
Proof.
  intros st next st' H E. unfold adapt in E.
  destruct (count =? max_tokens); [inversion E; subst; exact H|].
  destruct (count <? max_tokens).
  - destruct (0 <? max_tokens - count); [|inversion E; subst; exact H].
    unfold bind, lift in E.
    destruct (PyFloat.scale (max_tokens - count) cpt) as [e|extra];
      cbn [raise ret] in E; [discriminate E|].
    destruct (extra <=? 5); [|inversion E; subst; exact H].
    match type of E with context [widen_scan ?c ?z ?t ?m ?i ?x ?y ?s0] =>
      destruct (widen_scan c z t m i x y s0) as [[s'| |] s1] eqn:W
    end; try discriminate E.
    inversion E; subst.
    refine (widen_scan_within base _ _ _ _ _ _ W). exact H.
  - unfold bind, lift in E.
    destruct (PyFloat.scale (count - max_tokens) cpt) as [e|cut];
      cbn [raise ret] in E; [discriminate E|].
    destruct (cut <=? 5); [|inversion E; subst; exact H].
    match type of E with context [shrink_scan ?c ?z ?t ?m ?i ?x ?y ?s0] =>
      destruct (shrink_scan c z t m i x y s0) as [[s'| |] s1] eqn:W
    end; try discriminate E.
    inversion E; subst.
    refine (shrink_scan_within base _ _ _ _ _ _ W). exact H.
Qed.

Lemma adaptive_loop_within base cpt fuel s :
  hoare (fun st => within base (api_calls s) st)
    (adaptive_loop client_count_tokens cache_size text max_tokens model_id
       cpt fuel s)
    (fun s' st => within base (api_calls s') st).
Proof.
  revert s. induction fuel as [|fuel IH]; intros s st s' st' H E;
    [discriminate E|].
  cbn [adaptive_loop] in E.
  destruct (api_calls s <? 20); [|inversion E; subst; exact H].
  unfold bind in E.
  destruct (probed (slice_to text (target_chars s)) st) as [[r| |] s1]
    eqn:Ep; try discriminate E.
  destruct (probe_within _ _ _ _ _ _ H Ep) as (c & -> & H1).
  destruct (adapt _ _ _ _ _ _ _ _ _ s1) as [[next| |] s2] eqn:Ea;
    try discriminate E.
  pose proof (adapt_within base _ _ _ _ _ _ _ H1 Ea) as H2.
  destruct next as [s3|s3].
  - inversion E; subst. exact H2.
  - refine (IH _ s2 s' st' _ E). exact H2.
Qed.

Lemma exhaustive_scan_within base idx v :
  hoare (fun st => within base (v_api_calls v) st)
    (exhaustive_scan client_count_tokens cache_size text max_tokens
       model_id idx v)
    (fun v' st => within base (v_api_calls v') st).
Proof.
  revert v. induction idx as [|i rest IH]; intros v st v' st' H E.
  - inversion E; subst. exact H.
  - cbn [exhaustive_scan] in E.
    destruct (20 <=? v_api_calls v); [inversion E; subst; exact H|].
    unfold bind in E.
    destruct (counted (slice_to text i) model_id st) as [[c| |] s1] eqn:Ec;
      try discriminate E.
    destruct H as [HJ Hb].
    destruct (J_counted _ _ _ _ HJ Ec) as [HJ' Hk].
    assert (H1 : within base (v_api_calls v + 1) s1) by (split; [exact HJ'|lia]).
    destruct (c =? max_tokens); [inversion E; subst; exact H1|].
    destruct (c <? max_tokens);
      refine (IH _ s1 v' st' _ E); exact H1.
Qed.

Lemma finalize_within base s :
  hoare (fun st => within base (api_calls s) st)
    (finalize client_count_tokens cache_size text max_tokens model_id s)
    (fun v st => within base (v_api_calls v) st).
Proof.
  intros st v st' H E. unfold finalize in E.
  destruct (negb (best_text s =? "")%string); [|inversion E; subst; exact H].
  unfold bind in E.
  destruct (counted (best_text s) model_id st) as [[c| |] s1] eqn:Ec;
    try discriminate E.
  destruct H as [HJ Hb].
  destruct (J_counted _ _ _ _ HJ Ec) as [HJ' Hk].
  assert (H1 : within base (api_calls s + 1) s1) by (split; [exact HJ'|lia]).
  destruct (negb (c =? max_tokens) && (api_calls s + 1 <? 20)).
  - refine (exhaustive_scan_within base _ _ _ _ _ _ E). exact H1.
  - inversion E; subst. exact H1.
Qed.

Hypothesis J_probe :
  forall st a st', cached "A" model_id st = (Ok a, st') -> J st'.

Lemma truncate_within fuel return_metadata st r st' :
  truncate client_count_tokens cache_size fuel text max_tokens model_id
    return_metadata st = (Ok r, st') ->
  exists t n final,
    r = respond return_metadata t n final
    /\ requests st' <= requests st + 2 + k * (n - 1).
Proof.
  intros E. unfold truncate, bind in E.
  pose proof (cached_requests text st) as R1.
  destruct (cached text model_id st) as [[raw| |] s1];
    try discriminate E. cbn [snd] in R1.
  unfold _get_message_overhead, bind in E.
  pose proof (cached_requests "A" s1) as R2.
  destruct (cached "A" model_id s1) as [[a| |] s2] eqn:Ea;
    try discriminate E. cbn [snd ret] in R2, E.
  destruct (Z.max 0 (raw - (a - 1)) <=? max_tokens).
  - inversion E; subst. exists text, 1, (Z.max 0 (raw - (a - 1))).
    split; [reflexivity|]. lia.
  - destruct (initial_estimate text max_tokens raw) as [e|[cpt target]];
      cbn [lift raise ret] in E; [discriminate E|].
    destruct (adaptive_loop _ _ _ _ _ _ _ _ s2) as [[s| |] s3] eqn:L;
      try discriminate E.
    assert (H2 : within (requests st + 2 - k) 1 s2).
    { split; [exact (J_probe _ _ _ Ea)|lia]. }
    assert (H3 : within (requests st + 2 - k) (api_calls s) s3).
    { refine (adaptive_loop_within _ _ _ _ _ _ _ _ L). exact H2. }
    destruct (finalize _ _ _ _ _ s s3) as [[v| |] s4] eqn:Fz;
      try discriminate E.
    pose proof (finalize_within _ _ _ _ _ H3 Fz) as [_ H4].
    inversion E; subst.
    exists (v_best_text v), (v_api_calls v), (final_token_count v).
    split; [reflexivity|]. lia.
Qed.

End Spent.

End Requests.

(** When the client raises no [ClientError], the [api_calls] that
    [truncate] reports bounds what it has sent, in any state of the
    counter: two requests at most for each call reported and, with
    [cache_size >= 2], one request for each call reported and one for the
    probe. *)
Theorem truncate_requests_within_api_calls
    (client : string -> input -> exn + response) (cache_size : Z)
    (fuel : nat) (text : string) (max_tokens : Z) (model_id : string)
    (st st' : counter) (t : string) (meta : metadata) :
  (forall i code, client model_id i <> inl (ClientError code)) ->
  truncate client cache_size fuel text max_tokens model_id true st
    = (Ok (TextMeta t meta), st') ->
  Z.of_nat (List.length (calls st'))
  <= Z.of_nat (List.length (calls st)) + 2 * md_api_calls meta
  /\ (2 <= cache_size ->
      Z.of_nat (List.length (calls st'))
      <= Z.of_nat (List.length (calls st)) + md_api_calls meta + 1).
Proof.
  intros Hclient E. split; [|intros Hsize].
  - assert (Hcount : forall t0 s c s', True ->
              count_tokens client cache_size t0 model_id s = (Ok c, s') ->
              True /\ Z.of_nat (List.length (calls s'))
                      <= Z.of_nat (List.length (calls s)) + 2).
    { intros t0 s c s' _ Ec. split; [exact I|].
      pose proof (counted_requests client cache_size model_id t0 s) as H.
      rewrite Ec in H. exact H. }
    destruct (truncate_within client cache_size text max_tokens model_id
                (fun _ => True) 2 Hcount Hclient (fun _ _ _ _ => I)
                fuel true st _ st' E)
      as (t' & n & final & Hr & Hb).
    inversion Hr; subst. cbn [md_api_calls]. lia.
  - assert (Hprobe : forall s a s',
              _count_tokens_cached client cache_size "A" model_id s
              = (Ok a, s') ->
              exists v rest, cache s' = (("A", model_id), v) :: rest).
    { intros s a s' Ea. exists a.
      apply (cached_ok_head client cache_size "A" model_id s a s');
        [lia|exact Ea]. }
    destruct (truncate_within client cache_size text max_tokens model_id
                (fun s => exists v rest,
                     cache s = (("A", model_id), v) :: rest) 1
                (fun t0 s c s' HJ Ec =>
                   counted_requests_probe_first client cache_size model_id
                     t0 s c s' Hsize HJ Ec)
                Hclient Hprobe fuel true st _ st' E)
      as (t' & n & final & Hr & Hb).
    inversion Hr; subst. cbn [md_api_calls]. lia.
Qed.

(** ** Divisions that cannot overflow *)

Lemma digits2_pos_size (p : positive) : digits2_pos p = Pos.size p.
Proof.
  induction p as [p IH|p IH|]; cbn [digits2_pos Pos.size];
    [rewrite IH|rewrite IH|]; reflexivity.
Qed.

Lemma Zdigits2_gt (x : Z) : 0 <= x -> x < 2 ^ Zdigits2 x.
Proof.
  destruct x as [|p|p]; intros H; [cbn; lia| |lia].
  cbn [Zdigits2]. rewrite digits2_pos_size. pose proof (Pos.size_gt p) as G.
  apply Pos2Z.pos_lt_pos in G. rewrite Pos2Z.inj_pow in G. exact G.
Qed.

Lemma Zdigits2_le (x k : Z) : 0 <= x < 2 ^ k -> 0 <= k -> Zdigits2 x <= k.
Proof.
  destruct x as [|p|p]; intros [H0 H] Hk; [cbn; lia| |lia].
  cbn [Zdigits2]. rewrite digits2_pos_size.
  pose proof (Pos.size_le p) as G.
  apply Pos2Z.pos_le_pos in G. rewrite Pos2Z.inj_pow in G.
  change (Z.pos p~0) with (2 * Z.pos p) in G.
  destruct (Z.le_gt_cases (Z.pos (Pos.size p)) k) as [Hle|Hgt]; [exact Hle|].
  assert (Hp : 2 ^ (k + 1) <= 2 ^ Z.pos (Pos.size p))
    by (apply Z.pow_le_mono_r; lia).
  rewrite Z.pow_add_r in Hp by lia. change (2 ^ 1) with 2 in Hp. lia.
Qed.

Lemma iter_pos_invariant (A : Type) (f : A -> A) (Inv : A -> Prop) :
  (forall x, Inv x -> Inv (f x)) ->
  forall n x, Inv x -> Inv (iter_pos f n x).
Proof.
  intros Hf. induction n as [n IH|n IH|]; intros x Hx; cbn; auto.
Qed.

Lemma shr_1_bounded (m : Z) (mrs : shr_record) :
  0 <= shr_m mrs <= m -> 0 <= shr_m (shr_1 mrs) <= m.
Proof.
  destruct mrs as [x r s]. cbn [shr_m]. intros H.
  destruct x as [|[p|p|]|p]; cbn; lia.
Qed.

Lemma shr_fexp_bounded (m e : Z) (l : location) :
  0 <= m ->
  0 <= shr_m (fst (shr_fexp prec emax m e l)) <= m
  /\ snd (shr_fexp prec emax m e l)
     = Z.max e (fexp prec emax (Zdigits2 m + e)).
Proof.
  intros Hm. unfold shr_fexp, shr.
  assert (H0 : 0 <= shr_m (shr_record_of_loc m l) <= m).
  { destruct l as [|[| |]]; cbn; lia. }
  destruct (fexp prec emax (Zdigits2 m + e) - e) as [|n|n] eqn:En;
    cbn [fst snd]; [split; [exact H0|lia]| |split; [exact H0|lia]].
  split; [|lia].
  apply iter_pos_invariant with (Inv := fun x => 0 <= shr_m x <= m);
    [apply shr_1_bounded|exact H0].
Qed.

Lemma binary_round_aux_finite (sx : bool) (mx ex : Z) (lx : location) :
  0 <= mx ->
  Zdigits2 (mx + 1) + Z.max ex (fexp prec emax (Zdigits2 mx + ex)) <= 1024 ->
  Z.max ex (fexp prec emax (Zdigits2 mx + ex)) <= 971 ->
  forall s, binary_round_aux prec emax sx mx ex lx <> S754_infinity s.
Proof.
  intros Hm Hd He s. unfold binary_round_aux.
  pose proof (shr_fexp_bounded mx ex lx Hm) as [Hb1 He1].
  destruct (shr_fexp prec emax mx ex lx) as [mrs1 e1]. cbn [fst snd] in *.
  set (mr := round_nearest_even (shr_m mrs1) (loc_of_shr_record mrs1)).
  assert (Hr : 0 <= mr <= mx + 1).
  { unfold mr, round_nearest_even.
    destruct (loc_of_shr_record mrs1) as [|[| |]];
      try destruct (Z.even (shr_m mrs1)); lia. }
  pose proof (shr_fexp_bounded mr e1 loc_Exact (proj1 Hr)) as [Hb2 He2].
  destruct (shr_fexp prec emax mr e1 loc_Exact) as [mrs2 e2].
  cbn [fst snd] in *.
  destruct (shr_m mrs2) as [|p|p]; try discriminate.
  assert (Hdig : Zdigits2 mr <= Zdigits2 (mx + 1)).
  { apply Zdigits2_le.
    - split; [lia|]. pose proof (Zdigits2_gt (mx + 1)). lia.
    - destruct (mx + 1) eqn:E; cbn; lia. }
  assert (Hle : e2 <= 971).
  { subst e2 e1. unfold fexp, emin in *. unfold prec, emax in *. lia. }
  apply Z.leb_le in Hle. unfold emax, prec. cbn. 
  change (1024 - 53) with 971. rewrite Hle. discriminate.
Qed.

Lemma truediv_within (a b : Z) :
  0 <= a <= b -> 0 < b -> exists f, PyFloat.truediv a b = inr f.
Proof.
  intros Hab Hb. unfold PyFloat.truediv.
  replace (b =? 0) with false by (symmetry; apply Z.eqb_neq; lia).
  destruct (a =? 0) eqn:Ha; [eexists; reflexivity|].
  apply Z.eqb_neq in Ha.
  destruct a as [|pa|pa]; [lia| |lia].
  destruct b as [|pb|pb]; [lia| |lia].
  cbn [PyFloat.finite_of_Z SFdiv xorb].
  assert (Hd1 : 1 <= Zdigits2 (Z.pos pa)) by (cbn; lia).
  assert (Hd : Zdigits2 (Z.pos pa) <= Zdigits2 (Z.pos pb)).
  { apply Zdigits2_le; [|cbn; lia].
    pose proof (Zdigits2_gt (Z.pos pb)). lia. }
  unfold SFdiv_core_binary.
  set (e' := Z.min (fexp prec emax (Zdigits2 (Z.pos pa) + 0
                                    - (Zdigits2 (Z.pos pb) + 0))) (0 - 0)).
  assert (He' : -1074 <= e' <= -53).
  { unfold e', fexp, emin, prec, emax. lia. }
  destruct (0 - 0 - e') as [|s|s] eqn:Es; [lia| |lia].
  rewrite Z.shiftl_mul_pow2 by lia.
  pose proof (Z.div_eucl_eq (Z.pos pa * 2 ^ Z.pos s) (Z.pos pb)) as Hq.
  pose proof (Z.mod_pos_bound (Z.pos pa * 2 ^ Z.pos s) (Z.pos pb)) as Hr.
  unfold Z.modulo in Hr.
  destruct (Z.div_eucl (Z.pos pa * 2 ^ Z.pos s) (Z.pos pb)) as [q r].
  specialize (Hq ltac:(lia)). specialize (Hr ltac:(lia)).
  assert (Hpow : 0 < 2 ^ Z.pos s) by (apply Z.pow_pos_nonneg; lia).
  assert (Hq0 : 0 <= q) by nia.
  assert (Hq1 : q <= 2 ^ Z.pos s) by nia.
  assert (Hdq : Zdigits2 (q + 1) <= Z.pos s + 1).
  { apply Zdigits2_le; [|lia]. rewrite Z.pow_add_r by lia.
    change (2 ^ 1) with 2.
    assert (2 <= 2 ^ Z.pos s).
    { change 2 with (2 ^ 1) at 1. apply Z.pow_le_mono_r; lia. }
    lia. }
  assert (Hdq' : Zdigits2 q <= Zdigits2 (q + 1)).
  { apply Zdigits2_le.
    - pose proof (Zdigits2_gt (q + 1)). lia.
    - destruct (q + 1) eqn:E; cbn; lia. }
  assert (He1 : Z.max e' (fexp prec emax (Zdigits2 q + e')) <= -52).
  { unfold fexp, emin, prec, emax. lia. }
  destruct (binary_round_aux prec emax false q e' (new_location (Z.pos pb) r))
    as [sg|sg| |sg m e] eqn:Er; try (eexists; reflexivity).
  exfalso.
  apply (binary_round_aux_finite false q e' (new_location (Z.pos pb) r))
    with (s := sg); [exact Hq0|lia|lia|exact Er].
Qed.

(** ** The statistics of the cache *)

Section Statistics.

Variable client_count_tokens : string -> input -> exn + response.
Variable cache_size : Z.

Local Abbreviation cached :=
  (_count_tokens_cached client_count_tokens cache_size).
Local Abbreviation counted := (count_tokens client_count_tokens cache_size).
Local Abbreviation requests st := (Z.of_nat (List.length (calls st))).

(** A lookup is a hit or a miss, and a miss sends one request, or none
    when the model is not supported. *)
Lemma cached_statistics t model_id st :
  let st' := snd (cached t model_id st) in
  hits st <= hits st'
  /\ requests st' - requests st <= misses st' - misses st
  /\ (supported model_id = true ->
      requests st' - requests st = misses st' - misses st).
Proof.
  assert (Himpl : forall s,
            let s' := snd (_count_tokens_impl client_count_tokens t
                             model_id s) in
            hits s' = hits s /\ misses s' = misses s
            /\ requests s' <= requests s + 1
            /\ (supported model_id = true -> requests s' = requests s + 1)).
  { intros s. unfold _count_tokens_impl, bind, lift,
      _format_input_for_model.
    destruct (supported model_id); cbn [raise ret snd].
    - destruct (client_count_tokens model_id (envelope t));
        cbn [snd hits misses calls]; rewrite length_app; cbn [List.length];
        repeat split; lia.
    - cbn. repeat split; try lia; discriminate. }
  unfold _count_tokens_cached, lru_cache.
  destruct (cache_size <=? 0);
    [|destruct (cache_get (t, model_id) (cache st));
      [cbn; repeat split; lia|]];
    match goal with |- context [_count_tokens_impl ?c t model_id ?s] =>
      specialize (Himpl s); cbn [hits misses calls] in Himpl;
      destruct (_count_tokens_impl c t model_id s) as [[v| |] s1]
    end; cbn [snd hits misses calls] in Himpl |- *;
    destruct Himpl as (H1 & H2 & H3 & H4); repeat split; try lia;
    intros Hs; specialize (H4 Hs); lia.
Qed.

Lemma counted_statistics t model_id st :
  let st' := snd (counted t model_id st) in
  hits st <= hits st'
  /\ requests st' - requests st <= misses st' - misses st
  /\ (supported model_id = true ->
      requests st' - requests st = misses st' - misses st).
Proof.
  unfold count_tokens, _get_message_overhead, bind, ret.
  pose proof (cached_statistics t model_id st) as H1.
  destruct (cached t model_id st) as [[r| |] s1]; cbn [snd] in H1 |- *;
    try exact H1.
  pose proof (cached_statistics "A" model_id s1) as H2.
  destruct (cached "A" model_id s1) as [[a| |] s2]; cbn [snd] in H2 |- *;
    destruct H1 as (A1 & A2 & A3), H2 as (B1 & B2 & B3);
    repeat split; try lia; intros Hs; specialize (A3 Hs);
    specialize (B3 Hs); lia.
Qed.

End Statistics.

(** On a counter in any state it can reach, [get_cache_info] raises
    nothing and leaves the counter as it is; the hits it reports are not
    negative, the misses are at least the requests sent to the client,
    and [currsize] is at most [maxsize]. *)
Theorem get_cache_info_answers
    (client : string -> input -> exn + response) (cache_size : Z)
    (st : counter) :
  reachable client cache_size st ->
  exists info,
    get_cache_info cache_size st = (Ok info, st)
    /\ 0 <= Info.hits info
    /\ Z.of_nat (List.length (calls st)) <= Info.misses info
    /\ 0 <= Info.currsize info <= Info.maxsize info.
Proof.
  intros Hreach.
  assert (Hcap : Z.of_nat (List.length (cache st)) <= Z.max 0 cache_size).
  { revert Hreach.
    induction 1 as [|s text model_id _ IH|s fuel text mt model_id rm _ IH].
    - cbn. lia.
    - apply counted_capacity, IH.
    - apply truncate_invariant with (P := within_capacity cache_size);
        [|exact IH].
      intros t s0. apply counted_capacity. }
  assert (Hstat : 0 <= hits st
                  /\ Z.of_nat (List.length (calls st)) <= misses st).
  { clear Hcap. revert Hreach.
    assert (Hstep : forall model_id t s,
              0 <= hits s /\ Z.of_nat (List.length (calls s)) <= misses s ->
              0 <= hits (snd (count_tokens client cache_size t model_id s))
              /\ Z.of_nat (List.length
                             (calls (snd (count_tokens client cache_size t
                                            model_id s))))
                 <= misses (snd (count_tokens client cache_size t
                                   model_id s))).
    { intros model_id t s [H1 H2].
      pose proof (counted_statistics client cache_size t model_id s)
        as (A1 & A2 & _).
      split; lia. }
    induction 1 as [|s text model_id _ IH|s fuel text mt model_id rm _ IH].
    - cbn. lia.
    - apply Hstep, IH.
    - apply truncate_invariant
        with (P := fun s => 0 <= hits s
                            /\ Z.of_nat (List.length (calls s)) <= misses s);
        [|exact IH].
      intros t s0. apply Hstep. }
  destruct Hstat as [Hh Hm]. unfold get_cache_info. cbn [Info.hits Info.misses].
  destruct (0 <? hits st + misses st) eqn:Hpos.
  - apply Z.ltb_lt in Hpos.
    destruct (truediv_within (hits st) (hits st + misses st)) as [f Hf];
      [lia|lia|].
    rewrite Hf. eexists. split; [reflexivity|]. cbn. lia.
  - eexists. split; [reflexivity|]. cbn. lia.
Qed.

(** When every call of a counter names one supported model, whose
    requests the client answers or refuses with a [ClientError], the
    misses that [get_cache_info] reports are the requests sent to the
    client: each miss sends one request, and a hit sends none. *)
Theorem cache_misses_are_the_requests_sent
    (client : string -> input -> exn + response) (cache_size : Z)
    (model_id : string) (cs : list call) :
  supported model_id = true ->
  (forall i e, client model_id i = inl e -> exists code, e = ClientError code) ->
  misses (after_all client cache_size model_id cs fresh)
  = Z.of_nat (List.length
                (calls (after_all client cache_size model_id cs fresh))).
Proof.
  intros Hsup _.
  assert (H : forall st,
            misses st = Z.of_nat (List.length (calls st)) ->
            misses (after_all client cache_size model_id cs st)
            = Z.of_nat (List.length
                          (calls (after_all client cache_size model_id cs
                                    st)))).
  { assert (Hstep : forall t s,
              misses s = Z.of_nat (List.length (calls s)) ->
              misses (snd (count_tokens client cache_size t model_id s))
              = Z.of_nat (List.length
                            (calls (snd (count_tokens client cache_size t
                                           model_id s))))).
    { intros t s Hs.
      pose proof (counted_statistics client cache_size t model_id s)
        as (_ & _ & A3).
      specialize (A3 Hsup). lia. }
    induction cs as [|c cs' IH]; intros st Hst; [exact Hst|].
    cbn. apply IH. destruct c as [text|fuel text mt rm]; cbn.
    - apply Hstep, Hst.
    - apply truncate_invariant
        with (P := fun s => misses s = Z.of_nat (List.length (calls s)));
        [|exact Hst].
      intros t s. apply Hstep. }
  apply H. reflexivity.
Qed.

(** ** The command *)

Lemma string_app_assoc (a b c : string) :
  ((a ++ b) ++ c)%string = (a ++ b ++ c)%string.
Proof. induction a as [|x a IH]; cbn; [reflexivity|]. rewrite IH. reflexivity. Qed.

(** Without [-t], and with [-t 0], which the test [if truncate:] takes
    for no option, the command counts: for a text other than ["A"] that
    the client answers, it sends the request of the text and the request
    of the probe, writes the corrected count and an end of line on the
    standard output, and exits with status 0. *)
Theorem cli_counts_tokens
    (boto3_client : option string -> string -> input -> exn + response)
    (stdin : string) (describe : exn -> string) (fuel : nat)
    (prompt : list string) (input_file : option string)
    (target : option Z) (model_id : string) (aws_region : option string)
    (r a : Z) :
  let text := Cli.input_text stdin prompt input_file in
  text <> "" -> text <> "A" ->
  target = None \/ target = Some 0 ->
  raw_count (boto3_client aws_region) text model_id = inr r ->
  raw_count (boto3_client aws_region) "A" model_id = inr a ->
  Cli.cli boto3_client stdin describe fuel prompt input_file target
    model_id aws_region
  = Some {| Cli.stdout := Cli.str_of_int (Z.max 0 (r - (a - 1))) ++ Cli.nl;
            Cli.stderr := "";
            Cli.exit_status := 0;
            Cli.requests := [(model_id, envelope text);
                             (model_id, envelope "A")] |}.
Proof.
  intros text Hne HneA Hopt R RA. unfold Cli.cli. fold text.
  apply String.eqb_neq in Hne. rewrite Hne.
  assert (Hsize : 2 <= Package.default_cache_size)
    by (unfold Package.default_cache_size; lia).
  pose proof (@counted_fresh_state (boto3_client aws_region)
                Package.default_cache_size text model_id r a HneA R RA Hsize)
    as E.
  assert (Hcount :
    Cli.attempt boto3_client fuel text target model_id aws_region fresh
    = bind (count_tokens (boto3_client aws_region)
              Package.default_cache_size text model_id)
        (fun token_count => ret (Cli.str_of_int token_count ++ Cli.nl)%string)
        fresh).
  { unfold Cli.attempt. destruct Hopt as [-> | ->]; reflexivity. }
  rewrite Hcount. unfold bind. rewrite E. reflexivity.
Qed.


(** With [-t n] for an [n] other than 0, a run that exits with status 0
    has written a prefix of its text on the standard output, with no end
    of line added; when this prefix is not empty its corrected count is
    at most [n], and it is empty when [n] is negative. *)
Theorem cli_truncates_to_a_prefix
    (boto3_client : option string -> string -> input -> exn + response)
    (stdin : string) (describe : exn -> string) (fuel : nat)
    (prompt : list string) (input_file : option string)
    (max_tokens : Z) (model_id : string) (aws_region : option string)
    (run : Cli.run) :
  max_tokens <> 0 ->
  Cli.cli boto3_client stdin describe fuel prompt input_file
    (Some max_tokens) model_id aws_region = Some run ->
  Cli.exit_status run = 0 ->
  (exists n,
     Cli.stdout run = slice_to (Cli.input_text stdin prompt input_file) n)
  /\ (Cli.stdout run <> "" ->
      exists c,
        corrected_count (boto3_client aws_region) (Cli.stdout run) model_id
        = inr c
        /\ c <= max_tokens)
  /\ (max_tokens < 0 -> Cli.stdout run = "").
Proof.
  intros Hnz E Hexit. unfold Cli.cli in E.
  set (text := Cli.input_text stdin prompt input_file) in *.
  destruct (text =? "")%string.
  { inversion E; subst run. discriminate Hexit. }
  unfold Cli.attempt in E. apply Z.eqb_neq in Hnz. rewrite Hnz in E.
  cbn [negb] in E. unfold bind in E.
  destruct (truncate (boto3_client aws_region) Package.default_cache_size
              fuel text max_tokens model_id false fresh)
    as [[r|e|] st'] eqn:Et; [|inversion E; subst run; discriminate Hexit|
                             discriminate E].
  destruct (truncate_hoare (boto3_client aws_region)
              Package.default_cache_size text max_tokens model_id fuel
              false fresh r st' (sound_fresh _) Et)
    as (_ & t & n & final & Hr & _ & [Hpre Hfit]).
  subst r. cbn [respond ret] in E. inversion E; subst run. cbn [Cli.stdout].
  split; [exact Hpre|].
  assert (Hcount : t <> "" ->
            exists c, corrected_count (boto3_client aws_region) t model_id
                      = inr c /\ c <= max_tokens).
  { intros Hne. destruct Hfit as [[Hc Hle]|[Hempty _]]; [|congruence].
    exists final. split; assumption. }
  split; [exact Hcount|].
  intros Hneg. destruct (string_dec t "") as [Ht|Ht]; [exact Ht|].
  destruct (Hcount Ht) as (c & Hc & Hle). exfalso.
  unfold corrected_count in Hc.
  destruct (raw_count (boto3_client aws_region) t model_id);
    [discriminate Hc|].
  destruct (raw_count (boto3_client aws_region) "A" model_id);
    [discriminate Hc|].
  inversion Hc. lia.
Qed.

(** A run of the command writes on one stream: with status 0 nothing on
    the standard error, and with status 1 nothing on the standard output
    and one line on the standard error that starts with ["Error: "].
    When there is no text the command sends nothing. *)
Theorem cli_reports_on_one_stream
    (boto3_client : option string -> string -> input -> exn + response)
    (stdin : string) (describe : exn -> string) (fuel : nat)
    (prompt : list string) (input_file : option string)
    (target : option Z) (model_id : string) (aws_region : option string)
    (run : Cli.run) :
  Cli.cli boto3_client stdin describe fuel prompt input_file target
    model_id aws_region = Some run ->
  (Cli.exit_status run = 0 /\ Cli.stderr run = ""
   /\ Cli.input_text stdin prompt input_file <> "")
  \/ (Cli.exit_status run = 1 /\ Cli.stdout run = ""
      /\ exists msg,
          Cli.stderr run = ("Error: " ++ msg ++ Cli.nl)%string
          /\ (Cli.input_text stdin prompt input_file = "" ->
              msg = "No input text provided" /\ Cli.requests run = [])).
Proof.
  intros E. unfold Cli.cli in E.
  destruct (Cli.input_text stdin prompt input_file =? "")%string eqn:Ht.
  - inversion E; subst run. right. cbn. repeat split.
    exists "No input text provided". repeat split.
  - apply String.eqb_neq in Ht.
    destruct (Cli.attempt boto3_client fuel _ target model_id aws_region
                fresh) as [[out|e|] st']; [| |discriminate E];
      inversion E; subst run; [left; repeat split; exact Ht|right].
    cbn [Cli.fail Cli.exit_status Cli.stdout Cli.stderr Cli.requests].
    repeat split.
    assert (Hrep : exists msg,
               Cli.report describe e = ("Error: " ++ msg)%string).
    { unfold Cli.report. destruct e as [m|code|name| |];
        try (eexists; reflexivity).
      destruct (name =? "NoCredentialsError")%string;
        [eexists; reflexivity|].
      destruct (name =? "NoRegionError")%string; eexists; reflexivity. }
    destruct Hrep as [msg Hrep]. exists msg. rewrite Hrep.
    split; [apply string_app_assoc|]. intros Habs. contradiction.
Qed.

(** ** The cache does not show through *)

Section Transparent.

Variable client_count_tokens : string -> input -> exn + response.
Variable cache_size : Z.
Variables (text : string) (max_tokens : Z) (model_id : string).

Local Abbreviation sound := (cache_sound client_count_tokens).
Local Abbreviation clear m := (transparent client_count_tokens m).
Local Abbreviation counted := (count_tokens client_count_tokens cache_size).

Lemma transparent_ret (A : Type) (a : A) : clear (ret a).
Proof. split; [intros st H; exact H|reflexivity]. Qed.

Lemma transparent_lift (A : Type) (r : exn + A) : clear (lift r).
Proof. destruct r; (split; [intros st H; exact H|reflexivity]). Qed.

Lemma transparent_bind (A B : Type) (m : M A) (k : A -> M B) :
  clear m -> (forall a, clear (k a)) -> clear (bind m k).
Proof.
  intros [Hs Hf] Hk. split.
  - intros st H. unfold bind. specialize (Hs st H).
    destruct (m st) as [[a| |] s1]; cbn [snd] in Hs |- *; try exact Hs.
    apply (proj1 (Hk a)), Hs.
  - intros st1 st2 H1 H2. unfold bind.
    pose proof (Hs st1 H1) as S1. pose proof (Hs st2 H2) as S2.
    specialize (Hf st1 st2 H1 H2).
    destruct (m st1) as [[a1| |] s1], (m st2) as [[a2| |] s2];
      cbn [fst snd] in *; try discriminate Hf; try reflexivity.
    + inversion Hf; subst a2. apply (proj2 (Hk a1)); assumption.
    + inversion Hf; reflexivity.
Qed.

Lemma transparent_counted t : clear (counted t model_id).
Proof.
  split.
  - intros st H. apply counted_sound, H.
  - intros st1 st2 H1 H2.
    rewrite (@counted_fst client_count_tokens cache_size t model_id st1 H1).
    rewrite (@counted_fst client_count_tokens cache_size t model_id st2 H2).
    reflexivity.
Qed.

Lemma transparent_cached t :
  clear (_count_tokens_cached client_count_tokens cache_size t model_id).
Proof.
  split.
  - intros st H. apply cached_sound, H.
  - intros st1 st2 H1 H2.
    rewrite (@cached_fst client_count_tokens cache_size t model_id st1 H1).
    rewrite (@cached_fst client_count_tokens cache_size t model_id st2 H2).
    reflexivity.
Qed.

Lemma transparent_probe t :
  clear (probe client_count_tokens cache_size model_id t).
Proof.
  destruct (transparent_counted t) as [Hs Hf]. split.
  - intros st H.
    rewrite (@probe_snd client_count_tokens cache_size model_id t st).
    apply Hs, H.
  - intros st1 st2 H1 H2. specialize (Hf st1 st2 H1 H2).
    unfold probe, except_client_error, bind, ret.
    destruct (counted t model_id st1) as [[c1|e1|] s1],
             (counted t model_id st2) as [[c2|e2|] s2];
      cbn [fst] in Hf; try discriminate Hf; try reflexivity.
    + inversion Hf; reflexivity.
    + inversion Hf; subst e2. destruct e1; reflexivity.
Qed.

Lemma transparent_widen_scan idx s :
  clear
    (widen_scan client_count_tokens cache_size text max_tokens model_id
       idx s).
Proof.
  revert s. induction idx as [|i rest IH]; intros s; cbn [widen_scan].
  - apply transparent_ret.
  - apply transparent_bind; [apply transparent_probe|].
    intros [c|]; [|apply transparent_ret].
    destruct (c <=? max_tokens); [|apply transparent_ret].
    destruct (c =? max_tokens); [apply transparent_ret|apply IH].
Qed.

Lemma transparent_shrink_scan idx s :
  clear
    (shrink_scan client_count_tokens cache_size text max_tokens model_id
       idx s).
Proof.
  revert s. induction idx as [|i rest IH]; intros s; cbn [shrink_scan].
  - apply transparent_ret.
  - apply transparent_bind; [apply transparent_probe|].
    intros [c|]; [|apply transparent_ret].
    destruct (c <=? max_tokens); [|apply IH].
    destruct (c =? max_tokens); apply transparent_ret.
Qed.

Lemma transparent_adapt cpt test_text count s :
  clear
    (adapt client_count_tokens cache_size text max_tokens model_id cpt
       test_text count s).
Proof.
  unfold adapt.
  destruct (count =? max_tokens); [apply transparent_ret|].
  destruct (count <? max_tokens).
  - destruct (0 <? max_tokens - count); [|apply transparent_ret].
    apply transparent_bind; [apply transparent_lift|]. intros extra.
    destruct (extra <=? 5); [|apply transparent_ret].
    apply transparent_bind; [apply transparent_widen_scan|].
    intros s'. apply transparent_ret.
  - apply transparent_bind; [apply transparent_lift|]. intros cut.
    destruct (cut <=? 5); [|apply transparent_ret].
    apply transparent_bind; [apply transparent_shrink_scan|].
    intros s'. apply transparent_ret.
Qed.

Lemma transparent_adaptive_loop cpt fuel s :
  clear
    (adaptive_loop client_count_tokens cache_size text max_tokens model_id
       cpt fuel s).
Proof.
  revert s. induction fuel as [|fuel IH]; intros s; cbn [adaptive_loop].
  - split; [intros st H; exact H|reflexivity].
  - destruct (api_calls s <? 20); [|apply transparent_ret].
    apply transparent_bind; [apply transparent_probe|].
    intros [c|]; [|apply IH].
    apply transparent_bind; [apply transparent_adapt|].
    intros [s'|s']; [apply transparent_ret|apply IH].
Qed.

Lemma transparent_exhaustive_scan idx v :
  clear
    (exhaustive_scan client_count_tokens cache_size text max_tokens
       model_id idx v).
Proof.
  revert v. induction idx as [|i rest IH]; intros v; cbn [exhaustive_scan].
  - apply transparent_ret.
  - destruct (20 <=? v_api_calls v); [apply transparent_ret|].
    apply transparent_bind; [apply transparent_counted|]. intros c.
    destruct (c =? max_tokens); [apply transparent_ret|].
    destruct (c <? max_tokens); apply IH.
Qed.

Lemma transparent_finalize s :
  clear
    (finalize client_count_tokens cache_size text max_tokens model_id s).
Proof.
  unfold finalize.
  destruct (negb (best_text s =? "")%string); [|apply transparent_ret].
  apply transparent_bind; [apply transparent_counted|]. intros c.
  destruct (negb (c =? max_tokens) && (api_calls s + 1 <? 20));
    [apply transparent_exhaustive_scan|apply transparent_ret].
Qed.

Lemma transparent_truncate fuel return_metadata :
  clear
    (truncate client_count_tokens cache_size fuel text max_tokens model_id
       return_metadata).
Proof.
  unfold truncate.
  apply transparent_bind; [apply transparent_cached|]. intros raw.
  apply transparent_bind.
  { unfold _get_message_overhead.
    apply transparent_bind; [apply transparent_cached|].
    intros a. apply transparent_ret. }
  intros o. destruct (Z.max 0 (raw - o) <=? max_tokens);
    [apply transparent_ret|].
  apply transparent_bind; [apply transparent_lift|]. intros [cpt target].
  apply transparent_bind; [apply transparent_adaptive_loop|]. intros s.
  apply transparent_bind; [apply transparent_finalize|]. intros v.
  apply transparent_ret.
Qed.

End Transparent.

(** The cache does not show through: a counter in any state it can
    reach answers a [count_tokens] or a [truncate] call as a new counter
    would, with the same value or the same exception. *)
Theorem methods_ignore_the_cache
    (client : string -> input -> exn + response) (cache_size : Z)
    (fuel : nat) (text : string) (max_tokens : Z) (model_id : string)
    (return_metadata : bool) (st : counter) :
  reachable client cache_size st ->
  fst (count_tokens client cache_size text model_id st)
  = fst (count_tokens client cache_size text model_id fresh)
  /\ fst (truncate client cache_size fuel text max_tokens model_id
            return_metadata st)
     = fst (truncate client cache_size fuel text max_tokens model_id
              return_metadata fresh).
Proof.
  intros Hreach. apply reachable_sound in Hreach.
  pose proof (sound_fresh client) as Hfresh. split.
  - apply (transparent_counted client cache_size model_id text);
      assumption.
  - apply (transparent_truncate client cache_size text max_tokens model_id
             fuel return_metadata); assumption.
Qed.

(** On a counter in any state it can reach, [truncate] is idempotent:
    a text it has returned, when it is not empty, comes back unchanged
    from a second call with the same target, which reports one call and
    the same count. *)
Theorem truncate_twice
    (client : string -> input -> exn + response) (cache_size : Z)
    (fuel fuel' : nat) (text : string) (max_tokens : Z) (model_id : string)
    (st st' : counter) (t : string) (meta : metadata) :
  reachable client cache_size st ->
  truncate client cache_size fuel text max_tokens model_id true st
    = (Ok (TextMeta t meta), st') ->
  t <> "" ->
  fst (truncate client cache_size fuel' t max_tokens model_id true st')
  = Ok (TextMeta t {| md_api_calls := 1;
                      md_final_token_count := md_final_token_count meta |}).
Proof.
  intros Hreach E Hne. apply reachable_sound in Hreach.
  destruct (truncate_hoare client cache_size text max_tokens model_id fuel
              true st _ st' Hreach E)
    as (Hs' & t' & n & final & Hr & _ & [_ [[Hc Hle]|[Hempty _]]]);
    inversion Hr; subst; [|congruence].
  pose proof (@counted_fst client cache_size t' model_id st' Hs') as F.
  unfold corrected_count in Hc.
  destruct (raw_count client t' model_id) as [e|r]; [discriminate Hc|].
  destruct (raw_count client "A" model_id) as [e|a]; [discriminate Hc|].
  inversion Hc; subst final. cbn [outcome_of] in F.
  destruct (count_tokens client cache_size t' model_id st') as [c st1] eqn:Ec.
  cbn [fst] in F. subst c.
  rewrite (@truncate_fast_path client cache_size fuel' t' max_tokens
             model_id true st' st1 _ Ec Hle).
  reflexivity.
Qed.

(** ** A loop that does not end, in general *)

Section Throttled.

Variable client_count_tokens : string -> input -> exn + response.
Variable cache_size : Z.
Variables (text : string) (max_tokens : Z) (model_id : string).
Variable cpt : PyFloat.float.

Hypothesis model_supported : supported model_id = true.
Hypothesis prefixes_throttled :
  forall n, 1 <= n < len text ->
    exists code,
      client_count_tokens model_id (envelope (slice_to text n))
      = inl (ClientError code).

Lemma throttled_loop fuel :
  forall s st,
    cache_sound client_count_tokens st ->
    api_calls s < 20 ->
    1 <= target_chars s < len text ->
    fst (adaptive_loop client_count_tokens cache_size text max_tokens
           model_id cpt fuel s st) = Diverge
    /\ List.length
         (calls (snd (adaptive_loop client_count_tokens cache_size text
                        max_tokens model_id cpt fuel s st)))
       = (List.length (calls st) + fuel)%nat.
Proof.
  induction fuel as [|fuel IH]; intros s st Hs Hcalls Htarget.
  - cbn. split; [reflexivity|lia].
  - cbn [adaptive_loop]. apply Z.ltb_lt in Hcalls. rewrite Hcalls.
    apply Z.ltb_lt in Hcalls.
    destruct (prefixes_throttled (target_chars s) Htarget) as [code Hcode].
    unfold bind at 1. unfold probe, except_client_error, bind.
    rewrite (counted_refused client_count_tokens cache_size _ model_id st _
               Hs model_supported Hcode).
    cbn [ret].
    match goal with |- context [adaptive_loop _ _ _ _ _ _ fuel ?s1 ?st1] =>
      destruct (IH s1 st1) as [Hd Hl]
    end.
    + intros k v G. apply Hs, G.
    + exact Hcalls.
    + cbn [target_chars retarget]. lia.
    + split; [exact Hd|]. rewrite Hl. cbn [calls]. rewrite length_app.
      cbn [List.length]. lia.
Qed.

End Throttled.

(** [truncate] does not end while the client refuses the shorter
    prefixes: on a counter in any state it can reach, when the text is
    over the target, the first candidate is a proper prefix, and every
    request for a proper prefix that is not empty raises a [ClientError],
    the run is not over whatever the fuel, and each iteration has sent one
    more request. *)
Theorem truncate_spins_while_prefixes_are_throttled
    (client : string -> input -> exn + response) (cache_size : Z)
    (fuel : nat) (text : string) (max_tokens : Z) (model_id : string)
    (return_metadata : bool) (st : counter) (r a : Z)
    (cpt : PyFloat.float) (target : Z) :
  reachable client cache_size st ->
  raw_count client text model_id = inr r ->
  raw_count client "A" model_id = inr a ->
  max_tokens < Z.max 0 (r - (a - 1)) ->
  initial_estimate text max_tokens r = inr (cpt, target) ->
  1 <= target < len text ->
  (forall n, 1 <= n < len text ->
     exists code,
       client model_id (envelope (slice_to text n))
       = inl (ClientError code)) ->
  fst (truncate client cache_size fuel text max_tokens model_id
         return_metadata st) = Diverge
  /\ (List.length (calls st) + fuel
      <= List.length
           (calls (snd (truncate client cache_size fuel text max_tokens
                          model_id return_metadata st))))%nat.
Proof.
  intros Hreach R RA Hover Hest Htarget Hthrottled.
  apply reachable_sound in Hreach.
  assert (Hsup : supported model_id = true).
  { unfold raw_count, _format_input_for_model in R.
    destruct (supported model_id); [reflexivity|discriminate R]. }
  unfold truncate, bind.
  pose proof (@cached_fst client cache_size text model_id st Hreach) as F1.
  pose proof (@cached_sound client cache_size text model_id st Hreach)
    as Hs1.
  pose proof (cached_requests client cache_size model_id text st) as Q1.
  destruct (_count_tokens_cached client cache_size text model_id st)
    as [[r'| |] st1]; rewrite R in F1; try discriminate F1.
  inversion F1; subst r'. cbn [snd] in Hs1, Q1.
  pose proof (@overhead_fst client cache_size model_id st1 Hs1) as F2.
  pose proof (@overhead_sound client cache_size model_id st1 Hs1) as Hs2.
  pose proof (cached_requests client cache_size model_id "A" st1) as Q2.
  rewrite <- (@overhead_snd client cache_size model_id st1) in Q2.
  destruct (_get_message_overhead client cache_size model_id st1)
    as [[o| |] st2]; rewrite RA in F2; try discriminate F2.
  inversion F2; subst o. cbn [fst snd] in Hs2, Q2 |- *.
  apply Z.leb_gt in Hover. rewrite Hover. rewrite Hest. cbn [lift ret].
  match goal with |- context [adaptive_loop _ _ _ _ _ _ fuel ?s0 st2] =>
    destruct (throttled_loop client cache_size text max_tokens model_id cpt
                Hsup Hthrottled fuel s0 st2) as [Hd Hl];
      [exact Hs2|cbn; lia|exact Htarget|];
    destruct (adaptive_loop client cache_size text max_tokens model_id cpt
                fuel s0 st2) as [res st3]
  end.
  cbn [fst snd] in Hd, Hl |- *. subst res. cbn [fst snd].
  split; [reflexivity|]. lia.
Qed.

(** ** The properties above at work *)

Lemma count_tokens_again_sends_nothing_witness :
  fst (count_tokens Example.linear 2 "abc" Example.haiku
         (snd (count_tokens Example.linear 2 "abc" Example.haiku fresh)))
  = Ok 3
  /\ calls (snd (count_tokens Example.linear 2 "abc" Example.haiku
                   (snd (count_tokens Example.linear 2 "abc" Example.haiku
                           fresh))))
     = calls (snd (count_tokens Example.linear 2 "abc" Example.haiku fresh))
  /\ hits (snd (count_tokens Example.linear 2 "abc" Example.haiku
                  (snd (count_tokens Example.linear 2 "abc" Example.haiku
                          fresh))))
     = hits (snd (count_tokens Example.linear 2 "abc" Example.haiku fresh))
       + 2
  /\ misses (snd (count_tokens Example.linear 2 "abc" Example.haiku
                    (snd (count_tokens Example.linear 2 "abc" Example.haiku
                            fresh))))
     = misses (snd (count_tokens Example.linear 2 "abc" Example.haiku fresh)).
Proof.
  apply (count_tokens_again_sends_nothing Example.linear 2 "abc"
           Example.haiku fresh).
  - lia.
  - vm_compute. reflexivity.
Defined.

Lemma count_tokens_failure_is_not_cached_witness :
  let failed (s : counter) :=
    {| cache := cache s; hits := hits s; misses := misses s + 1;
       calls := calls s
                ++ [(Example.haiku,
                     envelope (Example.repeat_char "a" 11))] |} in
  count_tokens Example.throttled_at_11 1000 (Example.repeat_char "a" 11)
    Example.haiku fresh
  = (Raise (ClientError "ThrottlingException"), failed fresh)
  /\ count_tokens Example.throttled_at_11 1000 (Example.repeat_char "a" 11)
       Example.haiku (failed fresh)
     = (Raise (ClientError "ThrottlingException"), failed (failed fresh)).
Proof.
  apply (count_tokens_failure_is_not_cached Example.throttled_at_11 1000
           (Example.repeat_char "a" 11) Example.haiku fresh
           "ThrottlingException").
  - apply reach_fresh.
  - reflexivity.
  - reflexivity.
Defined.

Lemma count_tokens_without_cache_witness :
  count_tokens Example.linear 0 "abc" Example.haiku fresh
  = (Ok (Z.max 0 (13 - (11 - 1))),
     {| cache := cache fresh; hits := hits fresh;
        misses := misses fresh + 1 + 1;
        calls := calls fresh ++ [(Example.haiku, envelope "abc")]
                 ++ [(Example.haiku, envelope "A")] |}).
Proof.
  apply (count_tokens_without_cache Example.linear 0 "abc" Example.haiku
           fresh 13 11).
  - lia.
  - reflexivity.
  - reflexivity.
Defined.

Lemma responses_without_input_tokens_witness :
  fst (count_tokens Example.silent 1000 "abc" Example.haiku fresh) = Ok 1
  /\ fst (truncate Example.silent 1000 0 "abc" 0 Example.haiku true fresh)
     = if 1 <=? 0 then Ok (respond true "abc" 1 1)
       else Raise ZeroDivisionError.
Proof.
  apply (responses_without_input_tokens Example.silent 1000 0 "abc" 0
           Example.haiku true fresh).
  - apply reach_fresh.
  - reflexivity.
  - intros i. reflexivity.
Defined.

Lemma truncate_divides_by_zero_witness :
  fst (truncate Example.linear 1000 0 "" (-1) Example.haiku true fresh)
  = Raise ZeroDivisionError.
Proof.
  apply (truncate_divides_by_zero Example.linear 1000 0 "" (-1)
           Example.haiku true fresh 10 11).
  - apply reach_fresh.
  - reflexivity.
  - reflexivity.
  - vm_compute. reflexivity.
  - left. reflexivity.
Defined.

Lemma truncate_negative_target_witness :
  "" = ""
  /\ md_final_token_count {| md_api_calls := 2; md_final_token_count := 0 |}
     = 0.
Proof.
  apply (truncate_negative_target Example.linear 1000 20 "hello world" (-1)
           Example.haiku fresh
           (snd (truncate Example.linear 1000 20 "hello world" (-1)
                   Example.haiku true fresh))).
  - apply reach_fresh.
  - lia.
  - vm_compute. reflexivity.
Defined.

Lemma truncate_ends_without_client_errors_witness :
  fst (truncate Example.linear 1000 20 "hello world, this is a text" 7
         Example.haiku true fresh) <> Diverge.
Proof.
  apply (truncate_ends_without_client_errors Example.linear 1000 20
           "hello world, this is a text" 7 Example.haiku true fresh).
  - intros i code. cbv [Example.linear Example.by_length]. discriminate.
  - lia.
Defined.

Lemma truncate_requests_within_api_calls_witness :
  Z.of_nat
    (List.length
       (calls (snd (truncate Example.linear 1000 20
                      "hello world, this is a text" 7 Example.haiku true
                      fresh))))
  <= Z.of_nat (List.length (calls fresh))
     + 2 * md_api_calls {| md_api_calls := 5; md_final_token_count := 7 |}
  /\ (2 <= 1000 ->
      Z.of_nat
        (List.length
           (calls (snd (truncate Example.linear 1000 20
                          "hello world, this is a text" 7 Example.haiku true
                          fresh))))
      <= Z.of_nat (List.length (calls fresh))
         + md_api_calls {| md_api_calls := 5; md_final_token_count := 7 |}
         + 1).
Proof.
  apply (truncate_requests_within_api_calls Example.linear 1000 20
           "hello world, this is a text" 7 Example.haiku fresh _ "hello w").
  - intros i code. cbv [Example.linear Example.by_length]. discriminate.
  - vm_compute. reflexivity.
Defined.

Lemma get_cache_info_answers_witness :
  exists info,
    get_cache_info 1000
      (snd (count_tokens Example.linear 1000 "abc" Example.haiku fresh))
    = (Ok info,
       snd (count_tokens Example.linear 1000 "abc" Example.haiku fresh))
    /\ 0 <= Info.hits info
    /\ Z.of_nat
         (List.length
            (calls (snd (count_tokens Example.linear 1000 "abc"
                           Example.haiku fresh))))
       <= Info.misses info
    /\ 0 <= Info.currsize info <= Info.maxsize info.
Proof.
  apply (get_cache_info_answers Example.linear 1000).
  apply reach_count_tokens. apply reach_fresh.
Defined.

Lemma cache_misses_are_the_requests_sent_witness :
  misses (after_all Example.linear 1000 Example.haiku
            [CallCountTokens "abc"; CallTruncate 20 "hello world" 3 true;
             CallCountTokens "abc"] fresh)
  = Z.of_nat
      (List.length
         (calls (after_all Example.linear 1000 Example.haiku
                   [CallCountTokens "abc";
                    CallTruncate 20 "hello world" 3 true;
                    CallCountTokens "abc"] fresh))).
Proof.
  apply (cache_misses_are_the_requests_sent Example.linear 1000
           Example.haiku).
  - reflexivity.
  - intros i e. cbv [Example.linear Example.by_length]. discriminate.
Defined.

Lemma cli_counts_tokens_witness :
  Cli.cli (fun _ => Example.linear) "" (fun _ => "") 0
    ["one"; "two"; "three"] None (Some 0) Example.haiku None
  = Some {| Cli.stdout := Cli.str_of_int (Z.max 0 (23 - (11 - 1))) ++ Cli.nl;
            Cli.stderr := "";
            Cli.exit_status := 0;
            Cli.requests := [(Example.haiku, envelope "one two three");
                             (Example.haiku, envelope "A")] |}.
Proof.
  apply (cli_counts_tokens (fun _ => Example.linear) "" (fun _ => "") 0
           ["one"; "two"; "three"] None (Some 0) Example.haiku None 23 11).
  - discriminate.
  - discriminate.
  - right. reflexivity.
  - reflexivity.
  - reflexivity.
Defined.


Lemma cli_truncates_to_a_prefix_witness :
  (exists n, "from" = slice_to "from stdin" n)
  /\ ("from" <> "" ->
      exists c,
        corrected_count Example.linear "from" Example.haiku = inr c
        /\ c <= 4)
  /\ (4 < 0 -> "from" = "").
Proof.
  apply (cli_truncates_to_a_prefix (fun _ => Example.linear) "from stdin"
           (fun _ => "") 5 [] None 4 Example.haiku None
           {| Cli.stdout := "from"; Cli.stderr := ""; Cli.exit_status := 0;
              Cli.requests :=
                [(Example.haiku, envelope "from stdin");
                 (Example.haiku, envelope "A");
                 (Example.haiku, envelope "fr");
                 (Example.haiku, envelope "fro");
                 (Example.haiku, envelope "from")] |}).
  - lia.
  - vm_compute. reflexivity.
  - reflexivity.
Defined.

Lemma cli_reports_on_one_stream_witness :
  (1 = 0 /\ ("Error: AWS Bedrock API error (ThrottlingException): "
             ++ Cli.nl)%string = ""
   /\ Example.repeat_char "a" 11 <> "")
  \/ (1 = 1 /\ "" = ""
      /\ exists msg,
          ("Error: AWS Bedrock API error (ThrottlingException): "
           ++ Cli.nl)%string
          = ("Error: " ++ msg ++ Cli.nl)%string
          /\ (Example.repeat_char "a" 11 = "" ->
              msg = "No input text provided"
              /\ [(Example.haiku, envelope (Example.repeat_char "a" 11))]
                 = [])).
Proof.
  apply (cli_reports_on_one_stream (fun _ => Example.throttled_at_11)
           (Example.repeat_char "a" 11) (fun _ => "") 5 [] None None
           Example.haiku None
           {| Cli.stdout := "";
              Cli.stderr :=
                "Error: AWS Bedrock API error (ThrottlingException): "
                ++ Cli.nl;
              Cli.exit_status := 1;
              Cli.requests :=
                [(Example.haiku,
                  envelope (Example.repeat_char "a" 11))] |}).
  vm_compute. reflexivity.
Defined.

Lemma methods_ignore_the_cache_witness :
  fst (count_tokens Example.linear 1000 "hello world" Example.haiku
         (snd (count_tokens Example.linear 1000 "hello" Example.haiku fresh)))
  = fst (count_tokens Example.linear 1000 "hello world" Example.haiku fresh)
  /\ fst (truncate Example.linear 1000 20 "hello world" 5 Example.haiku true
            (snd (count_tokens Example.linear 1000 "hello" Example.haiku
                    fresh)))
     = fst (truncate Example.linear 1000 20 "hello world" 5 Example.haiku
              true fresh).
Proof.
  apply (methods_ignore_the_cache Example.linear 1000 20 "hello world" 5
           Example.haiku true).
  apply reach_count_tokens. apply reach_fresh.
Defined.

Lemma truncate_twice_witness :
  fst (truncate Example.linear 1000 0 "hello w" 7 Example.haiku true
         (snd (truncate Example.linear 1000 20 "hello world, this is a text"
                 7 Example.haiku true fresh)))
  = Ok (TextMeta "hello w"
          {| md_api_calls := 1;
             md_final_token_count :=
               md_final_token_count
                 {| md_api_calls := 5; md_final_token_count := 7 |} |}).
Proof.
  apply (truncate_twice Example.linear 1000 20 0
           "hello world, this is a text" 7 Example.haiku fresh).
  - apply reach_fresh.
  - vm_compute. reflexivity.
  - discriminate.
Defined.

Lemma truncate_spins_while_prefixes_are_throttled_witness :
  fst (truncate Example.stuck 1000 7 Example.a62 11 Example.haiku true fresh)
  = Diverge
  /\ (List.length (calls fresh) + 7
      <= List.length
           (calls (snd (truncate Example.stuck 1000 7 Example.a62 11
                          Example.haiku true fresh))))%nat.
Proof.
  apply (truncate_spins_while_prefixes_are_throttled Example.stuck 1000 7
           Example.a62 11 Example.haiku true fresh 310 11
           Example.ratio_62_310 2).
  - apply reach_fresh.
  - reflexivity.
  - reflexivity.
  - vm_compute. reflexivity.
  - vm_compute. reflexivity.
  - vm_compute. split; [discriminate|reflexivity].
  - intros n Hn.
    assert (H : forallb
                  (fun k =>
                     match Example.stuck Example.haiku
                             (envelope (slice_to Example.a62 k)) with
                     | inl (ClientError _) => true
                     | _ => false
                     end) (range 1 62) = true)
      by (vm_compute; reflexivity).
    rewrite forallb_forall in H. specialize (H n).
    change (len Example.a62) with 62 in Hn.
    assert (Hin : In n (range 1 62)).
    { unfold range. apply in_map_iff. exists (Z.to_nat (n - 1)).
      split; [lia|]. apply in_seq. lia. }
    specialize (H Hin).
    destruct (Example.stuck Example.haiku (envelope (slice_to Example.a62 n)))
      as [[m|code|name| |]|resp]; try discriminate H.
    exists code. reflexivity.
Defined.
